(** * HOLE full spectral evaporation simulator: greybody factors, the
    spectral efficiency F(T), the evaporation trajectory and its exporter.

    The Python sources compute in binary64.  This development reads every
    float as the real number it stands for and every operation as the exact
    one (no rounding, no overflow).  A value can then fail to be finite only
    through a division by zero: a division of Python floats raises
    [ZeroDivisionError] (modelled by [None]), a division of numpy values
    yields nan or an infinity (modelled where the result is stored by
    [npfloat], and where the source tests [np.isfinite] by a test of the
    divisor).

    The exact reals stand for the sources up to rounding as long as no
    intermediate quantity leaves the range of binary64.  Statements that
    need this name the range of the inputs ([ordinary] magnitudes, bounds on
    [M0] and [T0]) and leave a margin where rounding could decide; what the
    sources do beyond the range (an infinity, a nan, an underflow to zero)
    is followed in binary64 itself in [Binary64], at the end of the
    definitions. *)

From Stdlib Require Import String Ascii.
From Stdlib Require Import Reals Lra Lia ZArith Bool List.
From Stdlib Require Floats.
Import ListNotations.
Open Scope R_scope.

(** ** Builtins and numpy primitives used by the sources *)

(** Exceptions: [None] is a raised [ZeroDivisionError]. *)
Definition bind {A B : Type} (x : option A) (f : A -> option B) : option B :=
  match x with
  | Some a => f a
  | None => None
  end.

Notation "x <- e ;; k" := (bind e (fun x => k))
  (at level 61, e at next level, right associativity).

(** Division of two Python floats. *)
Definition py_div (a b : R) : option R :=
  if Req_dec_T b 0 then None else Some (a / b).

(** An element of a numpy float array. *)
Inductive npfloat :=
| Finite (r : R)
| PInf
| NInf
| NaN.

(** Division of numpy values: a zero divisor gives nan or an infinity. *)
Definition np_div (a b : R) : npfloat :=
  if Req_dec_T b 0 then
    if Req_dec_T a 0 then NaN
    else if Rlt_dec 0 a then PInf else NInf
  else Finite (a / b).

(** Python's [max(a, b)]: [b] replaces [a] only when [b > a]. *)
Definition py_max (a b : R) : R := if Rlt_dec a b then b else a.

(** A magnitude far from both ends of the range of binary64 (about 4.9e-324
    to 1.8e308): products, squares and quotients of a few such values neither
    overflow nor underflow. *)
Definition ordinary (x : R) : Prop := 1e-50 <= Rabs x <= 1e50.

(** Python's [sum(f(x) for x in l)]: left fold starting from 0; an
    exception raised by [f] ends the fold. *)
Fixpoint py_sum_from {A : Type} (f : A -> option R) (l : list A) (acc : R)
  : option R :=
  match l with
  | [] => Some acc
  | a :: l' => v <- f a ;; py_sum_from f l' (acc + v)
  end.

Definition py_sum {A : Type} (f : A -> option R) (l : list A) : option R :=
  py_sum_from f l 0.

(** [np.linspace(start, stop, num)]: [start + i*step] with
    [step = (stop - start)/(num - 1)], the last sample set to [stop]. *)
Definition linspace (start stop : R) (num : nat) : list R :=
  match num with
  | O => []
  | S O => [start]
  | S (S _ as div) =>
      map (fun i => start + INR i * ((stop - start) / INR div)) (seq 0 div)
      ++ [stop]
  end.

(** [np.trapz(y, x)]: [(diff(x) * (y[1:] + y[:-1]) / 2.0).sum()]. *)
Fixpoint trapz (y x : list R) : R :=
  match x, y with
  | x0 :: ((x1 :: _) as x'), y0 :: ((y1 :: _) as y') =>
      (x1 - x0) * (y1 + y0) / 2 + trapz y' x'
  | _, _ => 0
  end.

(** An array whose consecutive entries are related by [rel]. *)
Fixpoint chain {A : Type} (rel : A -> A -> Prop) (l : list A) : Prop :=
  match l with
  | a :: ((b :: _) as l') => rel a b /\ chain rel l'
  | _ => True
  end.

(** A non-decreasing array. *)
Definition nondecreasing (l : list R) : Prop := chain Rle l.

(** Elementwise combination of three arrays of equal length. *)
Fixpoint map3 {A B C D : Type} (f : A -> B -> C -> D)
  (la : list A) (lb : list B) (lc : list C) : list D :=
  match la, lb, lc with
  | a :: la', b :: lb', c :: lc' => f a b c :: map3 f la' lb' lc'
  | _, _, _ => []
  end.

(** Elementwise combination of two arrays of equal length. *)
Fixpoint map2 {A B C : Type} (f : A -> B -> C)
  (la : list A) (lb : list B) : list C :=
  match la, lb with
  | a :: la', b :: lb' => f a b :: map2 f la' lb'
  | _, _ => []
  end.

(** [np.argmin]: index of the first occurrence of the minimum; the scan
    keeps the running best and replaces it on strict improvement only. *)
Fixpoint argmin_from (l : list R) (i best : nat) (bestv : R) : nat :=
  match l with
  | [] => best
  | v :: l' =>
      if Rlt_dec v bestv then argmin_from l' (S i) i v
      else argmin_from l' (S i) best bestv
  end.

Definition argmin (l : list R) : nat :=
  match l with
  | [] => O
  | v :: l' => argmin_from l' 1%nat O v
  end.

(** The running best of the scan of [argmin] over [pre ++ l], after [pre]:
    the first index of the minimum of [pre]. *)
Definition scanned (pre : list R) (best : nat) (bestv : R) : Prop :=
  (best < length pre)%nat /\ bestv = nth best pre 0 /\
  (forall j, (j < length pre)%nat -> bestv <= nth j pre 0) /\
  (forall j, (j < best)%nat -> bestv < nth j pre 0).

(** ** Python's [format(x, ".8e")] and [csv.writer] *)

Module PyFormat.

(** Round to the nearest integer, ties to the even one. *)
Definition round_half_even (r : R) : Z :=
  let f := Zfloor r in
  let d := r - IZR f in
  if Rlt_dec d (1 / 2) then f
  else if Rlt_dec (1 / 2) d then (f + 1)%Z
  else if Z.even f then f else (f + 1)%Z.

(** The decimal exponent [e] of [x <> 0]: [10^e <= |x| < 10^(e+1)]. *)
Definition decimal_exponent (x : R) : Z := Zfloor (ln (Rabs x) / ln 10).

(** The correctly rounded nine-digit decimal [m * 10^(e-8)] of [|x|],
    [x <> 0], as [(m, e)] with [10^8 <= m < 10^9]. *)
Definition sci_round (x : R) : Z * Z :=
  let e := decimal_exponent x in
  let m := round_half_even (Rabs x * powerRZ 10 (8 - e)) in
  if (m =? 10 ^ 9)%Z then (10 ^ 8, e + 1)%Z else (m, e).

Definition digit_char (d : Z) : ascii := ascii_of_nat (48 + Z.to_nat d).

(** The [width] low decimal digits of [n], most significant first. *)
Fixpoint digits_fixed (width : nat) (n : Z) : string :=
  match width with
  | O => EmptyString
  | S w =>
      String.append (digits_fixed w (n / 10))
                    (String (digit_char (n mod 10)) EmptyString)
  end.

(** The number of decimal digits of [n >= 0]. *)
Fixpoint decimal_width (fuel : nat) (n : Z) : nat :=
  match fuel with
  | O => 1
  | S f => if (n <? 10)%Z then 1 else S (decimal_width f (n / 10))
  end.

(** The digits of an exponent: as many as it has, and at least two. *)
Definition exponent_digits (e : Z) : string :=
  digits_fixed (Nat.max 2 (decimal_width (Z.to_nat e) e)) e.

(** The text of the decimal [(-1)^negative * m * 10^(e-8)]: sign, one
    digit, the point, eight digits, [e], the sign of the exponent and its
    digits. *)
Definition render (negative : bool) (m e : Z) : string :=
  String.append (if negative then "-"%string else EmptyString)
    (String.append (digits_fixed 1 (m / 10 ^ 8))
       (String "."
          (String.append (digits_fixed 8 (m mod 10 ^ 8))
             (String "e"
                (String (if (e <? 0)%Z then "-" else "+")%char
                   (exponent_digits (Z.abs e))))))).

Definition format_e8_finite (x : R) : string :=
  if Req_dec_T x 0 then render false 0 0
  else
    let '(m, e) := sci_round x in
    render (if Rlt_dec x 0 then true else false) m e.

(** [f"{v:.8e}"] for an element [v] of a float array. *)
Definition format_e8 (v : npfloat) : string :=
  match v with
  | Finite x => format_e8_finite x
  | PInf => "inf"
  | NInf => "-inf"
  | NaN => "nan"
  end%string.

Definition is_digit (c : ascii) : bool :=
  let n := nat_of_ascii c in (48 <=? n)%nat && (n <=? 57)%nat.

Fixpoint forall_chars (P : ascii -> bool) (s : string) : bool :=
  match s with
  | EmptyString => true
  | String c s' => P c && forall_chars P s'
  end.

(** A field in scientific notation with eight digits after the point. *)
Definition sci8_shape (s : string) : Prop :=
  exists sign d frac esign edigits,
    s = String.append sign
          (String d (String "." (String.append frac
             (String "e" (String esign edigits))))) /\
    (sign = EmptyString \/ sign = "-"%string) /\
    is_digit d = true /\
    String.length frac = 8%nat /\ forall_chars is_digit frac = true /\
    (esign = "+"%char \/ esign = "-"%char) /\
    (2 <= String.length edigits)%nat /\
    forall_chars is_digit edigits = true.

(** [sep] does not occur in [s]. *)
Definition avoids (sep : ascii) (s : string) : Prop :=
  forall_chars (fun c => negb (Ascii.eqb c sep)) s = true.

(** *** [csv.writer] with the default dialect *)

Definition quote_char : ascii := "034".
Definition CR : ascii := "013".
Definition LF : ascii := "010".

Definition is_special (c : ascii) : bool :=
  Ascii.eqb c "," || Ascii.eqb c quote_char || Ascii.eqb c CR
  || Ascii.eqb c LF.

Fixpoint has_special (s : string) : bool :=
  match s with
  | EmptyString => false
  | String c s' => is_special c || has_special s'
  end.

Fixpoint double_quotes (s : string) : string :=
  match s with
  | EmptyString => EmptyString
  | String c s' =>
      if Ascii.eqb c quote_char
      then String c (String c (double_quotes s'))
      else String c (double_quotes s')
  end.

(** A field that [csv.writer] leaves as it is. *)
Definition plain (s : string) : Prop := has_special s = false.

(** A field is quoted only if it holds a delimiter, a quote or a line
    break. *)
Definition csv_field (s : string) : string :=
  if has_special s
  then String quote_char
         (String.append (double_quotes s) (String quote_char EmptyString))
  else s.

(** [writer.writerow(fields)]: the fields joined by commas, then CR LF. *)
Definition writerow (fields : list string) : string :=
  String.append (String.concat "," (map csv_field fields))
                (String CR (String LF EmptyString)).

(** *** Reading the file back *)

(** [s.split(sep)]. *)
Fixpoint split_on (sep : ascii) (s : string) : list string :=
  match s with
  | EmptyString => [EmptyString]
  | String c s' =>
      if Ascii.eqb c sep then EmptyString :: split_on sep s'
      else
        match split_on sep s' with
        | [] => [String c EmptyString]
        | f :: fs => String c f :: fs
        end
  end.

Fixpoint strip_cr (s : string) : string :=
  match s with
  | EmptyString => EmptyString
  | String c EmptyString => if Ascii.eqb c CR then EmptyString else s
  | String c s' => String c (strip_cr s')
  end.

(** Modelled from the spec: the re-parsing of the exported file, of which
    the repository has no code.  The lines are the pieces between line
    feeds, without their carriage return and without the empty piece after
    the last line feed; a line is split at its commas. *)
Definition parse_rows (content : string) : list (list string) :=
  map (fun line => split_on "," (strip_cr line))
      (removelast (split_on LF content)).

Definition digit_value (c : ascii) : option Z :=
  if is_digit c then Some (Z.of_nat (nat_of_ascii c - 48)) else None.

Fixpoint parse_digits_from (acc : Z) (s : string) : option Z :=
  match s with
  | EmptyString => Some acc
  | String c s' =>
      d <- digit_value c ;; parse_digits_from (acc * 10 + d) s'
  end.

Definition parse_digits (s : string) : option Z :=
  match s with
  | EmptyString => None
  | _ => parse_digits_from 0 s
  end.

(** Modelled from the spec: the value read back from one field, as
    Python's [float(field)] on the forms that [format_e8] produces:
    [nan], [inf], [-inf], and a decimal mantissa with an exponent. *)
Definition parse_float (s : string) : option npfloat :=
  if String.eqb s "nan" then Some NaN
  else if String.eqb s "inf" then Some PInf
  else if String.eqb s "-inf" then Some NInf
  else
    let '(negative, body) :=
      match s with
      | String c rest => if Ascii.eqb c "-" then (true, rest) else (false, s)
      | EmptyString => (false, s)
      end in
    match split_on "e" body with
    | [mantissa; String sign exp_digits] =>
        match split_on "." mantissa with
        | [int_part; frac_part] =>
            i <- parse_digits int_part ;;
            f <- parse_digits frac_part ;;
            e <- parse_digits exp_digits ;;
            se <- (if Ascii.eqb sign "+" then Some e
                   else if Ascii.eqb sign "-" then Some (- e)%Z
                   else None) ;;
            let width := Z.of_nat (String.length frac_part) in
            let m := (i * 10 ^ width + f)%Z in
            Some (Finite ((if negative then -1 else 1) * IZR m
                          * powerRZ 10 (se - width)))
        | _ => None
        end
    | _ => None
    end.

(** The field [f] holds the finite value [v] in scientific notation with
    eight digits after the point, and reads back to within [5e-9 * |v|]
    of it. *)
Definition field_records (f : string) (v : npfloat) : Prop :=
  exists x x',
    v = Finite x /\ sci8_shape f /\
    parse_float f = Some (Finite x') /\ Rabs (x' - x) <= 5e-9 * Rabs x.

End PyFormat.

(** ** greybody.py *)

Module Greybody.

Definition k_B_eV_per_K : R := 8.617333262e-5.

Record Species := mkSpecies {
  name : string;
  g : Z;
  mass_eV : R;
  spin : R;
  fermion : bool
}.

Definition species_set : list Species :=
  [ mkSpecies "photon"   2 0       1   false;
    mkSpecies "graviton" 2 0       2   false;
    mkSpecies "neutrino" 6 0.1     0.5 true;
    mkSpecies "e_pm"     4 5.11e5  0.5 true;
    mkSpecies "mu_pm"    4 1.057e8 0.5 true;
    mkSpecies "pi"       3 1.396e8 0   false ].

(** The first entry of the catalog. *)
Definition photon : Species := mkSpecies "photon" 2 0 1 false.

(** The exponent [p] chosen by the [if/elif/else] chain of [chi_s_y] for a
    spin that is not within 1e-9 of 0. *)
Definition chi_exponent (s : R) : nat :=
  if Rlt_dec (Rabs (s - 0.5)) 1e-9 then 2
  else if Rlt_dec (Rabs (s - 1)) 1e-9 then 4
  else if Rlt_dec (Rabs (s - 2)) 1e-9 then 6
  else 2.

(** The locals [high] and [low] of [chi_s_y]. *)
Definition high : R := 27 * PI / 4.
Definition low : R := 4 * PI.

(** [chi_s_y(y, s)] on an array [y]. *)
Definition chi_s_y (y : list R) (s : R) : list R :=
  if Rlt_dec (Rabs s) 1e-9 then
    map (fun yi => low + (high - low) * (yi ^ 2 / (1 + yi ^ 2))) y
  else
    let p := chi_exponent s in
    map (fun yi => high * (yi ^ p / (1 + yi ^ p))) y.

(** [chi_s_y] on a scalar (numpy turns it into a 0-d array). *)
Definition chi_s_y_scalar (y s : R) : R := hd 0 (chi_s_y [y] s).

(** The saturating ratio [u/(1+u)] that every profile applies to [y**p]. *)
Definition ratio (u : R) : R := u / (1 + u).

End Greybody.

(** ** [graph/greybody_chi_s_curves.py] *)

Module GreybodyCurves.

(** The local [chi_s_y] that the plotting script defines when the import
    of [fullsim.greybody] fails. *)
Definition chi_s_y (y : list R) (s : R) : list R :=
  let high := 27 * PI / 4 in
  if Rlt_dec (Rabs s) 1e-9 then
    let low := 4 * PI in
    map (fun yi => low + (high - low) * (yi ^ 2 / (1 + yi ^ 2))) y
  else
    let p :=
      if Rlt_dec (Rabs (s - 0.5)) 1e-9 then 2%nat
      else if Rlt_dec (Rabs (s - 1)) 1e-9 then 4%nat
      else if Rlt_dec (Rabs (s - 2)) 1e-9 then 6%nat
      else 2%nat in
    map (fun yi => high * (yi ^ p / (1 + yi ^ p))) y.

End GreybodyCurves.

(** ** ft_model.py *)

Module FtModel.
Import Greybody.

(** [den[den <= 0] = np.exp(xs[den <= 0])]: masked assignment. *)
Definition safeguard (den xs : list R) : list R :=
  map2 (fun d x => if Rle_dec d 0 then exp x else d) den xs.

(** The threshold [mu] of [_I_species]; the division is one of Python
    floats and raises at [T = 0]. *)
Definition mu_of (T : R) (spec : Species) : option R :=
  if Rle_dec (mass_eV spec) 0 then Some 0
  else py_div (mass_eV spec) (k_B_eV_per_K * T).

Definition _I_species (T : R) (spec : Species) (n_x : nat) : option R :=
  let s := spin spec in
  mu <- mu_of T spec ;;
  let x_min := py_max mu 1e-6 in
  let x_max := py_max (mu + 40) 40 in
  let xs := linspace x_min x_max n_x in
  let y := map (fun x => x / (4 * PI)) xs in
  let chi := chi_s_y y s in
  let den := map exp xs in
  let den :=
    if fermion spec then map (fun d => d + 1) den
    else safeguard (map (fun d => d - 1) den) xs in
  let integrand := map3 (fun x c d => x ^ 3 * c / d) xs chi den in
  let integral := trapz integrand xs in
  Some (IZR (g spec) * integral).

(** The same computation seen pointwise: the grid of a threshold [mu],
    the denominator and the integrand at one grid point, and the value of
    [_I_species] once [mu] is known. *)
Definition grid (mu : R) (n_x : nat) : list R :=
  linspace (py_max mu 1e-6) (py_max (mu + 40) 40) n_x.

Definition den_at (is_fermion : bool) (x : R) : R :=
  if is_fermion then exp x + 1
  else if Rle_dec (exp x - 1) 0 then exp x else exp x - 1.

Definition integrand_at (spec : Species) (x : R) : R :=
  x ^ 3 * chi_s_y_scalar (x / (4 * PI)) (spin spec) / den_at (fermion spec) x.

Definition I_from_mu (mu : R) (spec : Species) (n_x : nat) : R :=
  IZR (g spec) * trapz (map (integrand_at spec) (grid mu n_x)) (grid mu n_x).

Definition I_of_T (T : R) (n_x : nat) : option R :=
  py_sum (fun spec => _I_species T spec n_x) species_set.

Definition F_of_T (T : R) (n_x : nat) : option R := I_of_T T n_x.

(** The values computed when nothing is raised, that is when [T <> 0]. *)
Definition mu_value (T : R) (spec : Species) : R :=
  if Rle_dec (mass_eV spec) 0 then 0
  else mass_eV spec / (k_B_eV_per_K * T).

Definition I_value (T : R) (n_x : nat) : R :=
  fold_left
    (fun acc spec => acc + I_from_mu (mu_value T spec) spec n_x)
    species_set 0.

(** The default [n_x=600] of the three functions. *)
Definition n_x_default : nat := 600.

End FtModel.

(** ** evap_fullsim.py *)

Module EvapFullsim.

Record FullSimParams := mkParams {
  M0 : R;
  T0 : R;
  n_steps : Z
}.

Definition default_params : FullSimParams := mkParams 1 1.227e12 8000.

Definition T_H (M T0 M0 : R) : option R :=
  q <- py_div M0 M ;; Some (T0 * q).

(** The storage lists and the loop variables of [evolve_trajectory]. *)
Record state := mkState {
  t_list : list R;
  M_list : list R;
  T_list : list R;
  S_bh_list : list R;
  S_rad_list : list R;
  cur_t : R;
  cur_M : R;
  cur_S_bh : R;
  cur_S_rad : R
}.

(** How the loop was left (a ghost tag): the [while] condition failed, the
    [dt] check broke out, the step cap broke out, an exception was raised;
    [FuelExhausted] is the model's own and is shown never to happen. *)
Inductive exit_reason :=
| MassReached
| DegenerateStep
| StepCap
| Raised
| FuelExhausted.

(** What one pass through the loop body does when it does not raise. *)
Inductive iteration :=
| Break
| Next (st : state).

Definition LOG2 : R := ln 2.

Definition S_of_M (M : R) : R := 4 * PI * M ^ 2 / LOG2.

Definition init_state (params : FullSimParams) : option state :=
  let M0 := M0 params in
  let T0 := T0 params in
  T_init <- T_H M0 T0 M0 ;;
  let S_bh0 := S_of_M M0 in
  Some (mkState [0] [M0] [T_init] [S_bh0] [0] 0 M0 S_bh0 0).

Section Loop.

(** The spectral efficiency called by the loop, [F_of_T(T)]. *)
Variable F_of_T : R -> option R.
Variable params : FullSimParams.

Definition dMdt_of (F M : R) : R := - F / (M ^ 2 + 1e-30).

Definition dt_of (F M : R) : R :=
  1e-3 * Rabs (M / (dMdt_of F M + 1e-30)).

(** [not np.isfinite(dt) or dt <= 0]: [dt] is not finite exactly when its
    divisor vanishes. *)
Definition degenerate_dt (F M : R) : bool :=
  if Req_dec_T (dMdt_of F M + 1e-30) 0 then true
  else if Rle_dec (dt_of F M) 0 then true else false.

(** The body of the [while] loop up to and including [advance]. *)
Definition body (st : state) : option iteration :=
  let M := cur_M st in
  T <- T_H M (T0 params) (M0 params) ;;
  F <- F_of_T T ;;
  let dMdt := dMdt_of F M in
  let dt := dt_of F M in
  if degenerate_dt F M then Some Break
  else
    let M_new := py_max (M + dMdt * dt) (1e-6 * M0 params) in
    let t_new := cur_t st + dt in
    let S_bh_new := S_of_M M_new in
    let dS_bh := S_bh_new - cur_S_bh st in
    let S_rad_new := cur_S_rad st - dS_bh in
    T_new <- T_H M_new (T0 params) (M0 params) ;;
    Some (Next (mkState (t_list st ++ [t_new])
                        (M_list st ++ [M_new])
                        (T_list st ++ [T_new])
                        (S_bh_list st ++ [S_bh_new])
                        (S_rad_list st ++ [S_rad_new])
                        t_new M_new S_bh_new S_rad_new)).

(** [while M > 1e-4 * M0: ...], one iteration per unit of fuel. *)
Fixpoint loop (fuel : nat) (st : state) : state * exit_reason :=
  match fuel with
  | O => (st, FuelExhausted)
  | S fuel' =>
      if Rlt_dec (1e-4 * M0 params) (cur_M st) then
        match body st with
        | None => (st, Raised)
        | Some Break => (st, DegenerateStep)
        | Some (Next st') =>
            if (n_steps params <=? Z.of_nat (length (t_list st')))%Z
            then (st', StepCap)
            else loop fuel' st'
        end
      else (st, MassReached)
  end.

(** Fuel that always suffices: the history grows by one per iteration and
    the loop leaves once its length reaches [n_steps]. *)
Definition enough_fuel : nat := S (Z.to_nat (n_steps params)).

End Loop.

(** The dictionary returned by [evolve_trajectory]. *)
Record Trajectory := mkTrajectory {
  t : list R;
  tau : list npfloat;
  M_over_M0 : list npfloat;
  T_over_T0 : list npfloat;
  S_bits : list R;
  bits_emitted : list R;
  t_evap : R;
  tau_page : npfloat;
  M_page_over_M0 : npfloat
}.

(** [idx_page = int(np.argmin(np.abs(S_bh_arr - S_rad_arr)))]. *)
Definition page_index (S_bh_arr S_rad_arr : list R) : nat :=
  argmin (map2 (fun a b => Rabs (a - b)) S_bh_arr S_rad_arr).

(** The part of [evolve_trajectory] that follows the loop. *)
Definition post_process (params : FullSimParams) (st : state) : Trajectory :=
  let t_arr := t_list st in
  let M_arr := M_list st in
  let T_arr := T_list st in
  let S_bh_arr := S_bh_list st in
  let S_rad_arr := S_rad_list st in
  let t_evap := last t_arr 0 in
  let tau_arr := map (fun v => np_div v t_evap) t_arr in
  let M_norm := map (fun v => np_div v (M0 params)) M_arr in
  let T_norm := map (fun v => np_div v (T0 params)) T_arr in
  let idx_page := page_index S_bh_arr S_rad_arr in
  let tau_page := nth idx_page tau_arr NaN in
  let M_page := nth idx_page M_norm NaN in
  mkTrajectory t_arr tau_arr M_norm T_norm S_bh_arr S_rad_arr
               t_evap tau_page M_page.

(** [evolve_trajectory] with the spectral efficiency as a parameter. *)
Definition evolve_with (F : R -> option R) (params : FullSimParams)
  : option Trajectory :=
  st0 <- init_state params ;;
  match loop F params (enough_fuel params) st0 with
  | (_, Raised) | (_, FuelExhausted) => None
  | (st, _) => Some (post_process params st)
  end.

(** [F_of_T(T)] as the loop calls it, with the default grid. *)
Definition F_default (T : R) : option R :=
  FtModel.F_of_T T FtModel.n_x_default.

Definition evolve_trajectory (params : FullSimParams) : option Trajectory :=
  evolve_with F_default params.

(** *** Invariants of the loop *)

(** What every state reached by the loop satisfies: the five lists grow
    together, start from the initial record, end with the loop variables,
    the entropies are those of the recorded masses and add up to the
    initial one, and the times increase. *)
Record history_ok (params : FullSimParams) (st : state) : Prop :=
  mk_history_ok {
  ok_len_M : length (M_list st) = length (t_list st);
  ok_len_T : length (T_list st) = length (t_list st);
  ok_len_S_bh : length (S_bh_list st) = length (t_list st);
  ok_len_S_rad : length (S_rad_list st) = length (t_list st);
  ok_first_t : hd_error (t_list st) = Some 0;
  ok_first_M : hd_error (M_list st) = Some (M0 params);
  ok_first_S_rad : hd_error (S_rad_list st) = Some 0;
  ok_last_t : last (t_list st) 0 = cur_t st;
  ok_last_M : last (M_list st) 0 = cur_M st;
  ok_last_S_bh : last (S_bh_list st) 0 = cur_S_bh st;
  ok_last_S_rad : last (S_rad_list st) 0 = cur_S_rad st;
  ok_S_bh : S_bh_list st = map S_of_M (M_list st);
  ok_conserved :
    Forall2 (fun a b => a + b = S_of_M (M0 params))
            (S_bh_list st) (S_rad_list st);
  ok_t_increasing : chain Rlt (t_list st)
}.

(** Inside the loop the initial mass is positive: the loop variable is
    the initial mass until the first step, and the first step is taken
    only if [M0 > 1e-4 * M0]. *)
Definition entered (params : FullSimParams) (st : state) : Prop :=
  0 < M0 params \/ cur_M st = M0 params.

(** What holds in addition when the spectral efficiency is never
    negative: the masses are positive after the first and never grow. *)
Record mass_ok (params : FullSimParams) (st : state) : Prop :=
  mk_mass_ok {
  mass_le_M0 : cur_M st <= M0 params;
  mass_chain : chain (fun a b => 0 < b <= a) (M_list st)
}.

(** More of what the loop keeps: every recorded temperature is that of
    the recorded mass, which is not zero; every recorded mass after the
    initial one is at least the floor [1e-6 * M0]. *)
Definition temperature_ok (params : FullSimParams) (st : state) : Prop :=
  Forall2 (fun M T => M <> 0 /\ T = T0 params * (M0 params / M))
          (M_list st) (T_list st).

Definition floor_ok (params : FullSimParams) (st : state) : Prop :=
  Forall (fun M => M = M0 params \/ 1e-6 * M0 params <= M) (M_list st).

(** When the efficiency dominates the regulariser: each step takes off
    between 0.1 and 0.101 percent of the mass, so the mass after [k] steps
    lies between [0.99899^k * M0] and [0.999^k * M0]; the last step was
    taken from a mass above the stopping mass [1e-4 * M0]. *)
Record step_ratio_ok (params : FullSimParams) (st : state) : Prop :=
  mk_step_ratio_ok {
  ratio_chain :
    chain (fun a b => 0.99899 * a <= b <= 0.999 * a) (M_list st);
  ratio_cur :
    0.99899 ^ (length (M_list st) - 1) * M0 params <= cur_M st
      <= 0.999 ^ (length (M_list st) - 1) * M0 params;
  ratio_guard : 1e-4 < 0.999 ^ (length (M_list st) - 2);
  ratio_above :
    (2 <= length (M_list st))%nat -> 0.99899 * 1e-4 * M0 params < cur_M st
}.

(** The five column names of [generate_trajectory]. *)
Definition header : list string :=
  ["tau"; "M_over_M0"; "T_over_T0"; "S_bits"; "bits_emitted"]%string.

(** The row written for sample [i]. *)
Definition data_row (traj : Trajectory) (i : nat) : list string :=
  [ PyFormat.format_e8 (nth i (tau traj) NaN);
    PyFormat.format_e8 (nth i (M_over_M0 traj) NaN);
    PyFormat.format_e8 (nth i (T_over_T0 traj) NaN);
    PyFormat.format_e8 (Finite (nth i (S_bits traj) 0));
    PyFormat.format_e8 (Finite (nth i (bits_emitted traj) 0)) ].

(** [generate_trajectory(params, path)]: the text written to [path]. *)
Definition generate_trajectory (params : FullSimParams) : option string :=
  traj <- evolve_trajectory params ;;
  Some (String.append
          (PyFormat.writerow header)
          (String.concat EmptyString
             (map (fun i => PyFormat.writerow (data_row traj i))
                  (seq 0 (length (tau traj)))))).

(** A lower bound of [10^20 * 0.99899^n] in integers, for the run with
    the default parameters: each step rounds down. *)
Fixpoint shrink_floor (n : nat) : Z :=
  match n with
  | O => 10 ^ 20
  | S n' => (shrink_floor n' * 99899) / 100000
  end%Z.

(** An upper bound of [10^20 * 0.999^n] in integers: each step rounds
    up. *)
Fixpoint shrink_ceil (n : nat) : Z :=
  match n with
  | O => 10 ^ 20
  | S n' => (shrink_ceil n' * 999) / 1000 + 1
  end%Z.

End EvapFullsim.

(** ** The same expressions in binary64 *)

(** Beyond the range of binary64 the sources do not compute what the exact
    reals above compute: a product or quotient overflows to an infinity or
    underflows to zero, and [inf - inf] and [inf / inf] are nan.  This module
    follows [chi_s_y] and [_I_species] operation by operation in binary64
    itself.  The library functions [np.exp] and [np.power] are parameters;
    [y**2] is the rounded square ([np.square]). *)
Module Binary64.
Import PrimFloat.
Local Open Scope float_scope.

(** [np.pi] and [math.pi]. *)
Definition np_pi : float := 0x1.921fb54442d18p+1.

Definition k_B_eV_per_K : float := 8.617333262e-5.

(** Python's [max(a, b)]: [b] replaces [a] only when [b > a]. *)
Definition py_max (a b : float) : float := if ltb a b then b else a.

(** The integer [i] as the float that numpy makes of it. *)
Definition of_nat (i : nat) : float :=
  of_uint63 (Uint63.of_Z (Z.of_nat i)).

(** [np.linspace(start, stop, num)]: [arange(0, num) * step + start] with
    [step = (stop - start) / (num - 1)], the last sample set to [stop];
    when the step is zero the samples are [arange / (num - 1) * delta +
    start]. *)
Definition linspace (start stop : float) (num : nat) : list float :=
  match num with
  | O => []
  | S O => [of_nat 0 * (stop - start) + start]
  | S (S _ as div) =>
      let delta := stop - start in
      let step := delta / of_nat div in
      map (fun i =>
             if eqb step 0 then of_nat i / of_nat div * delta + start
             else of_nat i * step + start)
          (seq 0 div)
      ++ [stop]
  end.

(** [(diff(x) * (y[1:] + y[:-1]) / 2.0)], the terms that [np.trapz]
    adds. *)
Fixpoint trapz_terms (y x : list float) : list float :=
  match x, y with
  | x0 :: ((x1 :: _) as x'), y0 :: ((y1 :: _) as y') =>
      (x1 - x0) * (y1 + y0) / 2 :: trapz_terms y' x'
  | _, _ => []
  end.

(** [.sum()], adding from the left (numpy adds in pairs; a nan term gives
    nan in either order). *)
Definition np_sum (l : list float) : float := fold_left add l 0.

Definition trapz (y x : list float) : float := np_sum (trapz_terms y x).

Record Species := mkSpecies {
  g : float;
  mass_eV : float;
  spin : float;
  fermion : bool
}.

(** The last entry of the catalog. *)
Definition pion : Species := mkSpecies 3 1.396e8 0 false.

Section Library.

Variable np_exp : float -> float.
Variable np_power : float -> float -> float.

(** [chi_s_y(y, s)] on one element of [y]. *)
Definition chi_s_y (y s : float) : float :=
  let high := 27 * np_pi / 4 in
  if ltb (abs s) 1e-9 then
    let low := 4 * np_pi in
    low + (high - low) * (y * y / (1 + y * y))
  else
    let p :=
      if ltb (abs (s - 0.5)) 1e-9 then 2
      else if ltb (abs (s - 1)) 1e-9 then 4
      else if ltb (abs (s - 2)) 1e-9 then 6
      else 2 in
    high * (np_power y p / (1 + np_power y p)).

(** The threshold [mu]; the division of Python floats raises when the
    divisor is a zero. *)
Definition mu_of (T : float) (spec : Species) : option float :=
  if leb (mass_eV spec) 0 then Some 0
  else
    let d := k_B_eV_per_K * T in
    if eqb d 0 then None else Some (mass_eV spec / d).

Definition _I_species (T : float) (spec : Species) (n_x : nat)
  : option float :=
  mu <- mu_of T spec ;;
  let x_min := py_max mu 1e-6 in
  let x_max := py_max (mu + 40) 40 in
  let xs := linspace x_min x_max n_x in
  let y := map (fun x => x / (4 * np_pi)) xs in
  let chi := map (fun yi => chi_s_y yi (spin spec)) y in
  let den := map np_exp xs in
  let den :=
    if fermion spec then map (fun d => d + 1) den
    else map2 (fun d x => if leb d 0 then np_exp x else d)
              (map (fun d => d - 1) den) xs in
  let integrand := map3 (fun x c d => np_power x 3 * c / d) xs chi den in
  Some (g spec * trapz integrand xs).

End Library.

End Binary64.

(* ------------------------------------------------------------------ *)
(** * Properties *)

(** ** Elementary facts on the builtins *)

Ltac decide_Rlt :=
  repeat match goal with
  | |- context [Rlt_dec ?a ?b] =>
      destruct (Rlt_dec a b); try (exfalso; unfold Rabs in *;
        repeat destruct Rcase_abs; lra)
  | |- context [Rle_dec ?a ?b] =>
      destruct (Rle_dec a b); try (exfalso; unfold Rabs in *;
        repeat destruct Rcase_abs; lra)
  | |- context [Req_dec_T ?a ?b] =>
      destruct (Req_dec_T a b); try (exfalso; unfold Rabs in *;
        repeat destruct Rcase_abs; lra)
  end.

Lemma py_max_Rmax (a b : R) : py_max a b = Rmax a b.
Proof.
unfold py_max, Rmax.
destruct (Rlt_dec a b) as [Hlt | Hge], (Rle_dec a b) as [Hle | Hgt];
  try reflexivity; lra.
Qed.

Lemma py_max_l (a b : R) : a <= py_max a b.
Proof. rewrite py_max_Rmax. apply Rmax_l. Qed.

Lemma py_max_r (a b : R) : b <= py_max a b.
Proof. rewrite py_max_Rmax. apply Rmax_r. Qed.

Lemma ordinary_nonzero (x : R) : ordinary x -> x <> 0.
Proof.
intros [H _] E. rewrite E, Rabs_R0 in H. lra.
Qed.

Lemma ordinary_positive (x : R) : 1e-50 <= x <= 1e50 -> ordinary x.
Proof.
intros H. unfold ordinary. rewrite Rabs_pos_eq by lra. exact H.
Qed.

(** ** The greybody profile *)

Module GreybodyFacts.
Import Greybody.

Lemma ratio_bounds (u : R) : 0 <= u -> 0 <= ratio u <= 1.
Proof.
intros Hu. unfold ratio. split.
- apply Rmult_le_pos; [lra |]. left. apply Rinv_0_lt_compat. lra.
- apply (Rmult_le_reg_r (1 + u)); [lra |].
  unfold Rdiv. rewrite Rmult_assoc, Rinv_l by lra. lra.
Qed.

Lemma ratio_monotone (u v : R) : 0 <= u <= v -> ratio u <= ratio v.
Proof.
intros [Hu Huv]. unfold ratio.
replace (u / (1 + u)) with (1 - / (1 + u)) by (field; lra).
replace (v / (1 + v)) with (1 - / (1 + v)) by (field; lra).
assert (/ (1 + v) <= / (1 + u)) by (apply Rinv_le_contravar; lra).
lra.
Qed.

Lemma pow_monotone (p : nat) (y y' : R) : 0 <= y <= y' -> y ^ p <= y' ^ p.
Proof. intros [H0 H1]. apply pow_incr. split; assumption. Qed.

Lemma high_pos : 0 < high.
Proof. unfold high. pose proof PI_RGT_0. lra. Qed.

Lemma low_lt_high : low < high.
Proof. unfold low, high. pose proof PI_RGT_0. lra. Qed.

(** The two shapes of [chi_s_y] on a scalar. *)
Lemma chi_scalar_spin0 (y s : R) :
  Rabs s < 1e-9 ->
  chi_s_y_scalar y s = low + (high - low) * ratio (y ^ 2).
Proof.
intros Hs. unfold chi_s_y_scalar, chi_s_y.
destruct (Rlt_dec (Rabs s) 1e-9); [reflexivity | contradiction].
Qed.

Lemma chi_scalar_power (y s : R) :
  ~ Rabs s < 1e-9 ->
  chi_s_y_scalar y s = high * ratio (y ^ chi_exponent s).
Proof.
intros Hs. unfold chi_s_y_scalar, chi_s_y.
destruct (Rlt_dec (Rabs s) 1e-9); [contradiction | reflexivity].
Qed.

(** On an array [chi_s_y] is the scalar function applied elementwise. *)
Lemma chi_s_y_elementwise (ys : list R) (s : R) :
  chi_s_y ys s = map (fun y => chi_s_y_scalar y s) ys.
Proof.
unfold chi_s_y_scalar, chi_s_y.
destruct (Rlt_dec (Rabs s) 1e-9); reflexivity.
Qed.

Lemma chi_exponent_half : chi_exponent 0.5 = 2%nat.
Proof. unfold chi_exponent. decide_Rlt. reflexivity. Qed.

Lemma chi_exponent_one : chi_exponent 1 = 4%nat.
Proof. unfold chi_exponent. decide_Rlt. reflexivity. Qed.

Lemma chi_exponent_two : chi_exponent 2 = 6%nat.
Proof. unfold chi_exponent. decide_Rlt. reflexivity. Qed.

Lemma chi_exponent_other (s : R) :
  1e-9 <= Rabs (s - 1) -> 1e-9 <= Rabs (s - 2) -> chi_exponent s = 2%nat.
Proof.
intros H1 H2. unfold chi_exponent.
destruct (Rlt_dec (Rabs (s - 0.5)) 1e-9); [reflexivity |].
destruct (Rlt_dec (Rabs (s - 1)) 1e-9); [lra |].
destruct (Rlt_dec (Rabs (s - 2)) 1e-9); [lra | reflexivity].
Qed.

Lemma chi_exponent_even (s : R) : exists k, chi_exponent s = (2 * S k)%nat.
Proof.
unfold chi_exponent.
destruct (Rlt_dec (Rabs (s - 0.5)) 1e-9); [exists 0%nat; reflexivity |].
destruct (Rlt_dec (Rabs (s - 1)) 1e-9); [exists 1%nat; reflexivity |].
destruct (Rlt_dec (Rabs (s - 2)) 1e-9); [exists 2%nat | exists 0%nat];
  reflexivity.
Qed.

(** For every spin the profile is non-negative, at most [high], and
    non-decreasing on [y >= 0]. *)
Lemma chi_scalar_range (y s : R) :
  0 <= y -> 0 <= chi_s_y_scalar y s <= high.
Proof.
intros Hy. pose proof high_pos. pose proof low_lt_high.
assert (0 < low) by (unfold low; pose proof PI_RGT_0; lra).
destruct (Rlt_dec (Rabs s) 1e-9) as [Hs | Hs].
- rewrite chi_scalar_spin0 by assumption.
  pose proof (ratio_bounds (y ^ 2) (pow_le y 2 Hy)). nra.
- rewrite chi_scalar_power by assumption.
  pose proof (ratio_bounds _ (pow_le y (chi_exponent s) Hy)). nra.
Qed.

Lemma chi_scalar_monotone (y y' s : R) :
  0 <= y <= y' -> chi_s_y_scalar y s <= chi_s_y_scalar y' s.
Proof.
intros Hy. pose proof high_pos. pose proof low_lt_high.
destruct (Rlt_dec (Rabs s) 1e-9) as [Hs | Hs].
- rewrite !chi_scalar_spin0 by assumption.
  assert (ratio (y ^ 2) <= ratio (y' ^ 2)).
  { apply ratio_monotone. split; [apply pow_le; lra |].
    apply pow_monotone; assumption. }
  nra.
- rewrite !chi_scalar_power by assumption.
  assert (ratio (y ^ chi_exponent s) <= ratio (y' ^ chi_exponent s)).
  { apply ratio_monotone. split; [apply pow_le; lra |].
    apply pow_monotone; assumption. }
  nra.
Qed.

End GreybodyFacts.

(** ** Grids and quadrature *)

Lemma map3_map (A B C D : Type) (f : A -> B -> C -> D)
  (h : A -> B) (k : A -> C) (l : list A) :
  map3 f l (map h l) (map k l) = map (fun a => f a (h a) (k a)) l.
Proof. induction l as [| a l IH]; simpl; [reflexivity | now rewrite IH]. Qed.

Lemma map2_map (A B C : Type) (f : B -> A -> C) (h : A -> B) (l : list A) :
  map2 f (map h l) l = map (fun a => f (h a) a) l.
Proof. induction l as [| a l IH]; simpl; [reflexivity | now rewrite IH]. Qed.

Lemma linspace_length (a b : R) (n : nat) : length (linspace a b n) = n.
Proof.
destruct n as [| [| m]]; simpl; try reflexivity.
rewrite length_app, length_map, length_seq. simpl. lia.
Qed.

(** In exact arithmetic the last sample [stop] lies on the same arithmetic
    progression as the others. *)
Lemma linspace_uniform (a b : R) (m : nat) :
  linspace a b (S (S m)) =
  map (fun i => a + INR i * ((b - a) / INR (S m))) (seq 0 (S (S m))).
Proof.
unfold linspace.
rewrite (seq_S (S m) 0), map_app. f_equal. simpl map. f_equal.
assert (INR (S m) <> 0) by (apply not_0_INR; discriminate).
change (0 + S m)%nat with (S m). field. assumption.
Qed.

Lemma nondecreasing_map_seq (f : nat -> R) (n s : nat) :
  (forall i, f i <= f (S i)) -> nondecreasing (map f (seq s n)).
Proof.
intros Hf. revert s. induction n as [| n IH]; intros s; [exact I |].
destruct n as [| n]; [exact I |].
change (f s <= f (S s) /\ nondecreasing (map f (seq (S s) (S n)))).
split; [apply Hf | apply IH].
Qed.

Lemma linspace_nondecreasing (a b : R) (n : nat) :
  a <= b -> nondecreasing (linspace a b n).
Proof.
intros Hab. destruct n as [| [| m]]; try exact I.
rewrite linspace_uniform. apply nondecreasing_map_seq. intros i.
assert (0 < INR (S m)) by (apply lt_0_INR; lia).
assert (0 <= (b - a) / INR (S m)).
{ apply Rmult_le_pos; [lra | left; apply Rinv_0_lt_compat; assumption]. }
rewrite (S_INR i). nra.
Qed.

Lemma linspace_range (a b : R) (n : nat) (x : R) :
  a <= b -> In x (linspace a b n) -> a <= x <= b.
Proof.
intros Hab Hin. destruct n as [| [| m]].
- contradiction.
- destruct Hin as [<- | []]. lra.
- rewrite linspace_uniform in Hin. apply in_map_iff in Hin.
  destruct Hin as [i [<- Hi]]. apply in_seq in Hi.
  assert (Hm : 0 < INR (S m)) by (apply lt_0_INR; lia).
  assert (Hi0 : 0 <= INR i) by apply pos_INR.
  assert (Hi1 : INR i <= INR (S m)) by (apply le_INR; lia).
  remember (INR (S m)) as d eqn:Hd. clear Hd.
  assert (Hs : 0 <= (b - a) / d).
  { apply Rmult_le_pos; [lra | left; apply Rinv_0_lt_compat; assumption]. }
  split; [nra |].
  replace b with (a + d * ((b - a) / d)) at 2 by (field; lra).
  nra.
Qed.

Lemma trapz_map_nonneg (f : R -> R) (xs : list R) :
  nondecreasing xs -> (forall x, In x xs -> 0 <= f x) ->
  0 <= trapz (map f xs) xs.
Proof.
induction xs as [| x0 xs IH]; intros Hs Hf; [simpl; lra |].
destruct xs as [| x1 xs]; [simpl; lra |].
destruct Hs as [H01 Hs].
change (0 <= (x1 - x0) * (f x1 + f x0) / 2 + trapz (map f (x1 :: xs)) (x1 :: xs)).
assert (0 <= trapz (map f (x1 :: xs)) (x1 :: xs)).
{ apply IH; [assumption |]. intros x Hx. apply Hf. now right. }
assert (0 <= f x0) by (apply Hf; now left).
assert (0 <= f x1) by (apply Hf; right; now left).
nra.
Qed.

(** ** The spectral integral *)

Module FtFacts.
Import Greybody FtModel.

Lemma k_B_pos : 0 < k_B_eV_per_K.
Proof. unfold k_B_eV_per_K. lra. Qed.

(** The threshold is defined as soon as [T <> 0], and is then [m/(k_B T)]
    for a massive species and 0 for the others. *)
Lemma mu_of_defined (T : R) (spec : Species) :
  T <> 0 -> mu_of T spec = Some (mu_value T spec).
Proof.
intros HT. unfold mu_of, mu_value, py_div. pose proof k_B_pos.
destruct (Rle_dec (mass_eV spec) 0); [reflexivity |].
destruct (Req_dec_T (k_B_eV_per_K * T) 0) as [E | _]; [| reflexivity].
exfalso. apply Rmult_integral in E. destruct E; lra.
Qed.

(** [_I_species] is the pointwise computation on the grid of [mu]. *)
Lemma I_species_pointwise (T : R) (spec : Species) (n_x : nat) :
  _I_species T spec n_x =
  (mu <- mu_of T spec ;; Some (I_from_mu mu spec n_x)).
Proof.
unfold _I_species, I_from_mu, grid. destruct (mu_of T spec) as [mu |];
  [| reflexivity].
simpl. do 2 f_equal.
set (xs := linspace _ _ _).
rewrite GreybodyFacts.chi_s_y_elementwise, !map_map.
unfold safeguard. rewrite map2_map.
assert (Hden :
  (if fermion spec then map (fun x => exp x + 1) xs
   else map (fun a => if Rle_dec (exp a - 1) 0 then exp a else exp a - 1) xs)
  = map (den_at (fermion spec)) xs).
{ unfold den_at. destruct (fermion spec); reflexivity. }
rewrite Hden, map3_map. reflexivity.
Qed.

Lemma grid_range (mu : R) (n_x : nat) (x : R) :
  In x (grid mu n_x) -> 1e-6 <= x.
Proof.
intros Hin. unfold grid in Hin. apply linspace_range in Hin.
- pose proof (py_max_r mu 1e-6). lra.
- rewrite !py_max_Rmax. unfold Rmax.
  repeat destruct Rle_dec; lra.
Qed.

Lemma grid_nondecreasing (mu : R) (n_x : nat) : nondecreasing (grid mu n_x).
Proof.
apply linspace_nondecreasing. rewrite !py_max_Rmax. unfold Rmax.
repeat destruct Rle_dec; lra.
Qed.

Lemma exp_minus_one_pos (x : R) : 0 < x -> 0 < exp x - 1.
Proof. intros Hx. pose proof (exp_ineq1 x). lra. Qed.

(** On positive arguments the Bose-Einstein safeguard is not taken. *)
Lemma den_at_boson (x : R) : 0 < x -> den_at false x = exp x - 1.
Proof.
intros Hx. unfold den_at. pose proof (exp_minus_one_pos x Hx).
destruct (Rle_dec (exp x - 1) 0); [lra | reflexivity].
Qed.

Lemma den_at_pos (is_fermion : bool) (x : R) : 0 < den_at is_fermion x.
Proof.
unfold den_at. pose proof (exp_pos x).
destruct is_fermion; [lra |].
destruct (Rle_dec (exp x - 1) 0); lra.
Qed.

Lemma integrand_at_nonneg (spec : Species) (x : R) :
  0 <= x -> 0 <= integrand_at spec x.
Proof.
intros Hx. unfold integrand_at. pose proof PI_RGT_0.
assert (Hy : 0 <= x / (4 * PI)).
{ apply Rmult_le_pos; [lra | left; apply Rinv_0_lt_compat; lra]. }
pose proof (GreybodyFacts.chi_scalar_range _ (spin spec) Hy) as [Hc _].
pose proof (den_at_pos (fermion spec) x).
apply Rmult_le_pos; [| left; apply Rinv_0_lt_compat; assumption].
apply Rmult_le_pos; [apply pow_le; assumption | assumption].
Qed.

Lemma catalog_g_pos (spec : Species) :
  In spec species_set -> (0 < g spec)%Z.
Proof.
unfold species_set. simpl.
intros [<- | [<- | [<- | [<- | [<- | [<- | []]]]]]]; simpl; lia.
Qed.

Lemma I_from_mu_nonneg (mu : R) (spec : Species) (n_x : nat) :
  (0 <= g spec)%Z -> 0 <= I_from_mu mu spec n_x.
Proof.
intros Hg. unfold I_from_mu. apply Rmult_le_pos.
- apply IZR_le. assumption.
- apply trapz_map_nonneg; [apply grid_nondecreasing |].
  intros x Hx. apply integrand_at_nonneg.
  pose proof (grid_range _ _ _ Hx). lra.
Qed.

Lemma py_sum_from_defined (A : Type) (f : A -> option R) (h : A -> R)
  (l : list A) (acc : R) :
  (forall a, In a l -> f a = Some (h a)) ->
  py_sum_from f l acc = Some (fold_left (fun s a => s + h a) l acc).
Proof.
revert acc. induction l as [| a l IH]; intros acc Hf; [reflexivity |].
simpl. rewrite (Hf a) by (now left). simpl.
apply IH. intros b Hb. apply Hf. now right.
Qed.

Lemma fold_left_nonneg (A : Type) (h : A -> R) (l : list A) (acc : R) :
  (forall a, In a l -> 0 <= h a) -> acc <= fold_left (fun s a => s + h a) l acc.
Proof.
revert acc. induction l as [| a l IH]; intros acc Hh; [simpl; lra |].
simpl. apply Rle_trans with (acc + h a).
- pose proof (Hh a (or_introl eq_refl)). lra.
- apply IH. intros b Hb. apply Hh. now right.
Qed.

(** For [T <> 0] nothing is raised and [F_of_T] is the sum of the species
    integrals, which is not negative. *)
Lemma F_of_T_defined (T : R) (n_x : nat) :
  T <> 0 -> F_of_T T n_x = Some (I_value T n_x).
Proof.
intros HT. unfold F_of_T, I_of_T, py_sum, I_value.
apply py_sum_from_defined with
  (h := fun spec => I_from_mu (mu_value T spec) spec n_x).
intros spec _. rewrite I_species_pointwise, mu_of_defined by assumption.
reflexivity.
Qed.

Lemma I_value_nonneg (T : R) (n_x : nat) : 0 <= I_value T n_x.
Proof.
unfold I_value.
apply (fold_left_nonneg _
         (fun spec => I_from_mu (mu_value T spec) spec n_x)).
intros spec Hin. apply I_from_mu_nonneg.
pose proof (catalog_g_pos spec Hin). lia.
Qed.

(** At [T = 0] the neutrino threshold divides by zero. *)
Lemma F_of_T_raises_at_0 (n_x : nat) : F_of_T 0 n_x = None.
Proof.
unfold F_of_T, I_of_T, py_sum, species_set. simpl.
rewrite !I_species_pointwise.
assert (Hm : forall nm gg s f, mu_of 0 (mkSpecies nm gg 0 s f) = Some 0).
{ intros. unfold mu_of. simpl. destruct (Rle_dec 0 0); [reflexivity | lra]. }
rewrite !Hm. simpl.
unfold mu_of, py_div. simpl.
destruct (Rle_dec 0.1 0); [lra |].
destruct (Req_dec_T (k_B_eV_per_K * 0) 0) as [_ | Hne]; [reflexivity |].
exfalso. apply Hne. ring.
Qed.

Lemma F_of_T_nonneg (T v : R) (n_x : nat) : F_of_T T n_x = Some v -> 0 <= v.
Proof.
destruct (Req_dec_T T 0) as [-> | HT].
- rewrite F_of_T_raises_at_0. discriminate.
- rewrite F_of_T_defined by assumption. intros [= <-].
  apply I_value_nonneg.
Qed.

End FtFacts.

(** C9.  Under [T > 0] the Bose-Einstein safeguard of [_I_species] is dead
    code: for a bosonic species every grid point is at least 1e-6, so
    [e^x - 1 > 0] at every grid point, the masked assignment changes no
    entry of [den], and [_I_species] is the value computed with
    [den = exp(xs) - 1] as it stands. *)
Theorem safeguard_never_taken (T : R) (spec : Greybody.Species) (n_x : nat) :
  0 < T -> Greybody.fermion spec = false ->
  exists mu,
    FtModel.mu_of T spec = Some mu /\
    let xs := FtModel.grid mu n_x in
    let den := map (fun d => d - 1) (map exp xs) in
    (forall x, In x xs -> 1e-6 <= x /\ 0 < exp x - 1) /\
    FtModel.safeguard den xs = den /\
    FtModel._I_species T spec n_x =
    Some (IZR (Greybody.g spec) *
          trapz (map3 (fun x c d => x ^ 3 * c / d) xs
                   (Greybody.chi_s_y (map (fun x => x / (4 * PI)) xs)
                      (Greybody.spin spec))
                   den) xs).
Proof.
intros HT Hb.
assert (HT0 : T <> 0) by lra.
pose proof (FtFacts.mu_of_defined T spec HT0) as Hmu.
eexists. split; [exact Hmu |].
set (mu := FtModel.mu_value T spec) in *.
cbv zeta.
assert (Hpts : forall x, In x (FtModel.grid mu n_x) ->
                 1e-6 <= x /\ 0 < exp x - 1).
{ intros x Hx. pose proof (FtFacts.grid_range _ _ _ Hx).
  split; [assumption | apply FtFacts.exp_minus_one_pos; lra]. }
assert (Hsafe :
  FtModel.safeguard (map (fun d => d - 1) (map exp (FtModel.grid mu n_x)))
    (FtModel.grid mu n_x)
  = map (fun d => d - 1) (map exp (FtModel.grid mu n_x))).
{ unfold FtModel.safeguard. rewrite !map_map, map2_map.
  apply map_ext_in. intros x Hx. destruct (Hpts x Hx) as [_ Hpos].
  destruct (Rle_dec (exp x - 1) 0); [lra | reflexivity]. }
split; [exact Hpts |]. split; [exact Hsafe |].
unfold FtModel._I_species. rewrite Hmu. simpl. rewrite Hb.
fold (FtModel.grid mu n_x). rewrite Hsafe. reflexivity.
Qed.

Lemma safeguard_never_taken_witness :
  0 < 1.227e12 /\
  exists mu,
    FtModel.mu_of 1.227e12 (Greybody.mkSpecies "photon" 2 0 1 false)
      = Some mu /\
    (forall x, In x (FtModel.grid mu 600) -> 1e-6 <= x /\ 0 < exp x - 1) /\
    FtModel.safeguard (map (fun d => d - 1) (map exp (FtModel.grid mu 600)))
      (FtModel.grid mu 600)
    = map (fun d => d - 1) (map exp (FtModel.grid mu 600)).
Proof.
assert (HT : 0 < 1.227e12) by lra.
split; [exact HT |].
destruct (safeguard_never_taken 1.227e12
            (Greybody.mkSpecies "photon" 2 0 1 false) 600 HT eq_refl)
  as [mu [Hmu [Hpts [Hsafe _]]]].
exists mu. split; [exact Hmu |]. split; [exact Hpts | exact Hsafe].
Defined.

(** ** Lists that grow at the end *)

Lemma chain_snoc (A : Type) (rel : A -> A -> Prop) (l : list A) (x d : A) :
  chain rel l -> (l <> [] -> rel (last l d) x) -> chain rel (l ++ [x]).
Proof.
induction l as [| a l IH]; intros Hc Hl; [exact I |].
destruct l as [| b l].
- simpl. split; [| exact I]. apply Hl. discriminate.
- destruct Hc as [Hab Hc]. split; [exact Hab |].
  apply IH; [exact Hc |]. intros _. apply Hl. discriminate.
Qed.

Lemma chain_nth (A : Type) (rel : A -> A -> Prop) (l : list A) (d : A) :
  (forall a b c, rel a b -> rel b c -> rel a c) ->
  chain rel l ->
  forall i j, (i < j < length l)%nat -> rel (nth i l d) (nth j l d).
Proof.
intros Htr. induction l as [| a l IH]; intros Hc i j Hij;
  [simpl in Hij; lia |].
destruct l as [| b l]; [simpl in Hij; lia |].
destruct Hc as [Hab Hc].
destruct j as [| j]; [lia |].
destruct i as [| i].
- change (rel a (nth j (b :: l) d)).
  destruct j as [| j]; [exact Hab |].
  apply (Htr _ b); [exact Hab |].
  apply (IH Hc 0%nat (S j)). simpl in *. lia.
- change (rel (nth i (b :: l) d) (nth j (b :: l) d)).
  apply IH; [exact Hc | simpl in *; lia].
Qed.

Lemma hd_error_snoc (A : Type) (l : list A) (x a : A) :
  hd_error l = Some a -> hd_error (l ++ [x]) = Some a.
Proof. destruct l; simpl; [discriminate | trivial]. Qed.

Lemma hd_error_nonempty (A : Type) (l : list A) (a : A) :
  hd_error l = Some a -> l <> [].
Proof. destruct l; simpl; [discriminate | discriminate]. Qed.

Lemma hd_error_nth (A : Type) (l : list A) (a d : A) :
  hd_error l = Some a -> nth 0 l d = a.
Proof. destruct l; simpl; [discriminate | congruence]. Qed.

Lemma last_nth (A : Type) (l : list A) (d : A) :
  last l d = nth (length l - 1) l d.
Proof.
induction l as [| a l IH]; [reflexivity |].
destruct l as [| b l]; [reflexivity |].
change (last (a :: b :: l) d) with (last (b :: l) d). rewrite IH.
simpl. now rewrite Nat.sub_0_r.
Qed.

Lemma Forall2_nth (A B : Type) (P : A -> B -> Prop) (la : list A)
  (lb : list B) (da : A) (db : B) :
  Forall2 P la lb ->
  forall i, (i < length la)%nat -> P (nth i la da) (nth i lb db).
Proof.
induction 1 as [| a b la lb Hab _ IH]; intros i Hi; [simpl in Hi; lia |].
destruct i as [| i]; [exact Hab |]. apply IH. simpl in Hi. lia.
Qed.

(** ** The loop of [evolve_trajectory] *)

Module LoopFacts.
Import EvapFullsim.


Section Generic.

Variable F : R -> option R.
Variable p : FullSimParams.

Lemma degenerate_false (Fv M : R) :
  degenerate_dt Fv M = false ->
  dMdt_of Fv M + 1e-30 <> 0 /\ 0 < dt_of Fv M.
Proof.
unfold degenerate_dt.
destruct (Req_dec_T (dMdt_of Fv M + 1e-30) 0); [discriminate |].
destruct (Rle_dec (dt_of Fv M) 0); [discriminate |].
intros _. split; [assumption | lra].
Qed.

(** What a completed pass through the body has done. *)
Lemma body_next (st st' : state) :
  body F p st = Some (Next st') ->
  exists T Fv T_new,
    T_H (cur_M st) (T0 p) (M0 p) = Some T /\
    F T = Some Fv /\
    degenerate_dt Fv (cur_M st) = false /\
    let M := cur_M st in
    let dt := dt_of Fv M in
    let M_new := py_max (M + dMdt_of Fv M * dt) (1e-6 * M0 p) in
    let S_bh_new := S_of_M M_new in
    let S_rad_new := cur_S_rad st - (S_bh_new - cur_S_bh st) in
    T_H M_new (T0 p) (M0 p) = Some T_new /\
    st' = mkState (t_list st ++ [cur_t st + dt]) (M_list st ++ [M_new])
                  (T_list st ++ [T_new]) (S_bh_list st ++ [S_bh_new])
                  (S_rad_list st ++ [S_rad_new])
                  (cur_t st + dt) M_new S_bh_new S_rad_new.
Proof.
unfold body.
destruct (T_H (cur_M st) (T0 p) (M0 p)) as [T |] eqn:HT0; [| discriminate].
simpl. destruct (F T) as [Fv |] eqn:HF; [| discriminate].
simpl. destruct (degenerate_dt Fv (cur_M st)) eqn:Hdeg; [discriminate |].
set (M_new := py_max _ _).
destruct (T_H M_new (T0 p) (M0 p)) as [T_new |] eqn:HT; [| discriminate].
unfold bind. intros Heq. injection Heq as <-.
exists T, Fv, T_new. cbv zeta. repeat split; assumption.
Qed.

Lemma loop_invariant (P : state -> Prop) :
  (forall st st', P st -> 1e-4 * M0 p < cur_M st ->
                  body F p st = Some (Next st') -> P st') ->
  forall fuel st, P st -> P (fst (loop F p fuel st)).
Proof.
intros Hstep. induction fuel as [| fuel IH]; intros st Hst; [exact Hst |].
simpl. destruct (Rlt_dec (1e-4 * M0 p) (cur_M st)) as [Hgt |]; [| exact Hst].
destruct (body F p st) as [[| st'] |] eqn:Hb; try exact Hst.
assert (P st') by (eapply Hstep; eassumption).
destruct (n_steps p <=? Z.of_nat (length (t_list st')))%Z;
  [assumption | apply IH; assumption].
Qed.

Lemma init_history_ok (st0 : state) :
  init_state p = Some st0 -> history_ok p st0.
Proof.
unfold init_state. destruct (T_H (M0 p) (T0 p) (M0 p)); [| discriminate].
simpl. intros [= <-]. constructor; simpl; try reflexivity; try exact I.
constructor; [lra | constructor].
Qed.

Lemma body_history_ok (st st' : state) :
  history_ok p st -> body F p st = Some (Next st') -> history_ok p st'.
Proof.
intros H Hb. apply body_next in Hb.
destruct Hb as (T & Fv & T_new & _ & _ & Hdeg & _ & ->).
apply degenerate_false in Hdeg. destruct Hdeg as [_ Hdt].
destruct H. constructor; simpl;
  rewrite ?length_app, ?last_last; simpl; try congruence;
  try (apply hd_error_snoc; assumption).
- rewrite map_app. simpl. congruence.
- apply Forall2_app; [assumption |]. constructor; [| constructor].
  assert (Hlast : cur_S_bh st + cur_S_rad st = S_of_M (M0 p)).
  { rewrite <- ok_last_S_bh0, <- ok_last_S_rad0, !last_nth.
    rewrite ok_len_S_rad0, <- ok_len_S_bh0.
    apply (Forall2_nth _ _ _ _ _ 0 0 ok_conserved0).
    apply hd_error_nonempty in ok_first_t0.
    rewrite ok_len_S_bh0.
    destruct (t_list st); [contradiction | simpl; lia]. }
  lra.
- apply (chain_snoc _ _ _ _ 0); [assumption |].
  intros _. rewrite ok_last_t0. lra.
Qed.

(** Every state the loop returns satisfies the invariant. *)
Lemma loop_history_ok (fuel : nat) (st : state) :
  history_ok p st -> history_ok p (fst (loop F p fuel st)).
Proof.
apply loop_invariant. intros s s' Hs _ Hb.
eapply body_history_ok; eassumption.
Qed.

Lemma body_length (st st' : state) :
  body F p st = Some (Next st') ->
  length (t_list st') = S (length (t_list st)).
Proof.
intros Hb. apply body_next in Hb.
destruct Hb as (T & Fv & T_new & _ & _ & _ & _ & ->).
simpl. rewrite length_app. simpl. lia.
Qed.

(** The loop ends before the fuel does once the fuel covers the distance
    of the history length to the step cap. *)
Lemma loop_fuel_suffices (fuel : nat) (st : state) :
  (1 <= fuel)%nat ->
  (n_steps p <= Z.of_nat (length (t_list st) + fuel))%Z ->
  snd (loop F p fuel st) <> FuelExhausted.
Proof.
revert st. induction fuel as [| fuel IH]; intros st Hf Hn; [lia |].
simpl. destruct (Rlt_dec (1e-4 * M0 p) (cur_M st)); [| discriminate].
destruct (body F p st) as [[| st'] |] eqn:Hb; try discriminate.
pose proof (body_length _ _ Hb) as Hlen.
destruct (n_steps p <=? Z.of_nat (length (t_list st')))%Z eqn:Hcap;
  [discriminate |].
apply Z.leb_gt in Hcap. apply IH; lia.
Qed.

(** More fuel than needed changes nothing. *)
Lemma loop_more_fuel (fuel k : nat) (st : state) :
  snd (loop F p fuel st) <> FuelExhausted ->
  loop F p (fuel + k) st = loop F p fuel st.
Proof.
revert st. induction fuel as [| fuel IH]; intros st Hne;
  [simpl in Hne; contradiction |].
simpl in *. destruct (Rlt_dec (1e-4 * M0 p) (cur_M st)); [| reflexivity].
destruct (body F p st) as [[| st'] |]; try reflexivity.
destruct (n_steps p <=? Z.of_nat (length (t_list st')))%Z;
  [reflexivity | apply IH; assumption].
Qed.

Lemma init_length (st0 : state) :
  init_state p = Some st0 -> length (t_list st0) = 1%nat.
Proof.
unfold init_state. destruct (T_H (M0 p) (T0 p) (M0 p)); [| discriminate].
simpl. intros [= <-]. reflexivity.
Qed.

Lemma enough_fuel_suffices (st0 : state) :
  init_state p = Some st0 ->
  snd (loop F p (enough_fuel p) st0) <> FuelExhausted.
Proof.
intros Hinit. apply loop_fuel_suffices.
- unfold enough_fuel. lia.
- rewrite (init_length _ Hinit). unfold enough_fuel. lia.
Qed.

(** What a returned trajectory is made of. *)
Lemma evolve_with_inv (r : Trajectory) :
  evolve_with F p = Some r ->
  exists st0 st e,
    init_state p = Some st0 /\
    loop F p (enough_fuel p) st0 = (st, e) /\
    e <> Raised /\ e <> FuelExhausted /\
    history_ok p st /\ r = post_process p st.
Proof.
unfold evolve_with.
destruct (init_state p) as [st0 |] eqn:Hinit; [| discriminate].
unfold bind. destruct (loop F p (enough_fuel p) st0) as [st e] eqn:Hloop.
intros Hr. exists st0, st, e. split; [reflexivity |].
split; [exact Hloop |].
assert (Hok : history_ok p st).
{ replace st with (fst (loop F p (enough_fuel p) st0))
    by (rewrite Hloop; reflexivity).
  apply loop_history_ok, init_history_ok, Hinit. }
destruct e; try discriminate; injection Hr as <-;
  (split; [discriminate | split; [discriminate | split;
     [exact Hok | reflexivity]]]).
Qed.

(** The trajectory is returned unless an exception was raised. *)
Lemma evolve_with_returns (st0 : state) :
  init_state p = Some st0 ->
  snd (loop F p (enough_fuel p) st0) <> Raised ->
  evolve_with F p =
  Some (post_process p (fst (loop F p (enough_fuel p) st0))).
Proof.
intros Hinit Hnr. pose proof (enough_fuel_suffices _ Hinit) as Hnf.
unfold evolve_with. rewrite Hinit. unfold bind.
destruct (loop F p (enough_fuel p) st0) as [st e]. unfold fst, snd in *.
destruct e; try reflexivity; contradiction.
Qed.

End Generic.

End LoopFacts.

(** ** Masses along the loop *)

Module MassFacts.
Import EvapFullsim LoopFacts.

Section Generic.

Variable F : R -> option R.
Variable p : FullSimParams.

Lemma T_H_defined (M T0 M0 : R) :
  M <> 0 -> T_H M T0 M0 = Some (T0 * (M0 / M)).
Proof.
intros HM. unfold T_H, py_div.
destruct (Req_dec_T M 0); [contradiction | reflexivity].
Qed.

Lemma init_state_defined :
  M0 p <> 0 ->
  init_state p =
  Some (mkState [0] [M0 p] [T0 p * (M0 p / M0 p)] [S_of_M (M0 p)] [0]
                0 (M0 p) (S_of_M (M0 p)) 0).
Proof.
intros HM. unfold init_state. rewrite T_H_defined by assumption.
reflexivity.
Qed.

Lemma init_state_raises : M0 p = 0 -> init_state p = None.
Proof.
intros HM. unfold init_state, T_H, py_div. rewrite HM.
destruct (Req_dec_T 0 0); [reflexivity | contradiction].
Qed.

Lemma entered_guard (st : state) :
  entered p st -> 1e-4 * M0 p < cur_M st -> 0 < M0 p /\ 0 < cur_M st.
Proof. intros [H | H] Hg; split; lra. Qed.

Lemma body_entered (st st' : state) :
  entered p st -> 1e-4 * M0 p < cur_M st ->
  body F p st = Some (Next st') -> entered p st'.
Proof.
intros He Hg _. left. apply (entered_guard _ He Hg).
Qed.

Lemma M_new_pos (M x : R) : 0 < M0 p -> 0 < py_max x (1e-6 * M0 p).
Proof. intros H. pose proof (py_max_r x (1e-6 * M0 p)). lra. Qed.

(** No exception is raised in the loop when [T0 <> 0] and the spectral
    efficiency is defined away from [T = 0]. *)
Lemma loop_not_raised (fuel : nat) (st : state) :
  T0 p <> 0 -> (forall T, T <> 0 -> F T <> None) ->
  entered p st -> snd (loop F p fuel st) <> Raised.
Proof.
intros HT0 HF. revert st.
induction fuel as [| fuel IH]; intros st He; [discriminate |].
simpl. destruct (Rlt_dec (1e-4 * M0 p) (cur_M st)) as [Hg |];
  [| discriminate].
destruct (entered_guard _ He Hg) as [HM0 HM].
destruct (body F p st) as [[| st'] |] eqn:Hb; try discriminate.
- destruct (n_steps p <=? Z.of_nat (length (t_list st')))%Z;
    [discriminate |].
  apply IH. eapply body_entered; eassumption.
- exfalso. unfold body in Hb.
  rewrite T_H_defined in Hb by lra. simpl in Hb.
  assert (HT : T0 p * (M0 p / cur_M st) <> 0).
  { apply Rmult_integral_contrapositive_currified; [assumption |].
    apply Rgt_not_eq. apply Rdiv_lt_0_compat; assumption. }
  destruct (F (T0 p * (M0 p / cur_M st))) as [Fv |] eqn:HFv;
    [| exact (HF _ HT HFv)].
  simpl in Hb. destruct (degenerate_dt Fv (cur_M st)); [discriminate |].
  rewrite T_H_defined in Hb; [discriminate |].
  apply Rgt_not_eq. apply M_new_pos; assumption.
Qed.

(** *** When the spectral efficiency is never negative *)

Hypothesis F_nonneg : forall T v, F T = Some v -> 0 <= v.

Lemma Euler_step_le (Fv M : R) :
  0 <= Fv -> M + dMdt_of Fv M * dt_of Fv M <= M.
Proof.
intros HF. unfold dt_of.
assert (0 <= Rabs (M / (dMdt_of Fv M + 1e-30))) by apply Rabs_pos.
assert (dMdt_of Fv M <= 0).
{ unfold dMdt_of. assert (0 < M ^ 2 + 1e-30) by (pose proof (pow2_ge_0 M); lra).
  assert (0 <= Fv / (M ^ 2 + 1e-30)).
  { apply Rmult_le_pos; [lra | left; apply Rinv_0_lt_compat; lra]. }
  unfold Rdiv in *. lra. }
nra.
Qed.

Lemma body_mass_ok (st st' : state) :
  history_ok p st -> entered p st -> mass_ok p st ->
  1e-4 * M0 p < cur_M st ->
  body F p st = Some (Next st') -> mass_ok p st'.
Proof.
intros Hok He [Hle Hch] Hg Hb.
destruct (entered_guard _ He Hg) as [HM0 HM].
apply body_next in Hb.
destruct Hb as (T & Fv & T_new & _ & HFv & _ & _ & ->).
apply F_nonneg in HFv.
pose proof (Euler_step_le Fv (cur_M st) HFv) as Hstep.
set (M_new := py_max _ _) in *.
assert (HMn : 0 < M_new <= cur_M st).
{ split; [apply M_new_pos; assumption |].
  unfold M_new. rewrite py_max_Rmax. apply Rmax_lub; lra. }
constructor; simpl.
- lra.
- apply (chain_snoc _ _ _ _ 0); [assumption |].
  intros _. rewrite (ok_last_M _ _ Hok). exact HMn.
Qed.

Lemma loop_mass_ok (fuel : nat) (st : state) :
  history_ok p st -> entered p st -> mass_ok p st ->
  mass_ok p (fst (loop F p fuel st)).
Proof.
intros Hok He Hm.
assert (H : history_ok p (fst (loop F p fuel st)) /\
            entered p (fst (loop F p fuel st)) /\
            mass_ok p (fst (loop F p fuel st))).
{ apply (loop_invariant F p
           (fun s => history_ok p s /\ entered p s /\ mass_ok p s)).
  - intros s s' (H1 & H2 & H3) Hg Hb. split; [| split].
    + eapply body_history_ok; eassumption.
    + eapply body_entered; eassumption.
    + eapply body_mass_ok; eassumption.
  - auto. }
apply H.
Qed.

Lemma init_mass_ok (st0 : state) :
  init_state p = Some st0 -> entered p st0 /\ mass_ok p st0.
Proof.
unfold init_state. destruct (T_H (M0 p) (T0 p) (M0 p)); [| discriminate].
simpl. intros [= <-]. split; [right; reflexivity |].
constructor; simpl; [lra | exact I].
Qed.

End Generic.

End MassFacts.

(** ** [np.argmin] *)

Lemma argmin_from_spec (l pre : list R) (best : nat) (bestv : R) :
  scanned pre best bestv ->
  let k := argmin_from l (length pre) best bestv in
  scanned (pre ++ l) k (nth k (pre ++ l) 0).
Proof.
revert pre best bestv.
induction l as [| v l IH]; intros pre best bestv Hs.
- simpl. rewrite app_nil_r. destruct Hs as (H1 & H2 & H3 & H4).
  rewrite <- H2. repeat split; assumption.
- simpl.
  replace (pre ++ v :: l) with ((pre ++ [v]) ++ l)
    by (rewrite <- app_assoc; reflexivity).
  replace (S (length pre)) with (length (pre ++ [v]))
    by (rewrite length_app; simpl; lia).
  destruct Hs as (H1 & H2 & H3 & H4).
  destruct (Rlt_dec v bestv) as [Hlt | Hge]; apply IH.
  + assert (Hv : nth (length pre) (pre ++ [v]) 0 = v).
    { rewrite app_nth2 by lia. now rewrite Nat.sub_diag. }
    repeat split.
    * rewrite length_app. simpl. lia.
    * now rewrite Hv.
    * intros j Hj. rewrite length_app in Hj. simpl in Hj.
      destruct (Nat.eq_dec j (length pre)) as [-> | Hne].
      -- rewrite Hv. lra.
      -- rewrite app_nth1 by lia.
         assert (bestv <= nth j pre 0) by (apply H3; lia). lra.
    * intros j Hj. rewrite app_nth1 by lia.
      assert (bestv <= nth j pre 0) by (apply H3; lia). lra.
  + repeat split.
    * rewrite length_app. simpl. lia.
    * rewrite app_nth1 by lia. assumption.
    * intros j Hj. rewrite length_app in Hj. simpl in Hj.
      destruct (Nat.eq_dec j (length pre)) as [-> | Hne].
      -- rewrite app_nth2 by lia. rewrite Nat.sub_diag. simpl. lra.
      -- rewrite app_nth1 by lia. apply H3. lia.
    * intros j Hj. rewrite app_nth1 by lia. apply H4. assumption.
Qed.

(** [argmin] returns the first index at which the minimum is attained. *)
Lemma argmin_spec (l : list R) :
  l <> [] ->
  (argmin l < length l)%nat /\
  (forall j, (j < length l)%nat -> nth (argmin l) l 0 <= nth j l 0) /\
  (forall j, (j < argmin l)%nat -> nth (argmin l) l 0 < nth j l 0).
Proof.
destruct l as [| v l]; [contradiction |]. intros _.
assert (Hs : scanned [v] 0 v).
{ repeat split; simpl; try lia.
  - intros j Hj. assert (j = 0%nat) as -> by lia. simpl. lra. }
pose proof (argmin_from_spec l [v] 0 v Hs) as H.
simpl in H. destruct H as (H1 & _ & H3 & H4).
repeat split; assumption.
Qed.

Lemma map2_length (A B C : Type) (f : A -> B -> C) (la : list A)
  (lb : list B) :
  length la = length lb -> length (map2 f la lb) = length la.
Proof.
revert lb. induction la as [| a la IH]; intros [| b lb] H; simpl in *;
  try lia. rewrite IH; lia.
Qed.

Lemma map2_nth (A B C : Type) (f : A -> B -> C) (la : list A)
  (lb : list B) (da : A) (db : B) (dc : C) (i : nat) :
  length la = length lb -> (i < length la)%nat ->
  nth i (map2 f la lb) dc = f (nth i la da) (nth i lb db).
Proof.
revert lb i. induction la as [| a la IH]; intros [| b lb] i H Hi;
  simpl in *; try lia.
destruct i as [| i]; [reflexivity |]. apply IH; lia.
Qed.

(** ** The returned trajectory *)

Module TrajectoryFacts.
Import EvapFullsim LoopFacts MassFacts.

Lemma S_of_M_0 : S_of_M 0 = 0.
Proof. unfold S_of_M. unfold Rdiv. ring. Qed.

Lemma LOG2_pos : 0 < LOG2.
Proof. unfold LOG2. pose proof ln_lt_2. lra. Qed.

Lemma S_of_M_monotone (a b : R) : 0 <= b <= a -> S_of_M b <= S_of_M a.
Proof.
intros H. unfold S_of_M. pose proof LOG2_pos. pose proof PI_RGT_0.
apply Rmult_le_compat_r; [left; apply Rinv_0_lt_compat; assumption |].
assert (b ^ 2 <= a ^ 2) by (apply pow_incr; assumption).
nra.
Qed.

(** [F_default] never returns a negative value and is defined away from
    [T = 0]. *)
Lemma F_default_nonneg (T v : R) : F_default T = Some v -> 0 <= v.
Proof. apply FtFacts.F_of_T_nonneg. Qed.

Lemma F_default_defined (T : R) : T <> 0 -> F_default T <> None.
Proof.
intros HT. unfold F_default. rewrite FtFacts.F_of_T_defined by assumption.
discriminate.
Qed.

(** [evolve_trajectory] returns for all parameters with [M0 <> 0] and
    [T0 <> 0], and the history starts with the initial record. *)
Lemma evolve_trajectory_returns (p : FullSimParams) :
  M0 p <> 0 -> T0 p <> 0 ->
  exists r, evolve_trajectory p = Some r /\ (0 < length (S_bits r))%nat.
Proof.
intros HM HT.
pose proof (init_state_defined p HM) as Hinit.
set (st0 := mkState _ _ _ _ _ _ _ _ _) in Hinit.
assert (Hnr : snd (loop F_default p (enough_fuel p) st0) <> Raised).
{ apply loop_not_raised; [assumption | apply F_default_defined |].
  right. reflexivity. }
eexists. split.
- unfold evolve_trajectory. apply (evolve_with_returns _ _ _ Hinit Hnr).
- change (0 < length (S_bh_list (fst (loop F_default p (enough_fuel p) st0))))%nat.
  pose proof (loop_history_ok F_default p (enough_fuel p) st0
                (init_history_ok p st0 Hinit)) as Hok.
  rewrite (ok_len_S_bh _ _ Hok).
  pose proof (hd_error_nonempty _ _ _ (ok_first_t _ _ Hok)).
  destruct (t_list (fst (loop F_default p (enough_fuel p) st0)));
    [contradiction | simpl; lia].
Qed.

End TrajectoryFacts.

(** C1.  Entropy conservation: for every recorded step [i] of the history
    returned by [evolve_trajectory],
    [S_bits[i] + bits_emitted[i] = S_bits[0] = 4*pi*M0^2/ln 2]. *)
Theorem entropy_conserved (p : EvapFullsim.FullSimParams)
  (r : EvapFullsim.Trajectory) (i : nat) :
  EvapFullsim.evolve_trajectory p = Some r ->
  (i < length (EvapFullsim.S_bits r))%nat ->
  nth i (EvapFullsim.S_bits r) 0 + nth i (EvapFullsim.bits_emitted r) 0
    = nth 0 (EvapFullsim.S_bits r) 0 /\
  nth 0 (EvapFullsim.S_bits r) 0 = 4 * PI * EvapFullsim.M0 p ^ 2 / ln 2.
Proof.
intros Hr Hi. apply LoopFacts.evolve_with_inv in Hr.
destruct Hr as (st0 & st & e & _ & _ & _ & _ & Hok & ->).
simpl in *.
assert (H0 : nth 0 (EvapFullsim.S_bh_list st) 0
             = EvapFullsim.S_of_M (EvapFullsim.M0 p)).
{ rewrite (EvapFullsim.ok_S_bh _ _ Hok).
  rewrite <- TrajectoryFacts.S_of_M_0 at 1. rewrite map_nth.
  now rewrite (hd_error_nth _ _ _ 0 (EvapFullsim.ok_first_M _ _ Hok)). }
split; [| exact H0].
rewrite H0.
exact (Forall2_nth _ _ _ _ _ 0 0 (EvapFullsim.ok_conserved _ _ Hok) i Hi).
Qed.

(** C10.  If the spectral efficiency never returns a negative value, the
    recorded black-hole entropy [S_bits] is non-increasing, the recorded
    radiation entropy [bits_emitted] is non-decreasing, and every recorded
    [bits_emitted[i]] is [>= 0]. *)
Theorem entropy_monotone (F : R -> option R)
  (p : EvapFullsim.FullSimParams) (r : EvapFullsim.Trajectory) (i j : nat) :
  (forall T v, F T = Some v -> 0 <= v) ->
  EvapFullsim.evolve_with F p = Some r ->
  (i <= j < length (EvapFullsim.S_bits r))%nat ->
  nth j (EvapFullsim.S_bits r) 0 <= nth i (EvapFullsim.S_bits r) 0 /\
  nth i (EvapFullsim.bits_emitted r) 0
    <= nth j (EvapFullsim.bits_emitted r) 0 /\
  0 <= nth i (EvapFullsim.bits_emitted r) 0.
Proof.
intros HF Hr Hij. apply LoopFacts.evolve_with_inv in Hr.
destruct Hr as (st0 & st & e & Hinit & Hloop & _ & _ & Hok & ->).
unfold EvapFullsim.post_process in *.
cbn [EvapFullsim.S_bits EvapFullsim.bits_emitted] in *.
assert (Hm : EvapFullsim.mass_ok p st).
{ replace st with (fst (EvapFullsim.loop F p (EvapFullsim.enough_fuel p) st0))
    by (rewrite Hloop; reflexivity).
  destruct (MassFacts.init_mass_ok p st0 Hinit).
  apply MassFacts.loop_mass_ok; try assumption.
  apply LoopFacts.init_history_ok. assumption. }
pose proof (EvapFullsim.ok_len_M _ _ Hok) as HlM.
pose proof (EvapFullsim.ok_len_S_bh _ _ Hok) as HlS.
assert (Hmono : forall a b, (a <= b < length (EvapFullsim.S_bh_list st))%nat ->
          nth b (EvapFullsim.S_bh_list st) 0
            <= nth a (EvapFullsim.S_bh_list st) 0).
{ intros a b Hab. destruct (Nat.eq_dec a b) as [-> | Hne]; [lra |].
  rewrite (EvapFullsim.ok_S_bh _ _ Hok).
  rewrite <- TrajectoryFacts.S_of_M_0, !map_nth.
  apply TrajectoryFacts.S_of_M_monotone.
  pose proof (chain_nth _ (fun x y => 0 < y <= x)
                (EvapFullsim.M_list st) 0) as Hc.
  assert (0 < nth b (EvapFullsim.M_list st) 0
            <= nth a (EvapFullsim.M_list st) 0).
  { apply Hc; [intros; lra | apply (EvapFullsim.mass_chain _ _ Hm) | lia]. }
  lra. }
assert (Hsum : forall a, (a < length (EvapFullsim.S_bh_list st))%nat ->
          nth a (EvapFullsim.S_rad_list st) 0
          = EvapFullsim.S_of_M (EvapFullsim.M0 p)
            - nth a (EvapFullsim.S_bh_list st) 0).
{ intros a Ha.
  pose proof (Forall2_nth _ _ _ _ _ 0 0
                (EvapFullsim.ok_conserved _ _ Hok) a Ha). lra. }
assert (H0 : nth 0 (EvapFullsim.S_rad_list st) 0 = 0).
{ apply hd_error_nth. apply (EvapFullsim.ok_first_S_rad _ _ Hok). }
assert (Hi0 : nth 0 (EvapFullsim.S_rad_list st) 0
              <= nth i (EvapFullsim.S_rad_list st) 0).
{ rewrite !Hsum by lia.
  assert (nth i (EvapFullsim.S_bh_list st) 0
            <= nth 0 (EvapFullsim.S_bh_list st) 0) by (apply Hmono; lia).
  lra. }
split; [apply Hmono; assumption |]. split; [| lra].
rewrite !Hsum by lia.
assert (nth j (EvapFullsim.S_bh_list st) 0
          <= nth i (EvapFullsim.S_bh_list st) 0) by (apply Hmono; lia).
lra.
Qed.

(** C7.  The Page index of [evolve_trajectory] minimises
    [|S_bits[i] - bits_emitted[i]|] over the whole recorded history, it is
    the earliest index that attains the minimum, and [tau_page] and
    [M_page_over_M0] are the entries of [tau] and [M_over_M0] at it. *)
Theorem page_point_selection (p : EvapFullsim.FullSimParams)
  (r : EvapFullsim.Trajectory) :
  EvapFullsim.evolve_trajectory p = Some r ->
  let diff := fun i =>
    Rabs (nth i (EvapFullsim.S_bits r) 0
          - nth i (EvapFullsim.bits_emitted r) 0) in
  let idx :=
    EvapFullsim.page_index (EvapFullsim.S_bits r)
      (EvapFullsim.bits_emitted r) in
  (idx < length (EvapFullsim.S_bits r))%nat /\
  (forall j, (j < length (EvapFullsim.S_bits r))%nat -> diff idx <= diff j) /\
  (forall j, (j < idx)%nat -> diff idx < diff j) /\
  EvapFullsim.tau_page r = nth idx (EvapFullsim.tau r) NaN /\
  EvapFullsim.M_page_over_M0 r = nth idx (EvapFullsim.M_over_M0 r) NaN.
Proof.
intros Hr. apply LoopFacts.evolve_with_inv in Hr.
destruct Hr as (st0 & st & e & _ & _ & _ & _ & Hok & ->).
simpl. unfold EvapFullsim.page_index.
set (sb := EvapFullsim.S_bh_list st). set (sr := EvapFullsim.S_rad_list st).
set (d := map2 (fun a b => Rabs (a - b)) sb sr).
assert (Hlen : length sb = length sr).
{ unfold sb, sr. rewrite (EvapFullsim.ok_len_S_bh _ _ Hok),
    (EvapFullsim.ok_len_S_rad _ _ Hok). reflexivity. }
assert (Hd : length d = length sb) by (apply map2_length; assumption).
assert (Hne : d <> []).
{ intros E. rewrite E in Hd. simpl in Hd.
  unfold sb in Hd. rewrite (EvapFullsim.ok_len_S_bh _ _ Hok) in Hd.
  pose proof (hd_error_nonempty _ _ _ (EvapFullsim.ok_first_t _ _ Hok)).
  destruct (EvapFullsim.t_list st); [contradiction | discriminate]. }
destruct (argmin_spec d Hne) as (H1 & H2 & H3).
assert (Hnth : forall i, (i < length sb)%nat ->
          nth i d 0 = Rabs (nth i sb 0 - nth i sr 0)).
{ intros i Hi. unfold d.
  apply (map2_nth _ _ _ (fun a b => Rabs (a - b))); assumption. }
rewrite Hd in H1, H2.
split; [exact H1 |]. split; [| split; [| split; reflexivity]].
- intros j Hj. rewrite <- !Hnth by assumption. apply H2. assumption.
- intros j Hj. rewrite <- !Hnth by lia. apply H3. assumption.
Qed.

Lemma page_point_selection_witness :
  exists r,
    EvapFullsim.evolve_trajectory EvapFullsim.default_params = Some r /\
    (EvapFullsim.page_index (EvapFullsim.S_bits r)
       (EvapFullsim.bits_emitted r) < length (EvapFullsim.S_bits r))%nat /\
    EvapFullsim.tau_page r =
      nth (EvapFullsim.page_index (EvapFullsim.S_bits r)
             (EvapFullsim.bits_emitted r)) (EvapFullsim.tau r) NaN.
Proof.
destruct (TrajectoryFacts.evolve_trajectory_returns
            EvapFullsim.default_params) as [r [Hr _]];
  [simpl; lra | simpl; lra |].
exists r. split; [exact Hr |].
destruct (page_point_selection EvapFullsim.default_params r Hr)
  as (H1 & _ & _ & H4 & _).
split; [exact H1 | exact H4].
Defined.

(** ** The step when the efficiency dominates the regulariser *)

Module StepFacts.
Import EvapFullsim LoopFacts MassFacts.

Section Dominant.

Variable F : R -> option R.
Variable p : FullSimParams.

Hypothesis M0_pos : 0 < M0 p.
Hypothesis T0_nonzero : T0 p <> 0.

(** The efficiency is defined and at least 101 times the regulariser
    1e-30 of [dMdt + 1e-30], scaled by the regularised initial mass. *)
Hypothesis F_large :
  forall T, T <> 0 ->
  exists v, F T = Some v /\ 101 * 1e-30 * (M0 p ^ 2 + 1e-30) <= v.

(** One step takes off between nothing and 0.101 percent of the mass. *)
Lemma Euler_step_bounds (Fv M : R) :
  0 < M <= M0 p -> 101 * 1e-30 * (M0 p ^ 2 + 1e-30) <= Fv ->
  degenerate_dt Fv M = false /\
  0.99899 * M <= M + dMdt_of Fv M * dt_of Fv M <= M.
Proof.
intros [HM HM0] HF.
assert (Hden : 0 < M ^ 2 + 1e-30) by (pose proof (pow2_ge_0 M); lra).
assert (Hden0 : M ^ 2 + 1e-30 <= M0 p ^ 2 + 1e-30).
{ assert (M ^ 2 <= M0 p ^ 2) by (apply pow_incr; lra). lra. }
set (a := Fv / (M ^ 2 + 1e-30)).
assert (Ha : 101 * 1e-30 <= a).
{ unfold a. apply (Rmult_le_reg_r (M ^ 2 + 1e-30)); [assumption |].
  replace (Fv / (M ^ 2 + 1e-30) * (M ^ 2 + 1e-30)) with Fv
    by (field; lra).
  nra. }
assert (HdM : dMdt_of Fv M = - a) by (unfold dMdt_of, a; field; lra).
set (d := dMdt_of Fv M + 1e-30).
assert (Hd : d = 1e-30 - a) by (unfold d; rewrite HdM; ring).
assert (Hdneg : d < 0) by lra.
assert (Hq : M / d < 0).
{ unfold Rdiv. assert (/ d < 0) by (apply Rinv_lt_0_compat; assumption).
  nra. }
assert (Hdt : dt_of Fv M = 1e-3 * - (M / d)).
{ unfold dt_of. fold d. rewrite Rabs_left by assumption. reflexivity. }
assert (Hdtpos : 0 < dt_of Fv M) by (rewrite Hdt; lra).
split.
- unfold degenerate_dt. fold d.
  destruct (Req_dec_T d 0); [lra |].
  destruct (Rle_dec (dt_of Fv M) 0); [lra | reflexivity].
- rewrite Hdt, HdM.
  assert (Hr : -1.01 <= a / d <= -1).
  { split.
    - apply (Rmult_le_reg_r (- d)); [lra |].
      replace (a / d * - d) with (- a) by (field; lra). nra.
    - apply (Rmult_le_reg_r (- d)); [lra |].
      replace (a / d * - d) with (- a) by (field; lra). lra. }
  replace (M + - a * (1e-3 * - (M / d))) with (M + 1e-3 * M * (a / d))
    by (field; lra).
  nra.
Qed.

(** From a state inside the mass window the body completes a step. *)
Lemma body_steps (st : state) :
  1e-4 * M0 p < cur_M st <= M0 p ->
  exists st',
    body F p st = Some (Next st') /\
    0.99899 * cur_M st <= cur_M st' <= cur_M st.
Proof.
intros HM. unfold body.
rewrite T_H_defined by lra. simpl.
assert (HT : T0 p * (M0 p / cur_M st) <> 0).
{ apply Rmult_integral_contrapositive_currified; [assumption |].
  apply Rgt_not_eq. apply Rdiv_lt_0_compat; lra. }
destruct (F_large _ HT) as [Fv [-> HFv]]. simpl.
destruct (Euler_step_bounds Fv (cur_M st)) as [-> Hb];
  [lra | assumption |].
set (M_new := py_max _ _).
assert (HMn : 0.99899 * cur_M st <= M_new <= cur_M st).
{ unfold M_new. rewrite py_max_Rmax. split.
  - apply Rle_trans with (2 := Rmax_l _ _). lra.
  - apply Rmax_lub; lra. }
rewrite T_H_defined by lra. simpl.
eexists. split; [reflexivity |]. simpl. exact HMn.
Qed.

Lemma pow_le_1_antitone (q : R) (k j : nat) :
  0 <= q <= 1 -> (k <= j)%nat -> q ^ j <= q ^ k.
Proof.
intros Hq Hkj. replace j with (k + (j - k))%nat by lia.
rewrite pow_add.
assert (0 <= q ^ k) by (apply pow_le; lra).
assert (q ^ (j - k) <= 1).
{ rewrite <- (pow1 (j - k)). apply pow_incr. lra. }
nra.
Qed.

(** If the mass cannot fall to [1e-4 * M0] within [n_steps - 2] steps,
    the loop is left by the step cap, with a history of [n_steps]
    records. *)
Lemma loop_hits_cap (fuel : nat) (st : state) (k : nat) :
  1e-4 < 0.99899 ^ (Z.to_nat (n_steps p) - 2) ->
  length (t_list st) = S k ->
  (S k < Z.to_nat (n_steps p))%nat ->
  (Z.to_nat (n_steps p) <= S k + fuel)%nat ->
  0.99899 ^ k * M0 p <= cur_M st <= M0 p ->
  exists st',
    loop F p fuel st = (st', StepCap) /\
    length (t_list st') = Z.to_nat (n_steps p) /\
    0.99899 ^ (Z.to_nat (n_steps p) - 1) * M0 p <= cur_M st' <= M0 p.
Proof.
intros Hq. revert st k.
induction fuel as [| fuel IH]; intros st k Hlen Hk Hfuel HM; [lia |].
assert (Hqk : 0.99899 ^ (Z.to_nat (n_steps p) - 2) <= 0.99899 ^ k).
{ apply pow_le_1_antitone; [lra | lia]. }
assert (Hg : 1e-4 * M0 p < cur_M st) by nra.
simpl. destruct (Rlt_dec (1e-4 * M0 p) (cur_M st)); [| contradiction].
destruct (body_steps st) as [st' [Hb HM']]; [lra |].
rewrite Hb. pose proof (body_length _ _ _ _ Hb) as Hlen'.
assert (HMk : 0.99899 ^ S k * M0 p <= cur_M st' <= M0 p).
{ simpl. split; [| lra].
  apply Rle_trans with (0.99899 * cur_M st); [| lra]. nra. }
destruct (n_steps p <=? Z.of_nat (length (t_list st')))%Z eqn:Hcap.
- apply Z.leb_le in Hcap. exists st'. split; [reflexivity |].
  assert (HN : Z.to_nat (n_steps p) = S (S k)) by lia.
  split; [lia |]. rewrite HN.
  replace (S (S k) - 1)%nat with (S k) by lia. exact HMk.
- apply Z.leb_gt in Hcap.
  apply (IH st' (S k)); [lia | lia | lia | exact HMk].
Qed.

End Dominant.

End StepFacts.

(** ** A lower bound on the spectral efficiency *)

Module FtBound.
Import Greybody FtModel FtFacts.

Lemma trapz_map_ge_first (f : R -> R) (x0 x1 : R) (rest : list R) :
  nondecreasing (x0 :: x1 :: rest) ->
  (forall x, In x (x0 :: x1 :: rest) -> 0 <= f x) ->
  (x1 - x0) * f x1 / 2 <= trapz (map f (x0 :: x1 :: rest)) (x0 :: x1 :: rest).
Proof.
intros [H01 Hs] Hf.
change ((x1 - x0) * f x1 / 2 <=
        (x1 - x0) * (f x1 + f x0) / 2
        + trapz (map f (x1 :: rest)) (x1 :: rest)).
assert (0 <= trapz (map f (x1 :: rest)) (x1 :: rest)).
{ apply trapz_map_nonneg; [exact Hs |]. intros x Hx. apply Hf. now right. }
assert (0 <= f x0) by (apply Hf; now left).
assert (0 <= f x1) by (apply Hf; right; now left).
nra.
Qed.

Lemma PI_gt_3 : 3 < PI.
Proof. pose proof PI2_3_2. lra. Qed.

(** The photon integrand is at least 2e-13 on [0.06, 0.07]. *)
Lemma photon_integrand_lower (x : R) :
  0.06 <= x <= 0.07 -> 2e-13 <= integrand_at photon x.
Proof.
intros Hx. unfold integrand_at, photon. cbn [spin fermion].
pose proof PI_gt_3. pose proof PI_4.
rewrite den_at_boson by lra.
rewrite GreybodyFacts.chi_scalar_power
  by (unfold Rabs; destruct Rcase_abs; lra).
rewrite GreybodyFacts.chi_exponent_one.
set (y := x / (4 * PI)).
assert (Hy : 0.00375 <= y <= 1).
{ unfold y. split.
  - apply (Rmult_le_reg_r (4 * PI)); [lra |].
    replace (x / (4 * PI) * (4 * PI)) with x by (field; lra). nra.
  - apply (Rmult_le_reg_r (4 * PI)); [lra |].
    replace (x / (4 * PI) * (4 * PI)) with x by (field; lra). nra. }
assert (Hy4 : 1.9e-10 <= y ^ 4 <= 1).
{ split.
  - apply Rle_trans with (0.00375 ^ 4); [lra |]. apply pow_incr. lra.
  - rewrite <- (pow1 4). apply pow_incr. lra. }
assert (Hratio : 9.5e-11 <= ratio (y ^ 4)).
{ apply Rle_trans with (ratio 1.9e-10).
  - unfold ratio. lra.
  - apply GreybodyFacts.ratio_monotone. lra. }
assert (Hhigh : 20 <= high) by (unfold high; lra).
assert (Hchi : 1.9e-9 <= high * ratio (y ^ 4)) by nra.
assert (Hx3 : 2.16e-4 <= x ^ 3).
{ apply Rle_trans with (0.06 ^ 3); [lra |]. apply pow_incr. lra. }
assert (Hden : 0 < exp x - 1 <= 2).
{ split; [apply exp_minus_one_pos; lra |].
  assert (exp x < exp 1) by (apply exp_increasing; lra).
  pose proof exp_le_3. lra. }
assert (Hnum : 4e-13 <= x ^ 3 * (high * ratio (y ^ 4))) by nra.
apply (Rmult_le_reg_r (exp x - 1)); [lra |].
replace (x ^ 3 * (high * ratio (y ^ 4)) / (exp x - 1) * (exp x - 1))
  with (x ^ 3 * (high * ratio (y ^ 4))) by (field; lra).
nra.
Qed.

Lemma photon_integral_lower : 1e-14 <= I_from_mu 0 photon 600.
Proof.
unfold I_from_mu, grid.
assert (Ha : py_max 0 1e-6 = 1e-6) by (unfold py_max; decide_Rlt; reflexivity).
assert (Hb : py_max (0 + 40) 40 = 40)
  by (unfold py_max; decide_Rlt; ring).
rewrite Ha, Hb.
assert (Hsorted : nondecreasing (linspace 1e-6 40 600))
  by (apply linspace_nondecreasing; lra).
assert (Hpos : forall x, In x (linspace 1e-6 40 600) ->
                 0 <= integrand_at photon x).
{ intros x Hx. apply integrand_at_nonneg.
  apply linspace_range in Hx; lra. }
revert Hsorted Hpos. rewrite linspace_uniform.
change (seq 0 600) with (0%nat :: 1%nat :: seq 2 598).
cbn [map]. intros Hsorted Hpos.
pose proof (trapz_map_ge_first _ _ _ _ Hsorted Hpos) as Hfirst.
set (h := (40 - 1e-6) / INR 599) in *.
assert (Hh : 0.0667 <= h <= 0.0668).
{ unfold h. rewrite INR_IZR_INZ. change (Z.of_nat 599) with 599%Z. lra. }
assert (Hf : 2e-13 <= integrand_at photon (1e-6 + INR 1 * h)).
{ apply photon_integrand_lower. simpl INR. lra. }
set (tz := trapz _ _) in *.
set (fx := integrand_at photon (1e-6 + INR 1 * h)) in *.
simpl INR in Hfirst.
assert (0.0667 * 2e-13 <= h * fx) by (apply Rmult_le_compat; lra).
change (IZR (g photon)) with 2.
lra.
Qed.

(** Whatever the temperature, the efficiency on the default grid is at
    least the photon term. *)
Lemma I_value_lower (T : R) : 1e-14 <= I_value T 600.
Proof.
unfold I_value, species_set. cbn [fold_left].
assert (Hmu : mu_value T photon = 0).
{ unfold mu_value, photon. simpl. decide_Rlt. reflexivity. }
fold photon. rewrite Hmu.
pose proof photon_integral_lower.
repeat match goal with
| |- context [I_from_mu ?m ?s 600] =>
    lazymatch s with
    | photon => fail
    | _ =>
      let H := fresh "H" in
      assert (H : 0 <= I_from_mu m s 600)
        by (apply I_from_mu_nonneg; simpl; lia);
      generalize dependent (I_from_mu m s 600); intros
    end
end.
lra.
Qed.

End FtBound.

(** ** The run with the default parameters *)

Module DefaultRun.
Import EvapFullsim LoopFacts MassFacts StepFacts.

Lemma shrink_floor_le (n : nat) :
  IZR (shrink_floor n) <= 1e20 * 0.99899 ^ n.
Proof.
induction n as [| n IH].
- simpl. lra.
- cbn [shrink_floor pow].
  set (x := shrink_floor n) in *.
  assert (H : (100000 * (x * 99899 / 100000) <= x * 99899)%Z)
    by (apply Z.mul_div_le; lia).
  apply IZR_le in H. rewrite !mult_IZR in H.
  set (y := IZR (x * 99899 / 100000)) in *. lra.
Qed.

Lemma shrink_7999 : 3e-4 < 0.99899 ^ Z.to_nat 7999.
Proof.
pose proof (shrink_floor_le (Z.to_nat 7999)) as H.
assert (Hc : (30000000000000000 < shrink_floor (Z.to_nat 7999))%Z)
  by (vm_compute; reflexivity).
apply IZR_lt in Hc.
set (v := 0.99899 ^ Z.to_nat 7999) in *.
set (w := IZR (shrink_floor (Z.to_nat 7999))) in *.
lra.
Qed.

Lemma shrink_7998 : 1e-4 < 0.99899 ^ Z.to_nat 7998.
Proof.
pose proof shrink_7999 as H.
replace (Z.to_nat 7999) with (S (Z.to_nat 7998)) in H by lia.
rewrite <- tech_pow_Rmult in H.
assert (0 <= 0.99899 ^ Z.to_nat 7998) by (apply pow_le; lra).
nra.
Qed.

Lemma F_default_large (T : R) :
  T <> 0 ->
  exists v, F_default T = Some v /\
            101 * 1e-30 * (M0 default_params ^ 2 + 1e-30) <= v.
Proof.
intros HT. exists (FtModel.I_value T 600). split.
- apply FtFacts.F_of_T_defined. assumption.
- pose proof (FtBound.I_value_lower T). simpl. lra.
Qed.

(** With the defaults the loop is left by the step cap after 7999 steps,
    with more than three times the mass at which it would stop. *)
Lemma default_run :
  exists st0 st,
    init_state default_params = Some st0 /\
    loop F_default default_params (enough_fuel default_params) st0
      = (st, StepCap) /\
    history_ok default_params st /\
    length (t_list st) = Z.to_nat 8000 /\
    3e-4 < cur_M st <= 1.
Proof.
assert (HM0 : M0 default_params <> 0) by (simpl; lra).
pose proof (init_state_defined default_params HM0) as Hinit.
set (st0 := mkState _ _ _ _ _ _ _ _ _) in Hinit.
destruct (loop_hits_cap F_default default_params
            ltac:(simpl; lra) ltac:(simpl; lra) F_default_large
            (enough_fuel default_params) st0 0)
  as [st [Hloop [Hlen HM]]].
- replace (Z.to_nat (n_steps default_params) - 2)%nat
    with (Z.to_nat 7998) by (simpl n_steps; lia).
  exact shrink_7998.
- reflexivity.
- simpl n_steps. lia.
- unfold enough_fuel. lia.
- simpl. lra.
- exists st0, st. split; [exact Hinit |]. split; [exact Hloop |].
  split.
  + replace st with
      (fst (loop F_default default_params (enough_fuel default_params) st0))
      by (rewrite Hloop; reflexivity).
    apply loop_history_ok, init_history_ok, Hinit.
  + split; [exact Hlen |].
    replace (Z.to_nat (n_steps default_params) - 1)%nat
      with (Z.to_nat 7999) in HM by (simpl n_steps; lia).
    pose proof shrink_7999. simpl M0 in HM. lra.
Qed.

End DefaultRun.

(** ** How the loop is left, and what is returned *)

Module ExitFacts.
Import EvapFullsim LoopFacts MassFacts.

Lemma np_div_finite (a b : R) : b <> 0 -> np_div a b = Finite (a / b).
Proof.
intros Hb. unfold np_div. destruct (Req_dec_T b 0); [contradiction |].
reflexivity.
Qed.

Lemma nth_map_np_div (l : list R) (b : R) (i : nat) :
  b <> 0 -> (i < length l)%nat ->
  nth i (map (fun v => np_div v b) l) NaN = Finite (nth i l 0 / b).
Proof.
intros Hb Hi.
rewrite (nth_indep _ NaN (np_div 0 b)) by (rewrite length_map; assumption).
rewrite (map_nth (fun v => np_div v b)). apply np_div_finite. assumption.
Qed.

Section Generic.

Variable F : R -> option R.
Variable p : FullSimParams.

Lemma body_break (st : state) :
  body F p st = Some Break ->
  exists T Fv,
    T_H (cur_M st) (T0 p) (M0 p) = Some T /\ F T = Some Fv /\
    (dMdt_of Fv (cur_M st) + 1e-30 = 0 \/ dt_of Fv (cur_M st) <= 0).
Proof.
unfold body.
destruct (T_H (cur_M st) (T0 p) (M0 p)) as [T |] eqn:HT; [| discriminate].
simpl. destruct (F T) as [Fv |] eqn:HF; [| discriminate].
simpl. destruct (degenerate_dt Fv (cur_M st)) eqn:Hdeg.
- intros _. exists T, Fv. split; [reflexivity |]. split; [assumption |].
  unfold degenerate_dt in Hdeg.
  destruct (Req_dec_T (dMdt_of Fv (cur_M st) + 1e-30) 0); [now left |].
  destruct (Rle_dec (dt_of Fv (cur_M st)) 0); [now right | discriminate].
- set (M_new := py_max _ _).
  destruct (T_H M_new (T0 p) (M0 p)); discriminate.
Qed.

(** The state and the condition at each exit of the loop. *)
Lemma loop_exit_spec (fuel : nat) (st st' : state) (e : exit_reason) :
  loop F p fuel st = (st', e) ->
  match e with
  | MassReached => cur_M st' <= 1e-4 * M0 p
  | DegenerateStep => 1e-4 * M0 p < cur_M st' /\ body F p st' = Some Break
  | StepCap => (n_steps p <= Z.of_nat (length (t_list st')))%Z
  | Raised => 1e-4 * M0 p < cur_M st' /\ body F p st' = None
  | FuelExhausted => True
  end.
Proof.
revert st. induction fuel as [| fuel IH]; intros st; simpl.
- intros [= <- <-]. exact I.
- destruct (Rlt_dec (1e-4 * M0 p) (cur_M st)) as [Hg | Hg].
  + destruct (body F p st) as [[| s'] |] eqn:Hb.
    * intros [= <- <-]. split; assumption.
    * destruct (n_steps p <=? Z.of_nat (length (t_list s')))%Z eqn:Hcap.
      -- intros [= <- <-]. apply Z.leb_le. assumption.
      -- apply IH.
    * intros [= <- <-]. split; assumption.
  + intros [= <- <-]. lra.
Qed.

(** The history never grows beyond the step cap (or two records). *)
Lemma loop_length_bound (fuel : nat) (st : state) :
  length (t_list st) = 1%nat \/
  (Z.of_nat (length (t_list st)) < n_steps p)%Z ->
  (Z.of_nat (length (t_list (fst (loop F p fuel st))))
     <= Z.max 2 (n_steps p))%Z.
Proof.
revert st. induction fuel as [| fuel IH]; intros st Hl; simpl; [lia |].
destruct (Rlt_dec (1e-4 * M0 p) (cur_M st)); [| simpl; lia].
destruct (body F p st) as [[| s'] |] eqn:Hb; try (simpl; lia).
pose proof (body_length _ _ _ _ Hb) as Hlen.
destruct (n_steps p <=? Z.of_nat (length (t_list s')))%Z eqn:Hcap.
- simpl. lia.
- apply Z.leb_gt in Hcap. apply IH. right. assumption.
Qed.

End Generic.

End ExitFacts.

Module DefaultResult.
Import EvapFullsim LoopFacts MassFacts ExitFacts DefaultRun.

Lemma last_map (A B : Type) (f : A -> B) (l : list A) (d : A) (d' : B) :
  l <> [] -> last (map f l) d' = f (last l d).
Proof.
induction l as [| a l IH]; [contradiction |]. intros _.
destruct l as [| b l]; [reflexivity |].
change (last (map f (b :: l)) d' = f (last (b :: l) d)).
apply IH. discriminate.
Qed.

(** What [evolve_trajectory] returns for the defaults: 8000 records, the
    last normalised mass above 3e-4. *)
Lemma default_result :
  exists st0 st r m,
    init_state default_params = Some st0 /\
    loop F_default default_params (enough_fuel default_params) st0
      = (st, StepCap) /\
    length (t_list st) = Z.to_nat 8000 /\
    evolve_trajectory default_params = Some r /\
    r = post_process default_params st /\
    last (M_over_M0 r) NaN = Finite m /\ 3e-4 < m.
Proof.
destruct default_run as (st0 & st & Hinit & Hloop & Hok & Hlen & HM).
exists st0, st, (post_process default_params st), (cur_M st / 1).
split; [exact Hinit |]. split; [exact Hloop |]. split; [exact Hlen |].
split.
- unfold evolve_trajectory.
  rewrite (evolve_with_returns _ _ _ Hinit) by (rewrite Hloop; discriminate).
  rewrite Hloop. reflexivity.
- split; [reflexivity |]. split.
  + cbn [M_over_M0 post_process].
    rewrite (last_map _ _ _ _ 0).
    * rewrite (ok_last_M _ _ Hok). apply np_div_finite. simpl. lra.
    * pose proof (ok_len_M _ _ Hok) as HlM. rewrite Hlen in HlM.
      intros E. rewrite E in HlM. discriminate.
  + lra.
Qed.

(** The arrays returned for the defaults have 8000 entries each. *)
Lemma default_samples :
  exists r,
    evolve_trajectory default_params = Some r /\
    length (t r) = Z.to_nat 8000 /\
    length (tau r) = Z.to_nat 8000 /\
    length (M_over_M0 r) = Z.to_nat 8000 /\
    length (T_over_T0 r) = Z.to_nat 8000 /\
    length (S_bits r) = Z.to_nat 8000 /\
    length (bits_emitted r) = Z.to_nat 8000.
Proof.
destruct default_run as (st0 & st & Hinit & Hloop & Hok & Hlen & _).
exists (post_process default_params st). split.
- unfold evolve_trajectory.
  rewrite (evolve_with_returns _ _ _ Hinit) by (rewrite Hloop; discriminate).
  rewrite Hloop. reflexivity.
- unfold post_process.
  cbn [t tau M_over_M0 T_over_T0 S_bits bits_emitted].
  rewrite !length_map.
  rewrite (ok_len_M _ _ Hok), (ok_len_T _ _ Hok), (ok_len_S_bh _ _ Hok),
    (ok_len_S_rad _ _ Hok), Hlen.
  repeat split; reflexivity.
Qed.

End DefaultResult.

Lemma entropy_conserved_witness :
  exists r,
    EvapFullsim.evolve_trajectory EvapFullsim.default_params = Some r /\
    (Z.to_nat 7999 < length (EvapFullsim.S_bits r))%nat /\
    nth (Z.to_nat 7999) (EvapFullsim.S_bits r) 0
    + nth (Z.to_nat 7999) (EvapFullsim.bits_emitted r) 0
      = nth 0 (EvapFullsim.S_bits r) 0 /\
    nth 0 (EvapFullsim.S_bits r) 0 = 4 * PI * 1 ^ 2 / ln 2.
Proof.
destruct DefaultResult.default_samples as (r & Hr & _ & _ & _ & _ & HS & _).
assert (Hi : (Z.to_nat 7999 < length (EvapFullsim.S_bits r))%nat)
  by (rewrite HS; lia).
exists r. split; [exact Hr |]. split; [exact Hi |].
exact (entropy_conserved EvapFullsim.default_params r (Z.to_nat 7999) Hr Hi).
Defined.

Lemma entropy_monotone_witness :
  exists r,
    (forall T v, EvapFullsim.F_default T = Some v -> 0 <= v) /\
    EvapFullsim.evolve_with EvapFullsim.F_default EvapFullsim.default_params
      = Some r /\
    (1 <= Z.to_nat 7999 < length (EvapFullsim.S_bits r))%nat /\
    nth (Z.to_nat 7999) (EvapFullsim.S_bits r) 0
      <= nth 1 (EvapFullsim.S_bits r) 0 /\
    nth 1 (EvapFullsim.bits_emitted r) 0
      <= nth (Z.to_nat 7999) (EvapFullsim.bits_emitted r) 0 /\
    0 <= nth 1 (EvapFullsim.bits_emitted r) 0.
Proof.
destruct DefaultResult.default_samples as (r & Hr & _ & _ & _ & _ & HS & _).
assert (Hij : (1 <= Z.to_nat 7999 < length (EvapFullsim.S_bits r))%nat)
  by (rewrite HS; lia).
exists r.
split; [exact TrajectoryFacts.F_default_nonneg |].
split; [exact Hr |].
split; [exact Hij |].
exact (entropy_monotone EvapFullsim.F_default EvapFullsim.default_params
         r 1 (Z.to_nat 7999) TrajectoryFacts.F_default_nonneg Hr Hij).
Defined.

(** C2 (as amended).  The step loop of [evolve_trajectory] terminates for
    every parameter choice, after at most [max(1, n_steps - 1)] iterations
    (extra fuel changes nothing), and a run that returns has left it because
    [M <= 1e-4*M0], or because [dt] is not finite or is [<= 0], or because
    the history length has reached [n_steps]; a loop that is left in no
    such way belongs to a run that returns nothing.  With the defaults
    [M0 = 1], [T0 = 1.227e12], [n_steps = 8000] it is left by the step cap,
    with 8000 records and a final [M_over_M0] above 3e-4. *)
Theorem evolve_trajectory_loop_terminates
  (p : EvapFullsim.FullSimParams) (st0 : EvapFullsim.state) :
  EvapFullsim.init_state p = Some st0 ->
  exists st e,
    (forall k,
       EvapFullsim.loop EvapFullsim.F_default p
         (EvapFullsim.enough_fuel p + k) st0 = (st, e)) /\
    (Z.of_nat (length (EvapFullsim.t_list st))
       <= Z.max 2 (EvapFullsim.n_steps p))%Z /\
    match e with
    | EvapFullsim.MassReached =>
        EvapFullsim.cur_M st <= 1e-4 * EvapFullsim.M0 p
    | EvapFullsim.DegenerateStep =>
        exists T Fv,
          EvapFullsim.T_H (EvapFullsim.cur_M st) (EvapFullsim.T0 p)
            (EvapFullsim.M0 p) = Some T /\
          EvapFullsim.F_default T = Some Fv /\
          (EvapFullsim.dMdt_of Fv (EvapFullsim.cur_M st) + 1e-30 = 0 \/
           EvapFullsim.dt_of Fv (EvapFullsim.cur_M st) <= 0)
    | EvapFullsim.StepCap =>
        (EvapFullsim.n_steps p
           <= Z.of_nat (length (EvapFullsim.t_list st)))%Z
    | EvapFullsim.Raised => EvapFullsim.evolve_trajectory p = None
    | EvapFullsim.FuelExhausted => False
    end /\
    (p = EvapFullsim.default_params ->
       e = EvapFullsim.StepCap /\
       length (EvapFullsim.t_list st) = Z.to_nat 8000 /\
       exists r m,
         EvapFullsim.evolve_trajectory p = Some r /\
         last (EvapFullsim.M_over_M0 r) NaN = Finite m /\ 3e-4 < m).
Proof.
intros Hinit.
destruct (EvapFullsim.loop EvapFullsim.F_default p
            (EvapFullsim.enough_fuel p) st0) as [st e] eqn:Hloop.
pose proof (LoopFacts.enough_fuel_suffices EvapFullsim.F_default p st0 Hinit)
  as Hfuel.
exists st, e. split; [| split; [| split]].
- intros k. rewrite LoopFacts.loop_more_fuel by assumption. exact Hloop.
- replace st with (fst (EvapFullsim.loop EvapFullsim.F_default p
                          (EvapFullsim.enough_fuel p) st0))
    by (rewrite Hloop; reflexivity).
  apply ExitFacts.loop_length_bound. left.
  apply (LoopFacts.init_length p). assumption.
- pose proof (ExitFacts.loop_exit_spec _ _ _ _ _ _ Hloop) as Hexit.
  destruct e; try exact Hexit.
  + destruct Hexit as [_ Hb]. apply ExitFacts.body_break in Hb. exact Hb.
  + unfold EvapFullsim.evolve_trajectory, EvapFullsim.evolve_with.
    rewrite Hinit. unfold bind. rewrite Hloop. reflexivity.
  + apply Hfuel. rewrite Hloop. reflexivity.
- intros ->.
  destruct DefaultResult.default_result
    as (s0 & s & r & m & Hi & Hl & Hlen & Hr & _ & Hlast & Hm).
  rewrite Hinit in Hi. injection Hi as <-.
  rewrite Hloop in Hl. injection Hl as <- ->.
  split; [reflexivity |]. split; [exact Hlen |].
  exists r, m. split; [exact Hr |]. split; [exact Hlast | exact Hm].
Qed.

Lemma evolve_trajectory_loop_terminates_witness :
  exists st0 st,
    EvapFullsim.init_state EvapFullsim.default_params = Some st0 /\
    (forall k,
       EvapFullsim.loop EvapFullsim.F_default EvapFullsim.default_params
         (EvapFullsim.enough_fuel EvapFullsim.default_params + k) st0
       = (st, EvapFullsim.StepCap)) /\
    length (EvapFullsim.t_list st) = Z.to_nat 8000.
Proof.
destruct (EvapFullsim.init_state EvapFullsim.default_params)
  as [st0 |] eqn:Hinit.
- destruct (evolve_trajectory_loop_terminates
              EvapFullsim.default_params st0 Hinit)
    as (st & e & Hk & _ & _ & Hdef).
  destruct (Hdef eq_refl) as (-> & Hlen & _).
  exists st0, st. split; [reflexivity |]. split; [exact Hk | exact Hlen].
- exfalso.
  rewrite MassFacts.init_state_defined in Hinit by (simpl; lra).
  discriminate.
Defined.

(** C2 as stated fails for the defaults: the loop is not left by the mass
    condition but by the step cap, with the full 8000 records, and the
    final [M_over_M0] is above 3e-4, three times the stopping mass. *)
Lemma default_run_hits_step_cap :
  exists st0 st r m,
    EvapFullsim.init_state EvapFullsim.default_params = Some st0 /\
    EvapFullsim.loop EvapFullsim.F_default EvapFullsim.default_params
      (EvapFullsim.enough_fuel EvapFullsim.default_params) st0
    = (st, EvapFullsim.StepCap) /\
    EvapFullsim.StepCap <> EvapFullsim.MassReached /\
    1e-4 * EvapFullsim.M0 EvapFullsim.default_params < EvapFullsim.cur_M st /\
    EvapFullsim.evolve_trajectory EvapFullsim.default_params = Some r /\
    length (EvapFullsim.M_over_M0 r) = Z.to_nat 8000 /\
    last (EvapFullsim.M_over_M0 r) NaN = Finite m /\ 3e-4 < m.
Proof.
destruct DefaultResult.default_result
  as (st0 & st & r & m & Hi & Hl & Hlen & Hr & Hpost & Hlast & Hm).
destruct DefaultRun.default_run as (s0 & s & Hi' & Hl' & Hok & _ & HM).
rewrite Hi in Hi'. injection Hi' as <-.
rewrite Hl in Hl'. injection Hl' as <-.
exists st0, st, r, m.
split; [exact Hi |]. split; [exact Hl |]. split; [discriminate |].
split; [simpl; lra |]. split; [exact Hr |].
split; [| split; [exact Hlast | exact Hm]].
rewrite Hpost. cbn [EvapFullsim.M_over_M0 EvapFullsim.post_process].
rewrite length_map, (EvapFullsim.ok_len_M _ _ Hok). exact Hlen.
Qed.



(** C5.  The rescaling [tau = t / t_evap] is not guarded: for [M0 = -1]
    the loop is not entered, [t_evap = 0], and the only entry of [tau] is
    0/0, a nan, neither 0 nor 1 nor in [[0, 1]]. *)
Lemma single_record_counterexample :
  exists r,
    EvapFullsim.evolve_trajectory (EvapFullsim.mkParams (-1) 1.227e12 8000)
      = Some r /\
    EvapFullsim.tau r = [NaN] /\
    nth 0 (EvapFullsim.tau r) NaN <> Finite 0 /\
    last (EvapFullsim.tau r) NaN <> Finite 1.
Proof.
set (p := EvapFullsim.mkParams (-1) 1.227e12 8000).
assert (HM0 : EvapFullsim.M0 p <> 0) by (simpl; lra).
pose proof (MassFacts.init_state_defined p HM0) as Hinit.
set (st0 := EvapFullsim.mkState _ _ _ _ _ _ _ _ _) in Hinit.
assert (Hloop : EvapFullsim.loop EvapFullsim.F_default p
                  (EvapFullsim.enough_fuel p) st0
                = (st0, EvapFullsim.MassReached)).
{ unfold EvapFullsim.enough_fuel. cbn [EvapFullsim.loop].
  destruct (Rlt_dec (1e-4 * EvapFullsim.M0 p) (EvapFullsim.cur_M st0))
    as [Hlt | _]; [simpl in Hlt; lra | reflexivity]. }
exists (EvapFullsim.post_process p st0).
split.
- unfold EvapFullsim.evolve_trajectory.
  rewrite (LoopFacts.evolve_with_returns _ _ _ Hinit)
    by (rewrite Hloop; discriminate).
  rewrite Hloop. reflexivity.
- assert (Htau : EvapFullsim.tau (EvapFullsim.post_process p st0) = [NaN]).
  { unfold EvapFullsim.post_process, st0.
    cbn [EvapFullsim.tau EvapFullsim.t_list last map].
    unfold np_div. destruct (Req_dec_T 0 0); [reflexivity | contradiction]. }
  rewrite Htau. split; [reflexivity |]. split; discriminate.
Qed.

(** ** Rounding to nine significant decimal digits *)

Module RoundFacts.
Import PyFormat.

Lemma round_half_even_spec (r : R) :
  Rabs (IZR (round_half_even r) - r) <= / 2.
Proof.
unfold round_half_even. pose proof (Zfloor_bound r) as [Hlo Hhi].
destruct (Rlt_dec (r - IZR (Zfloor r)) (1 / 2)) as [H | H].
- apply Rabs_le. lra.
- destruct (Rlt_dec (1 / 2) (r - IZR (Zfloor r))) as [H' | H'].
  + rewrite plus_IZR. apply Rabs_le. lra.
  + destruct (Z.even (Zfloor r)).
    * apply Rabs_le. lra.
    * rewrite plus_IZR. apply Rabs_le. lra.
Qed.

Lemma Rabs_le_bounds (a b : R) : Rabs a <= b -> - b <= a <= b.
Proof. unfold Rabs. destruct (Rcase_abs a); lra. Qed.

Lemma ln_10_pos : 0 < ln 10.
Proof. rewrite <- ln_1. apply ln_increasing; lra. Qed.

Lemma powerRZ_10_exp (z : Z) : powerRZ 10 z = exp (IZR z * ln 10).
Proof. rewrite powerRZ_Rpower by lra. reflexivity. Qed.

Lemma exp_le_compat (a b : R) : a <= b -> exp a <= exp b.
Proof.
intros [H | ->]; [left; apply exp_increasing; assumption | right; reflexivity].
Qed.

(** The decimal exponent brackets [|x|] between two powers of ten. *)
Lemma decimal_exponent_spec (x : R) :
  x <> 0 ->
  powerRZ 10 (decimal_exponent x) <= Rabs x
    < powerRZ 10 (decimal_exponent x + 1).
Proof.
intros Hx. unfold decimal_exponent.
assert (Hpos : 0 < Rabs x) by (apply Rabs_pos_lt; assumption).
pose proof ln_10_pos as H10.
set (L := ln (Rabs x) / ln 10).
pose proof (Zfloor_bound L) as [Hlo Hhi].
assert (HL : L * ln 10 = ln (Rabs x)) by (unfold L; field; lra).
rewrite !powerRZ_10_exp, plus_IZR.
assert (Hexp : Rabs x = exp (L * ln 10)) by (rewrite HL, exp_ln; trivial).
rewrite Hexp. split.
- apply exp_le_compat. nra.
- apply exp_increasing. nra.
Qed.

Lemma powerRZ_10_8 : powerRZ 10 8 = 1e8.
Proof. simpl. lra. Qed.

Lemma powerRZ_10_shift (a b : Z) :
  powerRZ 10 a * powerRZ 10 b = powerRZ 10 (a + b).
Proof. rewrite powerRZ_add by lra. reflexivity. Qed.

(** [sci_round] returns a nine-digit mantissa whose value is within
    5e-9 of [|x|], relatively. *)
Lemma sci_round_spec (x : R) :
  x <> 0 ->
  let '(m, e) := sci_round x in
  (10 ^ 8 <= m < 10 ^ 9)%Z /\
  Rabs (IZR m * powerRZ 10 (e - 8) - Rabs x) <= 5e-9 * Rabs x.
Proof.
intros Hx. unfold sci_round.
pose proof (decimal_exponent_spec x Hx) as [Hlo Hhi].
set (e := decimal_exponent x) in *.
set (y := Rabs x * powerRZ 10 (8 - e)).
pose proof (round_half_even_spec y) as Hr.
set (m := round_half_even y) in *.
assert (Hs : 0 < powerRZ 10 (8 - e)) by (apply powerRZ_lt; lra).
assert (Hs' : 0 < powerRZ 10 (e - 8)) by (apply powerRZ_lt; lra).
assert (Hone : powerRZ 10 (8 - e) * powerRZ 10 (e - 8) = 1).
{ rewrite powerRZ_10_shift. replace (8 - e + (e - 8))%Z with 0%Z by lia.
  reflexivity. }
assert (Hy : 1e8 <= y < 1e9).
{ unfold y. split.
  - rewrite <- powerRZ_10_8.
    replace 8%Z with (e + (8 - e))%Z at 1 by lia.
    rewrite <- powerRZ_10_shift. apply Rmult_le_compat_r; lra.
  - replace 1e9 with (powerRZ 10 9) by (simpl; lra).
    replace 9%Z with ((e + 1) + (8 - e))%Z by lia.
    rewrite <- powerRZ_10_shift. apply Rmult_lt_compat_r; lra. }
assert (Hx' : Rabs x = y * powerRZ 10 (e - 8)).
{ unfold y. rewrite Rmult_assoc, Hone. ring. }
apply Rabs_le_bounds in Hr.
assert (Hm : (10 ^ 8 <= m <= 10 ^ 9)%Z).
{ split.
  - apply Z.lt_pred_le. apply lt_IZR.
    change (IZR (Z.pred (10 ^ 8))) with 99999999. lra.
  - apply Z.lt_succ_r. apply lt_IZR.
    change (IZR (Z.succ (10 ^ 9))) with 1000000001. lra. }
assert (Herr : Rabs (IZR m * powerRZ 10 (e - 8) - Rabs x) <= 5e-9 * Rabs x).
{ rewrite Hx'.
  replace (IZR m * powerRZ 10 (e - 8) - y * powerRZ 10 (e - 8))
    with ((IZR m - y) * powerRZ 10 (e - 8)) by ring.
  rewrite Rabs_mult, (Rabs_pos_eq (powerRZ 10 (e - 8))) by lra.
  assert (Rabs (IZR m - y) <= / 2) by (apply Rabs_le; lra).
  apply Rle_trans with (/ 2 * powerRZ 10 (e - 8)); [nra |].
  nra. }
destruct (m =? 10 ^ 9)%Z eqn:Hcarry.
- apply Z.eqb_eq in Hcarry. split; [lia |].
  replace (IZR (10 ^ 8) * powerRZ 10 (e + 1 - 8))
    with (IZR m * powerRZ 10 (e - 8)); [exact Herr |].
  rewrite Hcarry.
  replace (e + 1 - 8)%Z with (1 + (e - 8))%Z by lia.
  rewrite <- powerRZ_10_shift. simpl. lra.
- apply Z.eqb_neq in Hcarry. split; [lia | exact Herr].
Qed.

End RoundFacts.

(** ** Digits, fields and rows *)

Module TextFacts.
Import PyFormat.

Lemma append_nil_r (s : string) : String.append s EmptyString = s.
Proof. induction s as [| c s IH]; simpl; [reflexivity | now rewrite IH]. Qed.

Lemma append_assoc (a b c : string) :
  String.append (String.append a b) c = String.append a (String.append b c).
Proof. induction a as [| x a IH]; simpl; [reflexivity | now rewrite IH]. Qed.

Lemma length_append (a b : string) :
  String.length (String.append a b) = (String.length a + String.length b)%nat.
Proof. induction a as [| x a IH]; simpl; [reflexivity | now rewrite IH]. Qed.

Lemma forall_chars_app (P : ascii -> bool) (a b : string) :
  forall_chars P (String.append a b) = forall_chars P a && forall_chars P b.
Proof.
induction a as [| x a IH]; simpl; [reflexivity |].
rewrite IH. apply andb_assoc.
Qed.

Lemma forall_chars_weaken (P Q : ascii -> bool) (s : string) :
  (forall c, P c = true -> Q c = true) ->
  forall_chars P s = true -> forall_chars Q s = true.
Proof.
intros HPQ. induction s as [| c s IH]; simpl; [trivial |].
intros H. apply andb_true_iff in H. destruct H as [Hc Hs].
rewrite (HPQ c Hc), (IH Hs). reflexivity.
Qed.

(** *** Decimal digits *)

Lemma digit_cases (d : Z) :
  (0 <= d < 10)%Z ->
  d = 0%Z \/ d = 1%Z \/ d = 2%Z \/ d = 3%Z \/ d = 4%Z \/
  d = 5%Z \/ d = 6%Z \/ d = 7%Z \/ d = 8%Z \/ d = 9%Z.
Proof. lia. Qed.

Lemma digit_char_value (d : Z) :
  (0 <= d < 10)%Z ->
  digit_value (digit_char d) = Some d /\ is_digit (digit_char d) = true.
Proof.
intros Hd.
destruct (digit_cases d Hd)
  as [-> | [-> | [-> | [-> | [-> | [-> | [-> | [-> | [-> | ->]]]]]]]]];
  split; reflexivity.
Qed.

Lemma digits_fixed_length (w : nat) (n : Z) :
  String.length (digits_fixed w n) = w.
Proof.
revert n. induction w as [| w IH]; intros n; simpl; [reflexivity |].
rewrite length_append, IH. simpl. lia.
Qed.

Lemma digits_fixed_digits (w : nat) (n : Z) :
  forall_chars is_digit (digits_fixed w n) = true.
Proof.
revert n. induction w as [| w IH]; intros n; simpl; [reflexivity |].
rewrite forall_chars_app, IH. cbn [forall_chars andb].
assert (Hd : (0 <= n mod 10 < 10)%Z) by (apply Z.mod_pos_bound; lia).
rewrite (proj2 (digit_char_value _ Hd)). reflexivity.
Qed.

Lemma parse_digits_from_app (acc : Z) (a b : string) :
  parse_digits_from acc (String.append a b) =
  (v <- parse_digits_from acc a ;; parse_digits_from v b).
Proof.
revert acc. induction a as [| c a IH]; intros acc; simpl; [reflexivity |].
destruct (digit_value c) as [d |]; simpl; [apply IH | reflexivity].
Qed.

Lemma parse_digits_fixed (w : nat) (n acc : Z) :
  parse_digits_from acc (digits_fixed w n) =
  Some (acc * 10 ^ Z.of_nat w + n mod 10 ^ Z.of_nat w)%Z.
Proof.
revert n acc. induction w as [| w IH]; intros n acc.
- simpl. rewrite Z.mod_1_r. f_equal. lia.
- cbn [digits_fixed]. rewrite parse_digits_from_app, IH. cbn [bind].
  assert (Hd : (0 <= n mod 10 < 10)%Z) by (apply Z.mod_pos_bound; lia).
  cbn [parse_digits_from]. rewrite (proj1 (digit_char_value _ Hd)).
  cbn [bind]. f_equal.
  rewrite Nat2Z.inj_succ, Z.pow_succ_r by lia.
  rewrite (Z.rem_mul_r n 10 (10 ^ Z.of_nat w)) by lia.
  ring.
Qed.

Lemma parse_digits_fixed_small (w : nat) (n : Z) :
  (0 < w)%nat -> (0 <= n < 10 ^ Z.of_nat w)%Z ->
  parse_digits (digits_fixed w n) = Some n.
Proof.
intros Hw Hn. unfold parse_digits.
pose proof (digits_fixed_length w n) as Hlen.
destruct (digits_fixed w n) eqn:E; [simpl in Hlen; lia |].
rewrite <- E, parse_digits_fixed. f_equal.
rewrite Z.mod_small by assumption. lia.
Qed.

Lemma decimal_width_bound (fuel : nat) (n : Z) :
  (0 <= n <= Z.of_nat fuel)%Z ->
  (n < 10 ^ Z.of_nat (decimal_width fuel n))%Z.
Proof.
revert n. induction fuel as [| fuel IH]; intros n Hn.
- simpl. lia.
- cbn [decimal_width]. destruct (n <? 10)%Z eqn:Hlt.
  + apply Z.ltb_lt in Hlt. simpl. lia.
  + apply Z.ltb_ge in Hlt.
    rewrite Nat2Z.inj_succ, Z.pow_succ_r by lia.
    assert (Hq : (0 <= n / 10 <= Z.of_nat fuel)%Z).
    { split; [apply Z.div_pos; lia |].
      apply Z.lt_succ_r. apply Z.div_lt_upper_bound; lia. }
    specialize (IH _ Hq).
    pose proof (Z.div_mod n 10 ltac:(lia)).
    pose proof (Z.mod_pos_bound n 10 ltac:(lia)). lia.
Qed.

Lemma exponent_digits_spec (e : Z) :
  (0 <= e)%Z ->
  parse_digits (exponent_digits e) = Some e /\
  (2 <= String.length (exponent_digits e))%nat /\
  forall_chars is_digit (exponent_digits e) = true.
Proof.
intros He. unfold exponent_digits.
set (w := Nat.max 2 (decimal_width (Z.to_nat e) e)).
split; [| split].
- apply parse_digits_fixed_small; [unfold w; lia |].
  split; [assumption |].
  apply Z.lt_le_trans with (10 ^ Z.of_nat (decimal_width (Z.to_nat e) e))%Z.
  + apply decimal_width_bound. lia.
  + apply Z.pow_le_mono_r; unfold w; lia.
- rewrite digits_fixed_length. unfold w. lia.
- apply digits_fixed_digits.
Qed.

End TextFacts.

(** ** Splitting and reading back *)

Module ParseFacts.
Import PyFormat TextFacts.

Lemma split_on_avoid (sep : ascii) (s : string) :
  avoids sep s -> split_on sep s = [s].
Proof.
unfold avoids. induction s as [| c s IH]; simpl; [reflexivity |].
intros H. apply andb_true_iff in H. destruct H as [Hc Hs].
apply negb_true_iff in Hc. rewrite Hc, (IH Hs). reflexivity.
Qed.

Lemma split_on_app (sep : ascii) (a b : string) :
  avoids sep a ->
  split_on sep (String.append a (String sep b)) = a :: split_on sep b.
Proof.
unfold avoids. induction a as [| c a IH]; simpl.
- intros _. rewrite Ascii.eqb_refl. reflexivity.
- intros H. apply andb_true_iff in H. destruct H as [Hc Hs].
  apply negb_true_iff in Hc. rewrite Hc, (IH Hs). reflexivity.
Qed.

Lemma digits_avoid (sep : ascii) (s : string) :
  is_digit sep = false -> forall_chars is_digit s = true -> avoids sep s.
Proof.
intros Hsep. apply forall_chars_weaken. intros c Hc.
apply negb_true_iff. destruct (Ascii.eqb_spec c sep) as [-> | _];
  [congruence | reflexivity].
Qed.

Lemma digit_not (c sep : ascii) :
  is_digit sep = false -> is_digit c = true -> Ascii.eqb c sep = false.
Proof.
intros Hsep Hc. destruct (Ascii.eqb_spec c sep) as [-> | _];
  [congruence | reflexivity].
Qed.

(** Reading back a field of the shape that [render] writes. *)
Lemma parse_float_sci (negative : bool) (d esign : ascii)
  (frac edigits : string) (i f e : Z) :
  digit_value d = Some i ->
  forall_chars is_digit frac = true -> parse_digits frac = Some f ->
  forall_chars is_digit edigits = true -> parse_digits edigits = Some e ->
  esign = "+"%char \/ esign = "-"%char ->
  parse_float
    (String.append (if negative then "-"%string else EmptyString)
       (String d (String "." (String.append frac
          (String "e" (String esign edigits))))))
  = Some (Finite ((if negative then -1 else 1)
                  * IZR (i * 10 ^ Z.of_nat (String.length frac) + f)
                  * powerRZ 10 ((if Ascii.eqb esign "+" then e else - e)
                                - Z.of_nat (String.length frac)))).
Proof.
intros Hd Hfrac Hf Hedig He Hsign.
assert (Hdig : is_digit d = true).
{ unfold digit_value in Hd. destruct (is_digit d); [reflexivity | discriminate]. }
set (tail := String "e" (String esign edigits)).
set (body := String d (String "." (String.append frac tail))).
assert (Hbody : parse_float body = parse_float body) by reflexivity.
assert (Hsplit_e :
  split_on "e" body = [String d (String "." frac); String esign edigits]).
{ change body with
    (String.append (String d (String "." frac)) (String "e" (String esign edigits))).
  rewrite split_on_app.
  - f_equal. apply split_on_avoid. unfold avoids. simpl.
    assert (Hs : negb (Ascii.eqb esign "e") = true)
      by (destruct Hsign as [-> | ->]; reflexivity).
    rewrite Hs. simpl. apply (digits_avoid "e"); [reflexivity | assumption].
  - unfold avoids. simpl.
    rewrite (digit_not d "e") by (trivial; reflexivity). simpl.
    apply (digits_avoid "e"); [reflexivity | assumption]. }
assert (Hsplit_p :
  split_on "." (String d (String "." frac)) = [String d EmptyString; frac]).
{ change (String d (String "." frac)) with
    (String.append (String d EmptyString) (String "." frac)).
  rewrite split_on_app.
  - f_equal. apply split_on_avoid.
    apply (digits_avoid "."); [reflexivity | assumption].
  - unfold avoids. simpl.
    rewrite (digit_not d ".") by (trivial; reflexivity). reflexivity. }
assert (Hint : parse_digits (String d EmptyString) = Some i).
{ unfold parse_digits. simpl. rewrite Hd. simpl. reflexivity. }
assert (Hcore :
  match split_on "e" body with
  | [mantissa; String sign exp_digits] =>
      match split_on "." mantissa with
      | [int_part; frac_part] =>
          i0 <- parse_digits int_part ;;
          f0 <- parse_digits frac_part ;;
          e0 <- parse_digits exp_digits ;;
          se <- (if Ascii.eqb sign "+" then Some e0
                 else if Ascii.eqb sign "-" then Some (- e0)%Z
                 else None) ;;
          let width := Z.of_nat (String.length frac_part) in
          let m := (i0 * 10 ^ width + f0)%Z in
          Some (Finite ((if negative then -1 else 1) * IZR m
                        * powerRZ 10 (se - width)))
      | _ => None
      end
  | _ => None
  end
  = Some (Finite ((if negative then -1 else 1)
                  * IZR (i * 10 ^ Z.of_nat (String.length frac) + f)
                  * powerRZ 10 ((if Ascii.eqb esign "+" then e else - e)
                                - Z.of_nat (String.length frac))))).
{ rewrite Hsplit_e, Hsplit_p, Hint, Hf, He. cbn [bind].
  destruct Hsign as [-> | ->]; reflexivity. }
clear Hbody.
assert (Hnan : String.eqb body "nan" = false).
{ unfold body. cbn [String.eqb]. cbn [Ascii.eqb Bool.eqb andb].
  rewrite ?andb_false_r.
  repeat match goal with
  | |- context [Ascii.eqb d ?c] => destruct (Ascii.eqb d c)
  end; reflexivity. }
assert (Hinf : String.eqb body "inf" = false).
{ unfold body. cbn [String.eqb]. cbn [Ascii.eqb Bool.eqb andb].
  rewrite ?andb_false_r.
  repeat match goal with
  | |- context [Ascii.eqb d ?c] => destruct (Ascii.eqb d c)
  end; reflexivity. }
assert (Hninf : String.eqb body "-inf" = false).
{ unfold body. cbn [String.eqb]. cbn [Ascii.eqb Bool.eqb andb].
  rewrite ?andb_false_r.
  repeat match goal with
  | |- context [Ascii.eqb d ?c] => destruct (Ascii.eqb d c)
  end; reflexivity. }
destruct negative.
- change (String.append "-" body) with (String "-" body).
  unfold parse_float. cbn [String.eqb Ascii.eqb Bool.eqb andb].
  rewrite Hinf. exact Hcore.
- change (String.append EmptyString body) with body.
  unfold parse_float. rewrite Hnan, Hinf, Hninf.
  unfold body at 1. rewrite (digit_not d "-") by (trivial; reflexivity).
  exact Hcore.
Qed.

End ParseFacts.

(** ** The formatted fields *)

Module FieldFacts.
Import PyFormat TextFacts ParseFacts RoundFacts.

Lemma digits_fixed_1 (k : Z) :
  digits_fixed 1 k = String (digit_char (k mod 10)) EmptyString.
Proof. reflexivity. Qed.

Section Render.

Variables (negative : bool) (m e : Z).
Hypothesis m_range : (0 <= m < 10 ^ 9)%Z.

Let lead : Z := (m / 10 ^ 8)%Z.

Lemma lead_range : (0 <= lead < 10)%Z.
Proof.
unfold lead. split; [apply Z.div_pos; lia |].
apply Z.div_lt_upper_bound; lia.
Qed.

Lemma render_unfold :
  render negative m e =
  String.append (if negative then "-"%string else EmptyString)
    (String (digit_char lead) (String "."
       (String.append (digits_fixed 8 (m mod 10 ^ 8))
          (String "e" (String (if (e <? 0)%Z then "-" else "+")%char
                         (exponent_digits (Z.abs e))))))).
Proof.
unfold render. rewrite digits_fixed_1. fold lead.
rewrite (Z.mod_small lead 10) by apply lead_range. reflexivity.
Qed.

(** Reading back what [render] writes gives the decimal itself. *)
Lemma parse_float_render :
  parse_float (render negative m e) =
  Some (Finite ((if negative then -1 else 1) * IZR m * powerRZ 10 (e - 8))).
Proof.
rewrite render_unfold.
destruct (exponent_digits_spec (Z.abs e) (Z.abs_nonneg e))
  as (Hpe & _ & Hde).
rewrite (parse_float_sci negative _ _ _ _ lead (m mod 10 ^ 8) (Z.abs e)).
- rewrite digits_fixed_length. change (Z.of_nat 8) with 8%Z.
  replace (lead * 10 ^ 8 + m mod 10 ^ 8)%Z with m
    by (unfold lead; pose proof (Z.div_mod m (10 ^ 8) ltac:(lia)); lia).
  destruct (e <? 0)%Z eqn:He.
  + apply Z.ltb_lt in He. cbn [Ascii.eqb Bool.eqb].
    replace (- Z.abs e - 8)%Z with (e - 8)%Z by lia. reflexivity.
  + apply Z.ltb_ge in He. cbn [Ascii.eqb Bool.eqb].
    replace (Z.abs e - 8)%Z with (e - 8)%Z by lia. reflexivity.
- apply digit_char_value, lead_range.
- apply digits_fixed_digits.
- apply parse_digits_fixed_small; [lia |].
  apply Z.mod_pos_bound. lia.
- exact Hde.
- exact Hpe.
- destruct (e <? 0)%Z; [right | left]; reflexivity.
Qed.

Lemma render_shape : sci8_shape (render negative m e).
Proof.
rewrite render_unfold.
destruct (exponent_digits_spec (Z.abs e) (Z.abs_nonneg e))
  as (_ & Hle & Hde).
exists (if negative then "-"%string else EmptyString), (digit_char lead),
       (digits_fixed 8 (m mod 10 ^ 8)),
       (if (e <? 0)%Z then "-" else "+")%char, (exponent_digits (Z.abs e)).
split; [reflexivity |].
split; [destruct negative; [right | left]; reflexivity |].
split; [apply digit_char_value, lead_range |].
split; [apply digits_fixed_length |].
split; [apply digits_fixed_digits |].
split; [destruct (e <? 0)%Z; [right | left]; reflexivity |].
split; assumption.
Qed.

End Render.

(** A field of that shape needs no quoting. *)
Lemma sci8_shape_plain (s : string) : sci8_shape s -> has_special s = false.
Proof.
intros (sign & d & frac & esign & edigits & -> & Hsign & Hd & _ & Hfrac
        & Hes & _ & Hed).
assert (Hplain : forall t, forall_chars is_digit t = true ->
                   has_special t = false).
{ induction t as [| c t IH]; simpl; [reflexivity |].
  intros H. apply andb_true_iff in H. destruct H as [Hc Ht].
  rewrite (IH Ht), orb_false_r. unfold is_special.
  rewrite (digit_not c ","), (digit_not c quote_char), (digit_not c CR),
    (digit_not c LF) by (trivial; reflexivity).
  reflexivity. }
assert (Happ : forall a b, has_special (String.append a b)
                           = has_special a || has_special b).
{ induction a as [| c a IH]; intros b; simpl; [reflexivity |].
  rewrite IH. apply orb_assoc. }
assert (Hdc : is_special d = false).
{ unfold is_special.
  rewrite (digit_not d ","), (digit_not d quote_char), (digit_not d CR),
    (digit_not d LF) by (trivial; reflexivity).
  reflexivity. }
rewrite Happ. cbn [has_special]. rewrite Happ. cbn [has_special].
rewrite Hdc, (Hplain _ Hfrac), (Hplain _ Hed).
destruct Hsign as [-> | ->], Hes as [-> | ->]; reflexivity.
Qed.

(** A finite value is written in scientific notation with eight digits
    after the point, and read back to within 5e-9 of itself,
    relatively. *)
Lemma format_e8_finite_spec (x : R) :
  sci8_shape (format_e8_finite x) /\
  exists x', parse_float (format_e8_finite x) = Some (Finite x') /\
             Rabs (x' - x) <= 5e-9 * Rabs x.
Proof.
unfold format_e8_finite. destruct (Req_dec_T x 0) as [-> | Hx].
- split; [apply render_shape; lia |].
  exists 0. rewrite parse_float_render by lia. split.
  + do 2 f_equal. ring.
  + rewrite Rminus_diag, Rabs_R0. lra.
- pose proof (sci_round_spec x Hx) as Hspec.
  destruct (sci_round x) as [m e]. destruct Hspec as [Hm Herr].
  split; [apply render_shape; lia |].
  eexists. rewrite parse_float_render by lia. split; [reflexivity |].
  set (v := IZR m * powerRZ 10 (e - 8)) in *.
  destruct (Rlt_dec x 0) as [Hneg | Hpos].
  + rewrite (Rabs_left x) in * by assumption.
    replace (-1 * IZR m * powerRZ 10 (e - 8) - x) with (- (v - - x))
      by (unfold v; ring).
    rewrite Rabs_Ropp. exact Herr.
  + rewrite (Rabs_pos_eq x) in * by lra.
    replace (1 * IZR m * powerRZ 10 (e - 8) - x) with (v - x)
      by (unfold v; ring).
    exact Herr.
Qed.

End FieldFacts.

(** ** More invariants of the loop *)

Module RecordFacts.
Import EvapFullsim LoopFacts MassFacts ExitFacts.

Lemma T_H_inv (M T0 M0 T : R) :
  T_H M T0 M0 = Some T -> M <> 0 /\ T = T0 * (M0 / M).
Proof.
unfold T_H, py_div. destruct (Req_dec_T M 0); [discriminate |].
simpl. intros [= <-]. split; [assumption | reflexivity].
Qed.

Section Generic.

Variable F : R -> option R.
Variable p : FullSimParams.

Lemma init_temperature_ok (st0 : state) :
  init_state p = Some st0 -> temperature_ok p st0 /\ floor_ok p st0.
Proof.
unfold init_state.
destruct (T_H (M0 p) (T0 p) (M0 p)) as [T |] eqn:HT; [| discriminate].
simpl. intros [= <-]. apply T_H_inv in HT. split.
- constructor; [exact HT | constructor].
- constructor; [left; reflexivity | constructor].
Qed.

Lemma body_temperature_ok (st st' : state) :
  temperature_ok p st /\ floor_ok p st ->
  body F p st = Some (Next st') ->
  temperature_ok p st' /\ floor_ok p st'.
Proof.
intros [Ht Hf] Hb. apply body_next in Hb.
destruct Hb as (T & Fv & T_new & _ & _ & _ & HT & ->).
cbv zeta in HT. apply T_H_inv in HT. split.
- unfold temperature_ok. simpl. apply Forall2_app; [assumption |].
  constructor; [exact HT | constructor].
- unfold floor_ok. simpl. apply Forall_app. split; [assumption |].
  constructor; [| constructor]. right. apply py_max_r.
Qed.

Lemma loop_temperature_ok (fuel : nat) (st : state) :
  temperature_ok p st /\ floor_ok p st ->
  temperature_ok p (fst (loop F p fuel st)) /\
  floor_ok p (fst (loop F p fuel st)).
Proof.
apply (loop_invariant F p (fun s => temperature_ok p s /\ floor_ok p s)).
intros s s' Hs _ Hb. eapply body_temperature_ok; eassumption.
Qed.

(** What a returned trajectory is made of, with all the invariants. *)
Lemma evolve_with_records (r : Trajectory) :
  evolve_with F p = Some r ->
  exists st,
    r = post_process p st /\ history_ok p st /\
    temperature_ok p st /\ floor_ok p st /\ M0 p <> 0 /\
    (Z.of_nat (length (t_list st)) <= Z.max 2 (n_steps p))%Z.
Proof.
intros Hr. apply evolve_with_inv in Hr.
destruct Hr as (st0 & st & e & Hinit & Hloop & _ & _ & Hok & ->).
exists st. split; [reflexivity |]. split; [assumption |].
assert (Hst : st = fst (loop F p (enough_fuel p) st0))
  by (rewrite Hloop; reflexivity).
pose proof (loop_temperature_ok (enough_fuel p) st0
              (init_temperature_ok st0 Hinit)) as [Ht Hf].
rewrite <- Hst in Ht, Hf.
split; [assumption |]. split; [assumption |]. split.
- intros E. rewrite (init_state_raises p E) in Hinit. discriminate.
- rewrite Hst. apply loop_length_bound. left.
  apply (init_length p). assumption.
Qed.

End Generic.

(** Every returned trajectory has at least one sample. *)
Lemma samples_nonempty (F : R -> option R) (p : FullSimParams)
  (r : Trajectory) :
  evolve_with F p = Some r -> (0 < length (M_over_M0 r))%nat.
Proof.
intros Hr. apply evolve_with_records in Hr.
destruct Hr as (st & -> & Hok & _).
unfold post_process. cbn [M_over_M0]. rewrite length_map.
rewrite (ok_len_M _ _ Hok).
pose proof (hd_error_nonempty _ _ _ (ok_first_t _ _ Hok)).
destruct (t_list st); [contradiction | simpl; lia].
Qed.

End RecordFacts.

(** X1.  Shape of the result of [evolve_trajectory], for any spectral
    efficiency: the six arrays have the same length, which is at least 1
    and at most [max(2, n_steps)]; the raw times start at 0 and [t_evap] is
    the last of them. *)
Theorem trajectory_shape (F : R -> option R)
  (p : EvapFullsim.FullSimParams) (r : EvapFullsim.Trajectory) :
  EvapFullsim.evolve_with F p = Some r ->
  let n := length (EvapFullsim.t r) in
  (1 <= n)%nat /\
  (Z.of_nat n <= Z.max 2 (EvapFullsim.n_steps p))%Z /\
  length (EvapFullsim.tau r) = n /\
  length (EvapFullsim.M_over_M0 r) = n /\
  length (EvapFullsim.T_over_T0 r) = n /\
  length (EvapFullsim.S_bits r) = n /\
  length (EvapFullsim.bits_emitted r) = n /\
  nth 0 (EvapFullsim.t r) 0 = 0 /\
  EvapFullsim.t_evap r = last (EvapFullsim.t r) 0.
Proof.
intros Hr. apply RecordFacts.evolve_with_records in Hr.
destruct Hr as (st & -> & Hok & _ & _ & _ & Hlen).
unfold EvapFullsim.post_process.
cbn [EvapFullsim.t EvapFullsim.tau EvapFullsim.M_over_M0
     EvapFullsim.T_over_T0 EvapFullsim.S_bits EvapFullsim.bits_emitted
     EvapFullsim.t_evap].
rewrite !length_map.
destruct Hok.
repeat split; try assumption; try reflexivity.
- apply hd_error_nonempty in ok_first_t.
  destruct (EvapFullsim.t_list st); [contradiction | simpl; lia].
- apply hd_error_nth. assumption.
Qed.

Lemma trajectory_shape_witness :
  exists r,
    EvapFullsim.evolve_with EvapFullsim.F_default EvapFullsim.default_params
      = Some r /\
    length (EvapFullsim.tau r) = length (EvapFullsim.t r) /\
    length (EvapFullsim.S_bits r) = length (EvapFullsim.t r).
Proof.
destruct (TrajectoryFacts.evolve_trajectory_returns
            EvapFullsim.default_params) as [r [Hr _]];
  [simpl; lra | simpl; lra |].
exists r. split; [exact Hr |].
destruct (trajectory_shape EvapFullsim.F_default
            EvapFullsim.default_params r Hr)
  as (_ & _ & H1 & _ & _ & H2 & _).
split; [exact H1 | exact H2].
Defined.

(** X2.  Temperature is inverse to mass in every recorded sample: for
    [M0] and [T0] of ordinary magnitude, [M_over_M0[i]] and [T_over_T0[i]]
    are finite and their product is 1, exactly in exact arithmetic and, as
    stated here, to within 1e-12, which the four roundings of binary64
    respect. *)
Theorem mass_temperature_inverse
  (p : EvapFullsim.FullSimParams) (r : EvapFullsim.Trajectory) (i : nat) :
  EvapFullsim.evolve_trajectory p = Some r ->
  ordinary (EvapFullsim.M0 p) ->
  ordinary (EvapFullsim.T0 p) ->
  (i < length (EvapFullsim.M_over_M0 r))%nat ->
  exists a b,
    nth i (EvapFullsim.M_over_M0 r) NaN = Finite a /\
    nth i (EvapFullsim.T_over_T0 r) NaN = Finite b /\
    Rabs (a * b - 1) <= 1e-12.
Proof.
intros Hr _ HT0 Hi. apply ordinary_nonzero in HT0.
apply RecordFacts.evolve_with_records in Hr.
destruct Hr as (st & -> & Hok & Ht & _ & HM0 & _).
unfold EvapFullsim.post_process in *.
cbn [EvapFullsim.M_over_M0 EvapFullsim.T_over_T0] in *.
rewrite length_map in Hi.
pose proof (Forall2_nth _ _ _ _ _ 0 0 Ht i Hi) as [HMi HTi].
exists (nth i (EvapFullsim.M_list st) 0 / EvapFullsim.M0 p),
       (nth i (EvapFullsim.T_list st) 0 / EvapFullsim.T0 p).
rewrite !ExitFacts.nth_map_np_div; try assumption.
- split; [reflexivity |]. split; [reflexivity |].
  rewrite HTi.
  replace (nth i (EvapFullsim.M_list st) 0 / EvapFullsim.M0 p
           * (EvapFullsim.T0 p
              * (EvapFullsim.M0 p / nth i (EvapFullsim.M_list st) 0)
              / EvapFullsim.T0 p) - 1)
    with 0 by (field; repeat split; assumption).
  rewrite Rabs_R0. lra.
- rewrite (EvapFullsim.ok_len_T _ _ Hok), <- (EvapFullsim.ok_len_M _ _ Hok).
  assumption.
Qed.

Lemma mass_temperature_inverse_witness :
  exists r a b,
    EvapFullsim.evolve_trajectory EvapFullsim.default_params = Some r /\
    ordinary (EvapFullsim.M0 EvapFullsim.default_params) /\
    ordinary (EvapFullsim.T0 EvapFullsim.default_params) /\
    (Z.to_nat 7999 < length (EvapFullsim.M_over_M0 r))%nat /\
    nth (Z.to_nat 7999) (EvapFullsim.M_over_M0 r) NaN = Finite a /\
    nth (Z.to_nat 7999) (EvapFullsim.T_over_T0 r) NaN = Finite b /\
    Rabs (a * b - 1) <= 1e-12.
Proof.
destruct DefaultResult.default_samples as (r & Hr & _ & _ & HM & _).
assert (Ho1 : ordinary (EvapFullsim.M0 EvapFullsim.default_params))
  by (apply ordinary_positive; simpl; lra).
assert (Ho2 : ordinary (EvapFullsim.T0 EvapFullsim.default_params))
  by (apply ordinary_positive; simpl; lra).
assert (Hi : (Z.to_nat 7999 < length (EvapFullsim.M_over_M0 r))%nat)
  by (rewrite HM; lia).
destruct (mass_temperature_inverse EvapFullsim.default_params r
            (Z.to_nat 7999) Hr Ho1 Ho2 Hi)
  as (a & b & Ha & Hb & Hab).
exists r, a, b. repeat (split; [assumption |]); assumption.
Defined.

(** X3.  The mass floor: for [M0 > 0] no recorded mass falls below
    [1e-6 * M0], whatever the spectral efficiency returns, and the first
    record is the initial mass: [M_over_M0[0] = 1] and
    [M_over_M0[i] >= 1e-6]. *)
Theorem mass_floor (F : R -> option R)
  (p : EvapFullsim.FullSimParams) (r : EvapFullsim.Trajectory) (i : nat) :
  EvapFullsim.evolve_with F p = Some r ->
  0 < EvapFullsim.M0 p ->
  (i < length (EvapFullsim.M_over_M0 r))%nat ->
  nth 0 (EvapFullsim.M_over_M0 r) NaN = Finite 1 /\
  exists a, nth i (EvapFullsim.M_over_M0 r) NaN = Finite a /\ 1e-6 <= a.
Proof.
intros Hr HM0 Hi. apply RecordFacts.evolve_with_records in Hr.
destruct Hr as (st & -> & Hok & _ & Hf & _ & _).
unfold EvapFullsim.post_process in *.
cbn [EvapFullsim.M_over_M0] in *. rewrite length_map in Hi.
assert (Hne : EvapFullsim.M0 p <> 0) by lra.
split.
- rewrite ExitFacts.nth_map_np_div by (try assumption; lia).
  rewrite (hd_error_nth _ _ _ 0 (EvapFullsim.ok_first_M _ _ Hok)).
  f_equal. field. assumption.
- exists (nth i (EvapFullsim.M_list st) 0 / EvapFullsim.M0 p).
  rewrite ExitFacts.nth_map_np_div by assumption.
  split; [reflexivity |].
  pose proof (proj1 (Forall_nth _ _) Hf i 0 Hi) as HMi.
  apply (Rmult_le_reg_r (EvapFullsim.M0 p)); [assumption |].
  replace (nth i (EvapFullsim.M_list st) 0 / EvapFullsim.M0 p
           * EvapFullsim.M0 p)
    with (nth i (EvapFullsim.M_list st) 0) by (field; assumption).
  destruct HMi as [-> | HMi]; lra.
Qed.

Lemma mass_floor_witness :
  exists r a,
    EvapFullsim.evolve_with EvapFullsim.F_default EvapFullsim.default_params
      = Some r /\
    0 < EvapFullsim.M0 EvapFullsim.default_params /\
    (Z.to_nat 7999 < length (EvapFullsim.M_over_M0 r))%nat /\
    nth 0 (EvapFullsim.M_over_M0 r) NaN = Finite 1 /\
    nth (Z.to_nat 7999) (EvapFullsim.M_over_M0 r) NaN = Finite a /\
    1e-6 <= a.
Proof.
destruct DefaultResult.default_samples as (r & Hr & _ & _ & HM & _).
assert (HM0 : 0 < EvapFullsim.M0 EvapFullsim.default_params)
  by (simpl; lra).
assert (Hi : (Z.to_nat 7999 < length (EvapFullsim.M_over_M0 r))%nat)
  by (rewrite HM; lia).
destruct (mass_floor EvapFullsim.F_default EvapFullsim.default_params
            r (Z.to_nat 7999) Hr HM0 Hi) as (H1 & a & Ha & Hle).
exists r, a. repeat split; assumption.
Defined.

(** X4.  The entropies are functions of the recorded mass alone: for [M0]
    of ordinary magnitude, [S_bits[i] = S_bits[0] * M_over_M0[i]^2] and
    [bits_emitted[i] = S_bits[0] * (1 - M_over_M0[i]^2)], exactly in exact
    arithmetic and, as stated here, to within [1e-9 * S_bits[0]], the
    tolerance the roundings of binary64 stay within. *)
Theorem entropy_from_mass
  (p : EvapFullsim.FullSimParams) (r : EvapFullsim.Trajectory) (i : nat) :
  EvapFullsim.evolve_trajectory p = Some r ->
  ordinary (EvapFullsim.M0 p) ->
  (i < length (EvapFullsim.S_bits r))%nat ->
  exists a,
    nth i (EvapFullsim.M_over_M0 r) NaN = Finite a /\
    Rabs (nth i (EvapFullsim.S_bits r) 0
          - nth 0 (EvapFullsim.S_bits r) 0 * a ^ 2)
      <= 1e-9 * nth 0 (EvapFullsim.S_bits r) 0 /\
    Rabs (nth i (EvapFullsim.bits_emitted r) 0
          - nth 0 (EvapFullsim.S_bits r) 0 * (1 - a ^ 2))
      <= 1e-9 * nth 0 (EvapFullsim.S_bits r) 0.
Proof.
intros Hr _ Hi. apply RecordFacts.evolve_with_records in Hr.
destruct Hr as (st & -> & Hok & _ & _ & HM0 & _).
unfold EvapFullsim.post_process in *.
cbn [EvapFullsim.M_over_M0 EvapFullsim.S_bits EvapFullsim.bits_emitted] in *.
pose proof (EvapFullsim.ok_len_S_bh _ _ Hok) as HlS.
pose proof (EvapFullsim.ok_len_M _ _ Hok) as HlM.
pose proof TrajectoryFacts.LOG2_pos as HL.
exists (nth i (EvapFullsim.M_list st) 0 / EvapFullsim.M0 p).
rewrite ExitFacts.nth_map_np_div by (try assumption; lia).
split; [reflexivity |].
assert (HS : forall k, nth k (EvapFullsim.S_bh_list st) 0
                       = EvapFullsim.S_of_M (nth k (EvapFullsim.M_list st) 0)).
{ intros k. rewrite (EvapFullsim.ok_S_bh _ _ Hok).
  rewrite <- TrajectoryFacts.S_of_M_0 at 1. apply map_nth. }
assert (H0 : nth 0 (EvapFullsim.M_list st) 0 = EvapFullsim.M0 p)
  by (apply hd_error_nth, (EvapFullsim.ok_first_M _ _ Hok)).
assert (Hi_eq : nth i (EvapFullsim.S_bh_list st) 0
                = nth 0 (EvapFullsim.S_bh_list st) 0
                  * (nth i (EvapFullsim.M_list st) 0 / EvapFullsim.M0 p) ^ 2).
{ rewrite !HS, H0. unfold EvapFullsim.S_of_M. field. split; lra. }
pose proof (Forall2_nth _ _ _ _ _ 0 0
              (EvapFullsim.ok_conserved _ _ Hok) i Hi) as Hsum.
cbv beta in Hsum.
assert (HS0 : nth 0 (EvapFullsim.S_bh_list st) 0
              = EvapFullsim.S_of_M (EvapFullsim.M0 p))
  by (rewrite HS, H0; reflexivity).
assert (Hpos : 0 <= nth 0 (EvapFullsim.S_bh_list st) 0).
{ rewrite HS0. unfold EvapFullsim.S_of_M. pose proof PI_RGT_0.
  apply Rmult_le_pos; [| left; apply Rinv_0_lt_compat; lra].
  pose proof (pow2_ge_0 (EvapFullsim.M0 p)). nra. }
set (S0 := nth 0 (EvapFullsim.S_bh_list st) 0) in *.
set (a := nth i (EvapFullsim.M_list st) 0 / EvapFullsim.M0 p) in *.
split.
- rewrite Hi_eq. rewrite Rminus_diag, Rabs_R0. lra.
- replace (nth i (EvapFullsim.S_rad_list st) 0 - S0 * (1 - a ^ 2)) with 0
    by (rewrite Hi_eq in Hsum; rewrite HS0 in *; lra).
  rewrite Rabs_R0. lra.
Qed.

Lemma entropy_from_mass_witness :
  exists r a,
    EvapFullsim.evolve_trajectory EvapFullsim.default_params = Some r /\
    ordinary (EvapFullsim.M0 EvapFullsim.default_params) /\
    (Z.to_nat 7999 < length (EvapFullsim.S_bits r))%nat /\
    nth (Z.to_nat 7999) (EvapFullsim.M_over_M0 r) NaN = Finite a /\
    Rabs (nth (Z.to_nat 7999) (EvapFullsim.S_bits r) 0
          - nth 0 (EvapFullsim.S_bits r) 0 * a ^ 2)
      <= 1e-9 * nth 0 (EvapFullsim.S_bits r) 0.
Proof.
destruct DefaultResult.default_samples as (r & Hr & _ & _ & _ & _ & HS & _).
assert (Ho : ordinary (EvapFullsim.M0 EvapFullsim.default_params))
  by (apply ordinary_positive; simpl; lra).
assert (Hi : (Z.to_nat 7999 < length (EvapFullsim.S_bits r))%nat)
  by (rewrite HS; lia).
destruct (entropy_from_mass EvapFullsim.default_params r (Z.to_nat 7999)
            Hr Ho Hi) as (a & Ha & Hs & _).
exists r, a. repeat (split; [assumption |]); assumption.
Defined.

Module EntryFacts.
Import EvapFullsim.

(** With a negative initial mass the loop condition fails at once. *)
Lemma loop_skipped (F : R -> option R) (p : FullSimParams) (st : state) :
  M0 p < 0 -> cur_M st = M0 p ->
  loop F p (enough_fuel p) st = (st, MassReached).
Proof.
intros HM Hc. unfold enough_fuel. cbn [loop].
destruct (Rlt_dec (1e-4 * M0 p) (cur_M st)) as [Hlt | _];
  [rewrite Hc in Hlt; lra | reflexivity].
Qed.

(** With a positive initial mass and [T0 = 0] the first evaluation of the
    spectral efficiency, at temperature 0, raises. *)
Lemma loop_raises_at_T0_0 (p : FullSimParams) (st : state) :
  0 < M0 p -> T0 p = 0 -> cur_M st = M0 p ->
  loop F_default p (enough_fuel p) st = (st, Raised).
Proof.
intros HM HT Hc. unfold enough_fuel. cbn [loop].
destruct (Rlt_dec (1e-4 * M0 p) (cur_M st)) as [_ | Hn];
  [| rewrite Hc in Hn; lra].
unfold body. rewrite Hc, MassFacts.T_H_defined by lra.
cbn [bind]. rewrite HT.
replace (0 * (M0 p / M0 p)) with 0 by ring.
unfold F_default. rewrite FtFacts.F_of_T_raises_at_0. reflexivity.
Qed.

End EntryFacts.

(** X5.  For [|M0| <= 1e150] (so that [M0**2] does not overflow) and [T0]
    either zero or of magnitude at least 1e-300 (so that [k_B * T] does not
    underflow to zero), [evolve_trajectory] raises exactly when the initial
    mass is zero (division in [T_H]) or the initial mass is positive and
    [T0 = 0] (division by [k_B * T] in the first call of [F_of_T]); for all
    other such parameters, in particular every negative [M0] and every
    [n_steps], it returns a trajectory. *)
Theorem evolve_trajectory_raises_iff (p : EvapFullsim.FullSimParams) :
  Rabs (EvapFullsim.M0 p) <= 1e150 ->
  EvapFullsim.T0 p = 0 \/ 1e-300 <= Rabs (EvapFullsim.T0 p) ->
  (EvapFullsim.evolve_trajectory p = None <->
   EvapFullsim.M0 p = 0 \/ (0 < EvapFullsim.M0 p /\ EvapFullsim.T0 p = 0)).
Proof.
intros _ _. split.
- intros Hnone.
  destruct (Req_dec_T (EvapFullsim.M0 p) 0) as [HM | HM]; [left; exact HM |].
  right.
  destruct (Req_dec_T (EvapFullsim.T0 p) 0) as [HT | HT].
  + split; [| exact HT].
    destruct (Rlt_dec (EvapFullsim.M0 p) 0) as [Hneg |]; [| lra].
    exfalso.
    pose proof (MassFacts.init_state_defined p HM) as Hinit.
    set (st0 := EvapFullsim.mkState _ _ _ _ _ _ _ _ _) in Hinit.
    pose proof (EntryFacts.loop_skipped EvapFullsim.F_default p st0
                  Hneg eq_refl) as Hloop.
    unfold EvapFullsim.evolve_trajectory in Hnone.
    rewrite (LoopFacts.evolve_with_returns _ _ _ Hinit) in Hnone
      by (rewrite Hloop; discriminate).
    discriminate.
  + exfalso.
    destruct (TrajectoryFacts.evolve_trajectory_returns p HM HT)
      as [r [Hr _]].
    rewrite Hr in Hnone. discriminate.
- intros [HM | [HM HT]].
  + unfold EvapFullsim.evolve_trajectory, EvapFullsim.evolve_with.
    rewrite (MassFacts.init_state_raises p HM). reflexivity.
  + unfold EvapFullsim.evolve_trajectory, EvapFullsim.evolve_with.
    rewrite (MassFacts.init_state_defined p) by lra.
    cbn [bind].
    rewrite EntryFacts.loop_raises_at_T0_0 by (assumption || reflexivity).
    reflexivity.
Qed.

Lemma evolve_trajectory_raises_iff_witness :
  Rabs (EvapFullsim.M0 (EvapFullsim.mkParams 1 0 8000)) <= 1e150 /\
  EvapFullsim.evolve_trajectory (EvapFullsim.mkParams 1 0 8000) = None /\
  Rabs (EvapFullsim.M0 EvapFullsim.default_params) <= 1e150 /\
  EvapFullsim.evolve_trajectory EvapFullsim.default_params <> None.
Proof.
assert (H1 : Rabs (EvapFullsim.M0 (EvapFullsim.mkParams 1 0 8000)) <= 1e150)
  by (simpl; rewrite Rabs_pos_eq; lra).
assert (H2 : EvapFullsim.T0 (EvapFullsim.mkParams 1 0 8000) = 0
             \/ 1e-300 <= Rabs (EvapFullsim.T0
                                  (EvapFullsim.mkParams 1 0 8000)))
  by (left; reflexivity).
assert (H3 : Rabs (EvapFullsim.M0 EvapFullsim.default_params) <= 1e150)
  by (simpl; rewrite Rabs_pos_eq; lra).
assert (H4 : EvapFullsim.T0 EvapFullsim.default_params = 0
             \/ 1e-300 <= Rabs (EvapFullsim.T0 EvapFullsim.default_params))
  by (right; simpl; rewrite Rabs_pos_eq; lra).
split; [exact H1 |]. split; [| split; [exact H3 |]].
- apply (proj2 (evolve_trajectory_raises_iff
                  (EvapFullsim.mkParams 1 0 8000) H1 H2)).
  right. simpl. split; [lra | reflexivity].
- intros Hnone.
  destruct (proj1 (evolve_trajectory_raises_iff
                     EvapFullsim.default_params H3 H4) Hnone)
    as [E | [_ E]]; simpl in E; lra.
Defined.

(** X6.  With a negative initial mass the loop is not entered and the
    result is the initial record alone, whatever the spectral efficiency:
    one sample at [t = 0], [tau = [nan]] (0/0), [M_over_M0 = [1]], the
    entropy of [M0] in [S_bits], nothing emitted, [t_evap = 0], and the
    Page point is that record with [tau_page = nan].  (Stated for
    [M0 >= -1e150], where [M0**2] does not overflow.) *)
Theorem negative_mass_single_record (F : R -> option R)
  (p : EvapFullsim.FullSimParams) :
  -1e150 <= EvapFullsim.M0 p < 0 ->
  exists r,
    EvapFullsim.evolve_with F p = Some r /\
    EvapFullsim.t r = [0] /\
    EvapFullsim.tau r = [NaN] /\
    EvapFullsim.M_over_M0 r = [Finite 1] /\
    EvapFullsim.S_bits r = [EvapFullsim.S_of_M (EvapFullsim.M0 p)] /\
    EvapFullsim.bits_emitted r = [0] /\
    EvapFullsim.t_evap r = 0 /\
    EvapFullsim.tau_page r = NaN /\
    EvapFullsim.M_page_over_M0 r = Finite 1.
Proof.
intros [_ Hneg].
assert (HM : EvapFullsim.M0 p <> 0) by lra.
pose proof (MassFacts.init_state_defined p HM) as Hinit.
set (st0 := EvapFullsim.mkState _ _ _ _ _ _ _ _ _) in Hinit.
pose proof (EntryFacts.loop_skipped F p st0 Hneg eq_refl) as Hloop.
exists (EvapFullsim.post_process p st0). split.
- rewrite (LoopFacts.evolve_with_returns _ _ _ Hinit)
    by (rewrite Hloop; discriminate).
  rewrite Hloop. reflexivity.
- assert (H00 : np_div 0 0 = NaN).
  { unfold np_div. destruct (Req_dec_T 0 0); [reflexivity | contradiction]. }
  assert (H11 : np_div (EvapFullsim.M0 p) (EvapFullsim.M0 p) = Finite 1).
  { rewrite ExitFacts.np_div_finite by assumption. f_equal.
    field. assumption. }
  unfold EvapFullsim.post_process, EvapFullsim.page_index, st0.
  cbn [EvapFullsim.t EvapFullsim.tau EvapFullsim.M_over_M0
       EvapFullsim.S_bits EvapFullsim.bits_emitted EvapFullsim.t_evap
       EvapFullsim.tau_page EvapFullsim.M_page_over_M0
       EvapFullsim.t_list EvapFullsim.M_list EvapFullsim.S_bh_list
       EvapFullsim.S_rad_list last map map2 argmin argmin_from nth].
  rewrite H00, H11. repeat split; reflexivity.
Qed.

Lemma negative_mass_single_record_witness :
  -1e150 <= EvapFullsim.M0 (EvapFullsim.mkParams (-2) 0 8000) < 0 /\
  exists r,
    EvapFullsim.evolve_with EvapFullsim.F_default
      (EvapFullsim.mkParams (-2) 0 8000) = Some r /\
    EvapFullsim.tau r = [NaN].
Proof.
assert (H : -1e150 <= EvapFullsim.M0 (EvapFullsim.mkParams (-2) 0 8000) < 0)
  by (simpl; lra).
split; [exact H |].
destruct (negative_mass_single_record EvapFullsim.F_default
            (EvapFullsim.mkParams (-2) 0 8000) H)
  as (r & Hr & _ & Htau & _).
exists r. split; [exact Hr | exact Htau].
Defined.

(** ** Step sizes and the number of records *)

Lemma chain_adjacent (A : Type) (rel : A -> A -> Prop) (l : list A) (d : A)
  (i : nat) :
  chain rel l -> (S i < length l)%nat -> rel (nth i l d) (nth (S i) l d).
Proof.
revert i. induction l as [| a l IH]; intros i Hc Hi; [simpl in Hi; lia |].
destruct l as [| b l]; [simpl in Hi; lia |].
destruct Hc as [Hab Hc].
destruct i as [| i]; [exact Hab |].
change (rel (nth i (b :: l) d) (nth (S i) (b :: l) d)).
apply IH; [exact Hc | simpl in *; lia].
Qed.

Module RatioFacts.
Import EvapFullsim LoopFacts MassFacts.

Lemma shrink_ceil_ge (n : nat) :
  1e20 * 0.999 ^ n <= IZR (shrink_ceil n).
Proof.
induction n as [| n IH].
- simpl. lra.
- cbn [shrink_ceil pow].
  set (x := shrink_ceil n) in *.
  assert (H : (x * 999 < 1000 * (x * 999 / 1000 + 1))%Z).
  { pose proof (Z.mul_succ_div_gt (x * 999) 1000 ltac:(lia)). lia. }
  apply IZR_lt in H. rewrite !mult_IZR, plus_IZR in H.
  rewrite plus_IZR.
  set (y := IZR (x * 999 / 1000)) in *. lra.
Qed.

Lemma shrink_9114 : 1e-4 < 0.99899 ^ Z.to_nat 9114.
Proof.
pose proof (DefaultRun.shrink_floor_le (Z.to_nat 9114)) as H.
assert (Hc : (10000000000000000 < shrink_floor (Z.to_nat 9114))%Z)
  by (vm_compute; reflexivity).
apply IZR_lt in Hc.
set (v := 0.99899 ^ Z.to_nat 9114) in *.
set (w := IZR (shrink_floor (Z.to_nat 9114))) in *.
lra.
Qed.

Lemma shrink_9206 : 0.999 ^ Z.to_nat 9206 < 1e-4.
Proof.
pose proof (shrink_ceil_ge (Z.to_nat 9206)) as H.
assert (Hc : (shrink_ceil (Z.to_nat 9206) < 10000000000000000)%Z)
  by (vm_compute; reflexivity).
apply IZR_lt in Hc.
set (v := 0.999 ^ Z.to_nat 9206) in *.
set (w := IZR (shrink_ceil (Z.to_nat 9206))) in *.
lra.
Qed.

Section Dominant.

Variable F : R -> option R.
Variable p : FullSimParams.

Hypothesis M0_pos : 0 < M0 p.
Hypothesis T0_nonzero : T0 p <> 0.
Hypothesis F_large :
  forall T, T <> 0 ->
  exists v, F T = Some v /\ 101 * 1e-30 * (M0 p ^ 2 + 1e-30) <= v.

(** One Euler step takes off between 0.1 and 0.101 percent of the mass. *)
Lemma Euler_step_ratio (Fv M : R) :
  0 < M <= M0 p -> 101 * 1e-30 * (M0 p ^ 2 + 1e-30) <= Fv ->
  0.99899 * M <= M + dMdt_of Fv M * dt_of Fv M <= 0.999 * M.
Proof.
intros [HM HM0] HF.
assert (Hden : 0 < M ^ 2 + 1e-30) by (pose proof (pow2_ge_0 M); lra).
assert (Hden0 : M ^ 2 + 1e-30 <= M0 p ^ 2 + 1e-30).
{ assert (M ^ 2 <= M0 p ^ 2) by (apply pow_incr; lra). lra. }
set (a := Fv / (M ^ 2 + 1e-30)).
assert (Ha : 101 * 1e-30 <= a).
{ unfold a. apply (Rmult_le_reg_r (M ^ 2 + 1e-30)); [assumption |].
  replace (Fv / (M ^ 2 + 1e-30) * (M ^ 2 + 1e-30)) with Fv
    by (field; lra).
  nra. }
assert (HdM : dMdt_of Fv M = - a) by (unfold dMdt_of, a; field; lra).
set (d := dMdt_of Fv M + 1e-30).
assert (Hd : d = 1e-30 - a) by (unfold d; rewrite HdM; ring).
assert (Hdneg : d < 0) by lra.
assert (Hq : M / d < 0).
{ unfold Rdiv. assert (/ d < 0) by (apply Rinv_lt_0_compat; assumption).
  nra. }
assert (Hdt : dt_of Fv M = 1e-3 * - (M / d)).
{ unfold dt_of. fold d. rewrite Rabs_left by assumption. reflexivity. }
rewrite Hdt, HdM.
assert (Hr : -1.01 <= a / d <= -1).
{ split.
  - apply (Rmult_le_reg_r (- d)); [lra |].
    replace (a / d * - d) with (- a) by (field; lra). nra.
  - apply (Rmult_le_reg_r (- d)); [lra |].
    replace (a / d * - d) with (- a) by (field; lra). lra. }
replace (M + - a * (1e-3 * - (M / d))) with (M + 1e-3 * M * (a / d))
  by (field; lra).
nra.
Qed.

Lemma init_step_ratio_ok (st0 : state) :
  init_state p = Some st0 -> step_ratio_ok p st0.
Proof.
rewrite init_state_defined by lra. intros [= <-].
constructor; cbn [M_list cur_M length Nat.sub pow chain].
- exact I.
- lra.
- lra.
- lia.
Qed.

(** A step keeps the invariant; the floor [1e-6 * M0] does not bind. *)
Lemma body_step_ratio_ok (st st' : state) :
  history_ok p st -> step_ratio_ok p st ->
  1e-4 * M0 p < cur_M st ->
  body F p st = Some (Next st') ->
  step_ratio_ok p st' /\
  cur_M st' = cur_M st + match F (T0 p * (M0 p / cur_M st)) with
                         | Some Fv => dMdt_of Fv (cur_M st)
                                      * dt_of Fv (cur_M st)
                         | None => 0
                         end.
Proof.
intros Hok [Hch [Hlo Hhi] Hgd Hab] Hg Hb.
assert (Hne : M_list st <> []).
{ apply (hd_error_nonempty _ _ _ (ok_first_M _ _ Hok)). }
assert (Hlen : (1 <= length (M_list st))%nat).
{ destruct (M_list st); [contradiction | simpl; lia]. }
assert (Hle1 : 0.999 ^ (length (M_list st) - 1) <= 1).
{ rewrite <- (pow1 (length (M_list st) - 1)). apply pow_incr. lra. }
assert (HM : 0 < cur_M st <= M0 p) by nra.
apply body_next in Hb.
destruct Hb as (T & Fv & T_new & HT & HFv & _ & _ & ->).
rewrite T_H_defined in HT by lra. injection HT as <-.
assert (HTne : T0 p * (M0 p / cur_M st) <> 0).
{ apply Rmult_integral_contrapositive_currified; [assumption |].
  apply Rgt_not_eq. apply Rdiv_lt_0_compat; lra. }
destruct (F_large _ HTne) as [v [Hv Hvl]].
rewrite HFv in Hv. injection Hv as <-. rewrite HFv.
pose proof (Euler_step_ratio Fv (cur_M st) HM Hvl) as Hstep.
set (x := cur_M st + dMdt_of Fv (cur_M st) * dt_of Fv (cur_M st)) in *.
assert (Hmax : py_max x (1e-6 * M0 p) = x).
{ unfold py_max. destruct (Rlt_dec x (1e-6 * M0 p)); [lra | reflexivity]. }
rewrite Hmax. cbn [cur_M M_list]. split; [| reflexivity].
constructor; cbn [cur_M M_list].
- apply (chain_snoc _ _ _ _ 0); [assumption |].
  intros _. rewrite (ok_last_M _ _ Hok). exact Hstep.
- rewrite length_app. cbn [length].
  replace (length (M_list st) + 1 - 1)%nat
    with (S (length (M_list st) - 1)) by lia.
  cbn [pow]. split; nra.
- rewrite length_app. cbn [length].
  replace (length (M_list st) + 1 - 2)%nat
    with (length (M_list st) - 1)%nat by lia.
  apply (Rmult_lt_reg_r (M0 p)); [assumption |]. lra.
- intros _. lra.
Qed.

Lemma loop_step_ratio_ok (fuel : nat) (st : state) :
  history_ok p st -> step_ratio_ok p st ->
  step_ratio_ok p (fst (loop F p fuel st)).
Proof.
intros Hok Hr.
assert (H : history_ok p (fst (loop F p fuel st)) /\
            step_ratio_ok p (fst (loop F p fuel st))).
{ apply (loop_invariant F p
           (fun s => history_ok p s /\ step_ratio_ok p s)).
  - intros s s' (H1 & H2) Hg Hb. split.
    + eapply body_history_ok; eassumption.
    + eapply body_step_ratio_ok; eassumption.
  - auto. }
apply H.
Qed.

(** The loop takes at least one step, and is left by the mass condition
    or by the step cap only. *)
Lemma loop_exit_ratio (fuel : nat) (st : state) :
  history_ok p st -> step_ratio_ok p st ->
  (length (M_list st) = 1%nat /\ fuel <> O \/
   (2 <= length (M_list st))%nat) ->
  (2 <= length (M_list (fst (loop F p fuel st))))%nat /\
  snd (loop F p fuel st) <> DegenerateStep /\
  snd (loop F p fuel st) <> Raised.
Proof.
revert st. induction fuel as [| fuel IH]; intros st Hok Hr Hl.
- simpl. split; [lia |]. split; discriminate.
- cbn [loop].
  destruct (Rlt_dec (1e-4 * M0 p) (cur_M st)) as [Hg | Hg].
  + assert (Hle1 : 0.999 ^ (length (M_list st) - 1) <= 1).
    { rewrite <- (pow1 (length (M_list st) - 1)). apply pow_incr. lra. }
    pose proof (ratio_cur _ _ Hr) as Hcur.
    destruct (StepFacts.body_steps F p M0_pos T0_nonzero F_large st)
      as [st' [Hb _]]; [nra |].
    rewrite Hb.
    pose proof (body_history_ok _ _ _ _ Hok Hb) as Hok'.
    destruct (body_step_ratio_ok _ _ Hok Hr Hg Hb) as [Hr' _].
    assert (Hlen' : (2 <= length (M_list st'))%nat).
    { rewrite (ok_len_M _ _ Hok').
      rewrite (body_length _ _ _ _ Hb).
      pose proof (hd_error_nonempty _ _ _ (ok_first_t _ _ Hok)).
      destruct (t_list st); [contradiction | simpl; lia]. }
    destruct (n_steps p <=? Z.of_nat (length (t_list st')))%Z.
    * cbn [fst snd]. split; [exact Hlen' |]. split; discriminate.
    * apply IH; [assumption | assumption | right; exact Hlen'].
  + cbn [fst snd]. split; [| split; discriminate].
    destruct Hl as [[Hl _] | Hl]; [| exact Hl].
    exfalso. pose proof (ratio_cur _ _ Hr) as Hcur.
    rewrite Hl in Hcur. simpl in Hcur. lra.
Qed.

(** What is returned when the efficiency dominates the regulariser. *)
Lemma evolve_with_ratio (r : Trajectory) :
  evolve_with F p = Some r ->
  exists st e,
    r = post_process p st /\ history_ok p st /\ step_ratio_ok p st /\
    (2 <= length (M_list st))%nat /\
    (Z.of_nat (length (M_list st)) <= Z.max 2 (n_steps p))%Z /\
    (e = MassReached /\ cur_M st <= 1e-4 * M0 p \/
     e = StepCap /\ (n_steps p <= Z.of_nat (length (M_list st)))%Z).
Proof.
intros Hr. apply evolve_with_inv in Hr.
destruct Hr as (st0 & st & e & Hinit & Hloop & Hnr & Hnf & Hok & ->).
pose proof (init_history_ok _ _ Hinit) as Hok0.
pose proof (init_step_ratio_ok _ Hinit) as Hr0.
assert (Hl0 : length (M_list st0) = 1%nat).
{ rewrite init_state_defined in Hinit by lra. injection Hinit as <-.
  reflexivity. }
pose proof (loop_step_ratio_ok (enough_fuel p) st0 Hok0 Hr0) as Hrs.
destruct (loop_exit_ratio (enough_fuel p) st0 Hok0 Hr0) as (H2 & Hnd & _).
{ left. split; [exact Hl0 | unfold enough_fuel; discriminate]. }
pose proof (ExitFacts.loop_length_bound F p (enough_fuel p) st0) as Hb.
rewrite Hloop in *. cbn [fst snd] in *.
pose proof (ExitFacts.loop_exit_spec F p _ _ _ _ Hloop) as Hex.
exists st, e. split; [reflexivity |]. split; [exact Hok |].
split; [exact Hrs |]. split; [exact H2 |].
rewrite (ok_len_M _ _ Hok). split.
- apply Hb. left. rewrite <- (ok_len_M _ _ Hok0). exact Hl0.
- destruct e; try contradiction.
  + left. split; [reflexivity | exact Hex].
  + right. split; [reflexivity | exact Hex].
Qed.

End Dominant.

(** The default efficiency dominates the regulariser for initial masses
    up to [1e6]. *)
Lemma F_default_dominant (p : FullSimParams) (T : R) :
  0 < M0 p <= 1e6 -> T <> 0 ->
  exists v, F_default T = Some v /\
            101 * 1e-30 * (M0 p ^ 2 + 1e-30) <= v.
Proof.
intros [HM0 HM1] HT. exists (FtModel.I_value T 600). split.
- apply FtFacts.F_of_T_defined. assumption.
- pose proof (FtBound.I_value_lower T).
  assert (M0 p ^ 2 <= 1e6 ^ 2) by (apply pow_incr; lra).
  lra.
Qed.

End RatioFacts.

(** X7.  Step size of the integrator: for [1e-50 <= M0 <= 1e6] and [T0]
    of ordinary magnitude the loop takes at least one step, and every step
    removes 0.1 percent of the current mass, to within a hundredth of
    that: [0.99899 * M[i] <= M[i+1] <= 0.99901 * M[i]].  (The [dt] check
    never breaks and the floor [1e-6 * M0] never binds.) *)
Theorem mass_step_ratio (p : EvapFullsim.FullSimParams)
  (r : EvapFullsim.Trajectory) (i : nat) :
  1e-50 <= EvapFullsim.M0 p <= 1e6 ->
  ordinary (EvapFullsim.T0 p) ->
  EvapFullsim.evolve_trajectory p = Some r ->
  (2 <= length (EvapFullsim.M_over_M0 r))%nat /\
  ((S i < length (EvapFullsim.M_over_M0 r))%nat ->
   exists a b,
     nth i (EvapFullsim.M_over_M0 r) NaN = Finite a /\
     nth (S i) (EvapFullsim.M_over_M0 r) NaN = Finite b /\
     0.99899 * a <= b <= 0.99901 * a).
Proof.
intros HM0r HT0o Hr.
assert (HM0 : 0 < EvapFullsim.M0 p <= 1e6) by lra.
pose proof (ordinary_nonzero _ HT0o) as HT0.
apply (RatioFacts.evolve_with_ratio EvapFullsim.F_default p
         ltac:(lra) HT0 (fun T => RatioFacts.F_default_dominant p T HM0))
  in Hr.
destruct Hr as (st & e & -> & Hok & Hrt & H2 & _ & _).
unfold EvapFullsim.post_process. cbn [EvapFullsim.M_over_M0].
rewrite length_map. split; [exact H2 |]. intros Hi.
assert (Hne : EvapFullsim.M0 p <> 0) by lra.
exists (nth i (EvapFullsim.M_list st) 0 / EvapFullsim.M0 p),
       (nth (S i) (EvapFullsim.M_list st) 0 / EvapFullsim.M0 p).
rewrite !ExitFacts.nth_map_np_div by (try assumption; lia).
split; [reflexivity |]. split; [reflexivity |].
pose proof (chain_adjacent _ _ _ 0 i (EvapFullsim.ratio_chain _ _ Hrt) Hi)
  as Hstep.
cbv beta in Hstep.
set (a := nth i (EvapFullsim.M_list st) 0) in *.
set (b := nth (S i) (EvapFullsim.M_list st) 0) in *.
assert (Hinv : 0 < / EvapFullsim.M0 p) by (apply Rinv_0_lt_compat; lra).
unfold Rdiv. split; nra.
Qed.

Lemma mass_step_ratio_witness :
  exists r a b,
    1e-50 <= EvapFullsim.M0 EvapFullsim.default_params <= 1e6 /\
    ordinary (EvapFullsim.T0 EvapFullsim.default_params) /\
    EvapFullsim.evolve_trajectory EvapFullsim.default_params = Some r /\
    (S (Z.to_nat 7998) < length (EvapFullsim.M_over_M0 r))%nat /\
    nth (Z.to_nat 7998) (EvapFullsim.M_over_M0 r) NaN = Finite a /\
    nth (S (Z.to_nat 7998)) (EvapFullsim.M_over_M0 r) NaN = Finite b /\
    0.99899 * a <= b <= 0.99901 * a.
Proof.
destruct DefaultResult.default_samples as (r & Hr & _ & _ & HM & _).
assert (HM0 : 1e-50 <= EvapFullsim.M0 EvapFullsim.default_params <= 1e6)
  by (simpl; lra).
assert (HT : ordinary (EvapFullsim.T0 EvapFullsim.default_params))
  by (apply ordinary_positive; simpl; lra).
assert (Hi : (S (Z.to_nat 7998) < length (EvapFullsim.M_over_M0 r))%nat)
  by (rewrite HM; lia).
destruct (proj2 (mass_step_ratio EvapFullsim.default_params r
                   (Z.to_nat 7998) HM0 HT Hr) Hi)
  as (a & b & Ha & Hb & Hab).
exists r, a, b.
split; [exact HM0 |]. split; [exact HT |]. split; [exact Hr |].
split; [exact Hi |]. split; [exact Ha |]. split; [exact Hb | exact Hab].
Defined.

(** X8.  When the step cap decides: for [1e-50 <= M0 <= 1e6], [T0] of
    ordinary magnitude and
    [n_steps <= 9115] the mass cannot reach [1e-4 * M0], so the loop is
    left by the step cap: the result has exactly [max(2, n_steps)] samples
    and its final [M_over_M0] is above [1e-4]. *)
Theorem step_cap_decides (p : EvapFullsim.FullSimParams)
  (r : EvapFullsim.Trajectory) :
  1e-50 <= EvapFullsim.M0 p <= 1e6 ->
  ordinary (EvapFullsim.T0 p) ->
  (EvapFullsim.n_steps p <= 9115)%Z ->
  EvapFullsim.evolve_trajectory p = Some r ->
  Z.of_nat (length (EvapFullsim.t r)) = Z.max 2 (EvapFullsim.n_steps p) /\
  exists m, last (EvapFullsim.M_over_M0 r) NaN = Finite m /\ 1e-4 < m.
Proof.
intros HM0r HT0o Hn Hr.
assert (HM0 : 0 < EvapFullsim.M0 p <= 1e6) by lra.
pose proof (ordinary_nonzero _ HT0o) as HT0.
apply (RatioFacts.evolve_with_ratio EvapFullsim.F_default p
         ltac:(lra) HT0 (fun T => RatioFacts.F_default_dominant p T HM0))
  in Hr.
destruct Hr as (st & e & -> & Hok & Hrt & H2 & Hmax & He).
assert (Hne : EvapFullsim.M0 p <> 0) by lra.
assert (Hcur : 1e-4 * EvapFullsim.M0 p < EvapFullsim.cur_M st).
{ pose proof (EvapFullsim.ratio_cur _ _ Hrt) as [Hlo _].
  assert (Hq : 0.99899 ^ Z.to_nat 9114
               <= 0.99899 ^ (length (EvapFullsim.M_list st) - 1)).
  { apply StepFacts.pow_le_1_antitone; [lra | lia]. }
  pose proof RatioFacts.shrink_9114. nra. }
unfold EvapFullsim.post_process.
cbn [EvapFullsim.t EvapFullsim.M_over_M0].
rewrite <- (EvapFullsim.ok_len_M _ _ Hok). split.
- destruct He as [[_ Hle] | [_ Hcap]]; [lra | lia].
- exists (EvapFullsim.cur_M st / EvapFullsim.M0 p). split.
  + rewrite (DefaultResult.last_map _ _ _ _ 0).
    * rewrite (EvapFullsim.ok_last_M _ _ Hok).
      apply ExitFacts.np_div_finite. assumption.
    * intros E. rewrite E in H2. simpl in H2. lia.
  + apply (Rmult_lt_reg_r (EvapFullsim.M0 p)); [lra |].
    replace (EvapFullsim.cur_M st / EvapFullsim.M0 p * EvapFullsim.M0 p)
      with (EvapFullsim.cur_M st) by (field; assumption).
    exact Hcur.
Qed.

Lemma step_cap_decides_witness :
  exists r,
    EvapFullsim.evolve_trajectory EvapFullsim.default_params = Some r /\
    Z.of_nat (length (EvapFullsim.t r)) = 8000%Z.
Proof.
destruct (TrajectoryFacts.evolve_trajectory_returns
            EvapFullsim.default_params) as [r [Hr _]];
  [simpl; lra | simpl; lra |].
exists r. split; [exact Hr |].
exact (proj1 (step_cap_decides EvapFullsim.default_params r
                ltac:(simpl; lra)
            ltac:(apply ordinary_positive; simpl; lra) ltac:(simpl; lia) Hr)).
Defined.

(** X9.  When the mass condition decides: for [1e-50 <= M0 <= 1e6], [T0]
    of ordinary magnitude
    and [n_steps >= 9208] the loop is left because [M <= 1e-4 * M0], after
    between 9115 and 9206 steps: the result has between 9116 and 9207
    samples and its final [M_over_M0] lies in [(0.99899e-4, 1e-4]]. *)
Theorem mass_condition_decides (p : EvapFullsim.FullSimParams)
  (r : EvapFullsim.Trajectory) :
  1e-50 <= EvapFullsim.M0 p <= 1e6 ->
  ordinary (EvapFullsim.T0 p) ->
  (9208 <= EvapFullsim.n_steps p)%Z ->
  EvapFullsim.evolve_trajectory p = Some r ->
  (9116 <= Z.of_nat (length (EvapFullsim.t r)) <= 9207)%Z /\
  exists m, last (EvapFullsim.M_over_M0 r) NaN = Finite m /\
            0.99899 * 1e-4 < m <= 1e-4.
Proof.
intros HM0r HT0o Hn Hr.
assert (HM0 : 0 < EvapFullsim.M0 p <= 1e6) by lra.
pose proof (ordinary_nonzero _ HT0o) as HT0.
apply (RatioFacts.evolve_with_ratio EvapFullsim.F_default p
         ltac:(lra) HT0 (fun T => RatioFacts.F_default_dominant p T HM0))
  in Hr.
destruct Hr as (st & e & -> & Hok & Hrt & H2 & Hmax & He).
assert (Hne : EvapFullsim.M0 p <> 0) by lra.
assert (Hup : (length (EvapFullsim.M_list st) <= Z.to_nat 9207)%nat).
{ destruct (le_lt_dec (length (EvapFullsim.M_list st)) (Z.to_nat 9207))
    as [H | H]; [exact H | exfalso].
  pose proof (EvapFullsim.ratio_guard _ _ Hrt) as Hg.
  assert (Hq : 0.999 ^ (length (EvapFullsim.M_list st) - 2)
               <= 0.999 ^ Z.to_nat 9206).
  { apply StepFacts.pow_le_1_antitone; [lra | lia]. }
  pose proof RatioFacts.shrink_9206. lra. }
assert (Hcur : EvapFullsim.cur_M st <= 1e-4 * EvapFullsim.M0 p).
{ destruct He as [[_ Hle] | [_ Hcap]]; [exact Hle | lia]. }
assert (Hlow : (Z.to_nat 9116 <= length (EvapFullsim.M_list st))%nat).
{ destruct (le_lt_dec (Z.to_nat 9116) (length (EvapFullsim.M_list st)))
    as [H | H]; [exact H | exfalso].
  pose proof (EvapFullsim.ratio_cur _ _ Hrt) as [Hlo _].
  assert (Hq : 0.99899 ^ Z.to_nat 9114
               <= 0.99899 ^ (length (EvapFullsim.M_list st) - 1)).
  { apply StepFacts.pow_le_1_antitone; [lra | lia]. }
  pose proof RatioFacts.shrink_9114. nra. }
unfold EvapFullsim.post_process.
cbn [EvapFullsim.t EvapFullsim.M_over_M0].
rewrite <- (EvapFullsim.ok_len_M _ _ Hok). split; [lia |].
exists (EvapFullsim.cur_M st / EvapFullsim.M0 p). split.
- rewrite (DefaultResult.last_map _ _ _ _ 0).
  + rewrite (EvapFullsim.ok_last_M _ _ Hok).
    apply ExitFacts.np_div_finite. assumption.
  + intros E. rewrite E in H2. simpl in H2. lia.
- pose proof (EvapFullsim.ratio_above _ _ Hrt H2) as Hab.
  assert (Hinv : 0 < / EvapFullsim.M0 p) by (apply Rinv_0_lt_compat; lra).
  split.
  + apply (Rmult_lt_reg_r (EvapFullsim.M0 p)); [lra |].
    replace (EvapFullsim.cur_M st / EvapFullsim.M0 p * EvapFullsim.M0 p)
      with (EvapFullsim.cur_M st) by (field; assumption).
    lra.
  + apply (Rmult_le_reg_r (EvapFullsim.M0 p)); [lra |].
    replace (EvapFullsim.cur_M st / EvapFullsim.M0 p * EvapFullsim.M0 p)
      with (EvapFullsim.cur_M st) by (field; assumption).
    exact Hcur.
Qed.

Lemma mass_condition_decides_witness :
  exists r m,
    EvapFullsim.evolve_trajectory (EvapFullsim.mkParams 1 1.227e12 10000)
      = Some r /\
    last (EvapFullsim.M_over_M0 r) NaN = Finite m /\ m <= 1e-4.
Proof.
destruct (TrajectoryFacts.evolve_trajectory_returns
            (EvapFullsim.mkParams 1 1.227e12 10000)) as [r [Hr _]];
  [simpl; lra | simpl; lra |].
destruct (mass_condition_decides (EvapFullsim.mkParams 1 1.227e12 10000) r
            ltac:(simpl; lra)
            ltac:(apply ordinary_positive; simpl; lra) ltac:(simpl; lia) Hr)
  as (_ & m & Hm & _ & Hle).
exists r, m. split; [exact Hr |]. split; [exact Hm | exact Hle].
Defined.

(** ** More on the spectral efficiency *)

Module SpectralFacts.
Import Greybody FtModel FtFacts.

(** A threshold that is not positive gives the grid of a massless
    species, from 1e-6 to 40. *)
Lemma grid_nonpositive (mu : R) (n_x : nat) :
  mu <= 0 -> grid mu n_x = grid 0 n_x.
Proof.
intros Hmu. unfold grid.
assert (H1 : py_max mu 1e-6 = py_max 0 1e-6).
{ unfold py_max. destruct (Rlt_dec mu 1e-6); [| lra].
  destruct (Rlt_dec 0 1e-6); [reflexivity | lra]. }
assert (H2 : py_max (mu + 40) 40 = py_max (0 + 40) 40).
{ unfold py_max. destruct (Rlt_dec (mu + 40) 40);
    destruct (Rlt_dec (0 + 40) 40); lra. }
rewrite H1, H2. reflexivity.
Qed.

Lemma mu_value_negative (T : R) (spec : Species) :
  T < 0 -> mu_value T spec <= 0.
Proof.
intros HT. unfold mu_value. pose proof k_B_pos.
destruct (Rle_dec (mass_eV spec) 0) as [| Hm]; [lra |].
assert (Hd : k_B_eV_per_K * T < 0) by nra.
assert (Hi : / (k_B_eV_per_K * T) < 0) by (apply Rinv_lt_0_compat; lra).
unfold Rdiv. nra.
Qed.

Lemma fold_left_sum_ext (A : Type) (h h' : A -> R) (l : list A) (acc : R) :
  (forall a, In a l -> h a = h' a) ->
  fold_left (fun s a => s + h a) l acc
  = fold_left (fun s a => s + h' a) l acc.
Proof.
revert acc. induction l as [| a l IH]; intros acc Hh; [reflexivity |].
simpl. rewrite (Hh a) by (now left). apply IH.
intros b Hb. apply Hh. now right.
Qed.

Lemma I_value_negative (T : R) (n_x : nat) :
  T < 0 ->
  I_value T n_x
  = fold_left (fun acc spec => acc + I_from_mu 0 spec n_x) species_set 0.
Proof.
intros HT. unfold I_value. apply fold_left_sum_ext.
intros spec _. unfold I_from_mu.
rewrite (grid_nonpositive _ _ (mu_value_negative T spec HT)).
reflexivity.
Qed.

Lemma I_from_mu_small_grid (mu : R) (spec : Species) (n_x : nat) :
  (n_x <= 1)%nat -> I_from_mu mu spec n_x = 0.
Proof.
intros Hn. unfold I_from_mu, grid.
destruct n_x as [| [| n]]; [| | lia]; simpl; ring.
Qed.

End SpectralFacts.

(** X10.  For [T] either zero or of magnitude at least 1e-300 (below,
    [k_B * T] underflows to zero), [F_of_T] raises (the
    [ZeroDivisionError] of [m_eV / (k_B * T)] for the first massive
    species) exactly at [T = 0], for every grid size [n_x >= 0]; negative
    temperatures are accepted. *)
Theorem F_of_T_raises_iff (T : R) (n_x : nat) :
  T = 0 \/ 1e-300 <= Rabs T ->
  (FtModel.F_of_T T n_x = None <-> T = 0).
Proof.
intros _. split.
- intros Hnone. destruct (Req_dec_T T 0) as [HT | HT]; [exact HT |].
  rewrite FtFacts.F_of_T_defined in Hnone by assumption. discriminate.
- intros ->. apply FtFacts.F_of_T_raises_at_0.
Qed.

Lemma F_of_T_raises_iff_witness :
  FtModel.F_of_T 0 600 = None /\ FtModel.F_of_T (-1.227e12) 600 <> None.
Proof.
split.
- apply (proj2 (F_of_T_raises_iff 0 600 (or_introl eq_refl))).
  reflexivity.
- intros Hnone.
  assert (H : -1.227e12 = 0 \/ 1e-300 <= Rabs (-1.227e12))
    by (right; rewrite Rabs_left by lra; lra).
  pose proof (proj1 (F_of_T_raises_iff (-1.227e12) 600 H) Hnone). lra.
Defined.

(** X11.  With the default grid of 600 points the spectral efficiency is
    bounded away from zero at every temperature of ordinary magnitude:
    [F_of_T(T) >= 1e-14] (already the first trapezoid of the photon
    integral gives as much), so [dMdt] in the integrator is never zero. *)
Theorem F_of_T_bounded_below (T : R) :
  ordinary T ->
  exists v, FtModel.F_of_T T 600 = Some v /\ 1e-14 <= v.
Proof.
intros HT. apply ordinary_nonzero in HT.
exists (FtModel.I_value T 600). split.
- apply FtFacts.F_of_T_defined. assumption.
- apply FtBound.I_value_lower.
Qed.

Lemma F_of_T_bounded_below_witness :
  ordinary 1.227e12 /\
  exists v, FtModel.F_of_T 1.227e12 600 = Some v /\ 1e-14 <= v.
Proof.
assert (H : ordinary 1.227e12) by (apply ordinary_positive; lra).
split; [exact H |]. exact (F_of_T_bounded_below 1.227e12 H).
Defined.

(** X12.  [F_of_T] does not depend on a negative temperature: for
    [T <= -1e-300] every threshold [mu] is negative or zero, so every
    species is integrated over the massless grid from 1e-6 to 40, and
    [F_of_T(T) = F_of_T(T')] for all such [T], [T'], neither call
    raising. *)
Theorem F_of_T_negative_constant (T T' : R) (n_x : nat) :
  T <= -1e-300 -> T' <= -1e-300 ->
  FtModel.F_of_T T n_x = FtModel.F_of_T T' n_x /\
  FtModel.F_of_T T n_x <> None.
Proof.
intros HT HT'.
rewrite !FtFacts.F_of_T_defined by lra.
rewrite !SpectralFacts.I_value_negative by lra.
split; [reflexivity | discriminate].
Qed.

Lemma F_of_T_negative_constant_witness :
  -1 <= -1e-300 /\ -2e12 <= -1e-300 /\
  FtModel.F_of_T (-1) 600 = FtModel.F_of_T (-2e12) 600.
Proof.
assert (H1 : -1 <= -1e-300) by lra. assert (H2 : -2e12 <= -1e-300) by lra.
split; [exact H1 |]. split; [exact H2 |].
exact (proj1 (F_of_T_negative_constant (-1) (-2e12) 600 H1 H2)).
Defined.

(** X13.  A grid of fewer than two points has no trapezoid: for [n_x = 0]
    or [n_x = 1] and [T] of magnitude at least 1e-300, [F_of_T(T, n_x)] is
    0. *)
Theorem F_of_T_small_grid (T : R) (n_x : nat) :
  1e-300 <= Rabs T -> n_x = 0%nat \/ n_x = 1%nat ->
  FtModel.F_of_T T n_x = Some 0.
Proof.
intros HT Hn.
assert (HT0 : T <> 0).
{ intros E. rewrite E, Rabs_R0 in HT. lra. }
assert (Hn1 : (n_x <= 1)%nat) by lia.
rewrite FtFacts.F_of_T_defined by assumption. f_equal.
unfold FtModel.I_value, Greybody.species_set. cbn [fold_left].
rewrite !SpectralFacts.I_from_mu_small_grid by assumption. ring.
Qed.

Lemma F_of_T_small_grid_witness :
  1e-300 <= Rabs 1.227e12 /\ FtModel.F_of_T 1.227e12 1 = Some 0.
Proof.
assert (H : 1e-300 <= Rabs 1.227e12) by (rewrite Rabs_pos_eq; lra).
split; [exact H |].
exact (F_of_T_small_grid 1.227e12 1 H (or_intror eq_refl)).
Defined.

(** ** More on the greybody profile *)

Module ProfileFacts.
Import Greybody GreybodyFacts.

Lemma pow_even_neg (k : nat) (y : R) : (- y) ^ (2 * k) = y ^ (2 * k).
Proof.
rewrite !pow_mult. f_equal. ring.
Qed.

Lemma pow_even_nonneg (k : nat) (y : R) : 0 <= y ^ (2 * k).
Proof.
rewrite pow_mult. apply pow_le. nra.
Qed.

Lemma ratio_lt_1 (u : R) : 0 <= u -> ratio u < 1.
Proof.
intros Hu. unfold ratio.
apply (Rmult_lt_reg_r (1 + u)); [lra |].
unfold Rdiv. rewrite Rmult_assoc, Rinv_l by lra. lra.
Qed.

Lemma ratio_complement (u : R) : 0 <= u -> 1 - ratio u = / (1 + u).
Proof. intros Hu. unfold ratio. field. lra. Qed.

Lemma ratio_low (u : R) : 0 <= u -> u * (1 - u) <= ratio u <= u.
Proof.
intros Hu. unfold ratio.
assert (Hi : 0 < / (1 + u)) by (apply Rinv_0_lt_compat; lra).
assert (Hi1 : / (1 + u) <= 1).
{ rewrite <- Rinv_1 at 2. apply Rinv_le_contravar; lra. }
assert (Hi2 : 1 - u <= / (1 + u)).
{ apply (Rmult_le_reg_r (1 + u)); [lra |].
  rewrite Rinv_l by lra. nra. }
unfold Rdiv. split; nra.
Qed.

Lemma pow_ge_square (p : nat) (y : R) :
  1 <= y -> (2 <= p)%nat -> y ^ 2 <= y ^ p.
Proof.
intros Hy Hp. apply Rle_pow; assumption.
Qed.

End ProfileFacts.

(** X14.  For every [y] with [|y| <= 1e50] (so that [y**6] does not
    overflow), negative ones included, and every spin: [chi_s_y] is even in
    [y], lies between 0 and [27*pi/4], and in the spin-0 branch is at least
    [4*pi]; the two bounds that involve [pi] are stated with a margin of
    1e-9 for the rounding of binary64. *)
Theorem chi_s_y_even_bounded (y s : R) :
  Rabs y <= 1e50 ->
  Greybody.chi_s_y_scalar (- y) s = Greybody.chi_s_y_scalar y s /\
  0 <= Greybody.chi_s_y_scalar y s <= 27 * PI / 4 + 1e-9 /\
  (Rabs s < 1e-9 -> 4 * PI - 1e-9 <= Greybody.chi_s_y_scalar y s).
Proof.
intros _.
pose proof GreybodyFacts.high_pos as Hh.
pose proof GreybodyFacts.low_lt_high as Hlh.
assert (Hl : 0 < Greybody.low)
  by (unfold Greybody.low; pose proof PI_RGT_0; lra).
fold Greybody.high. fold Greybody.low.
destruct (Rlt_dec (Rabs s) 1e-9) as [Hs | Hs].
- rewrite !GreybodyFacts.chi_scalar_spin0 by assumption.
  pose proof (ProfileFacts.pow_even_neg 1 y) as He.
  pose proof (ProfileFacts.pow_even_nonneg 1 y) as Hp.
  cbn [Nat.mul Nat.add] in He, Hp. rewrite He.
  pose proof (GreybodyFacts.ratio_bounds _ Hp).
  split; [reflexivity |]. split; [split; nra | intros _; nra].
- rewrite !GreybodyFacts.chi_scalar_power by assumption.
  destruct (GreybodyFacts.chi_exponent_even s) as [k ->].
  rewrite ProfileFacts.pow_even_neg.
  pose proof (ProfileFacts.pow_even_nonneg (S k) y) as Hp.
  pose proof (GreybodyFacts.ratio_bounds _ Hp).
  split; [reflexivity |]. split; [split; nra | intros; contradiction].
Qed.

Lemma chi_s_y_even_bounded_witness :
  Rabs (-3) <= 1e50 /\
  Greybody.chi_s_y_scalar (- -3) 2 = Greybody.chi_s_y_scalar (-3) 2 /\
  0 <= Greybody.chi_s_y_scalar (-3) 2 <= 27 * PI / 4 + 1e-9.
Proof.
assert (H : Rabs (-3) <= 1e50) by (rewrite Rabs_left by lra; lra).
split; [exact H |].
destruct (chi_s_y_even_bounded (-3) 2 H) as (H1 & H2 & _).
split; [exact H1 | exact H2].
Defined.

(** X15.  Saturation at high frequency, the limit announced by the
    docstring: for [1 <= y <= 1e50] and every spin, [chi_s_y] is within
    [(27*pi/4) / (1 + y^2)] of [27*pi/4], up to a margin of 1e-9 for the
    rounding of binary64. *)
Theorem chi_s_y_saturation (y s : R) :
  1 <= y <= 1e50 ->
  27 * PI / 4 - Greybody.chi_s_y_scalar y s
    <= 27 * PI / 4 / (1 + y ^ 2) + 1e-9.
Proof.
intros [Hy _].
pose proof GreybodyFacts.high_pos as Hh.
pose proof GreybodyFacts.low_lt_high as Hlh.
assert (Hl : 0 < Greybody.low)
  by (unfold Greybody.low; pose proof PI_RGT_0; lra).
fold Greybody.high.
assert (Hy2 : 0 <= y ^ 2) by (apply pow_le; lra).
assert (Hi2 : 0 < / (1 + y ^ 2)) by (apply Rinv_0_lt_compat; lra).
destruct (Rlt_dec (Rabs s) 1e-9) as [Hs | Hs].
- rewrite GreybodyFacts.chi_scalar_spin0 by assumption.
  pose proof (ProfileFacts.ratio_complement _ Hy2) as Hc.
  replace (Greybody.high
           - (Greybody.low
              + (Greybody.high - Greybody.low) * Greybody.ratio (y ^ 2)))
    with ((Greybody.high - Greybody.low) * (1 - Greybody.ratio (y ^ 2)))
    by ring.
  rewrite Hc. unfold Rdiv. nra.
- rewrite GreybodyFacts.chi_scalar_power by assumption.
  destruct (GreybodyFacts.chi_exponent_even s) as [k Hk].
  assert (Hp : y ^ 2 <= y ^ Greybody.chi_exponent s).
  { apply ProfileFacts.pow_ge_square; [assumption | lia]. }
  set (u := y ^ Greybody.chi_exponent s) in *.
  pose proof (ProfileFacts.ratio_complement u ltac:(lra)) as Hc.
  replace (Greybody.high - Greybody.high * Greybody.ratio u)
    with (Greybody.high * (1 - Greybody.ratio u)) by ring.
  rewrite Hc.
  assert (/ (1 + u) <= / (1 + y ^ 2))
    by (apply Rinv_le_contravar; lra).
  unfold Rdiv. nra.
Qed.

Lemma chi_s_y_saturation_witness :
  1 <= 3 <= 1e50 /\
  27 * PI / 4 - Greybody.chi_s_y_scalar 3 1
    <= 27 * PI / 4 / (1 + 3 ^ 2) + 1e-9.
Proof.
assert (H : 1 <= 3 <= 1e50) by lra.
split; [exact H | exact (chi_s_y_saturation 3 1 H)].
Defined.

(** X16.  The low-frequency scaling the exponents are chosen for: for
    [1e-50 <= y <= 1e50], spins 1/2, 1 and 2 give
    [h*y^p*(1 - y^p) <= chi_s_y <= h*y^p] with [h = 27*pi/4] and
    [p = 2, 4, 6], up to a relative margin of 1e-9 of [h*y^p] for the
    rounding of binary64. *)
Theorem chi_s_y_low_frequency (y : R) :
  1e-50 <= y <= 1e50 ->
  let h := 27 * PI / 4 in
  (h * y ^ 2 * (1 - y ^ 2) - 1e-9 * (h * y ^ 2)
     <= Greybody.chi_s_y_scalar y 0.5 <= h * y ^ 2 + 1e-9 * (h * y ^ 2)) /\
  (h * y ^ 4 * (1 - y ^ 4) - 1e-9 * (h * y ^ 4)
     <= Greybody.chi_s_y_scalar y 1 <= h * y ^ 4 + 1e-9 * (h * y ^ 4)) /\
  (h * y ^ 6 * (1 - y ^ 6) - 1e-9 * (h * y ^ 6)
     <= Greybody.chi_s_y_scalar y 2 <= h * y ^ 6 + 1e-9 * (h * y ^ 6)).
Proof.
intros [Hy0 _] h. assert (Hy : 0 <= y) by lra.
pose proof GreybodyFacts.high_pos as Hh.
change h with Greybody.high. clear h.
rewrite !GreybodyFacts.chi_scalar_power
  by (unfold Rabs; destruct Rcase_abs; lra).
rewrite GreybodyFacts.chi_exponent_half, GreybodyFacts.chi_exponent_one,
  GreybodyFacts.chi_exponent_two.
pose proof (ProfileFacts.ratio_low (y ^ 2) (pow_le y 2 Hy)).
pose proof (ProfileFacts.ratio_low (y ^ 4) (pow_le y 4 Hy)).
pose proof (ProfileFacts.ratio_low (y ^ 6) (pow_le y 6 Hy)).
pose proof (pow_le y 2 Hy). pose proof (pow_le y 4 Hy).
pose proof (pow_le y 6 Hy).
repeat split; nra.
Qed.

Lemma chi_s_y_low_frequency_witness :
  1e-50 <= 0.1 <= 1e50 /\
  Greybody.chi_s_y_scalar 0.1 1
    <= 27 * PI / 4 * 0.1 ^ 4 + 1e-9 * (27 * PI / 4 * 0.1 ^ 4).
Proof.
assert (H : 1e-50 <= 0.1 <= 1e50) by lra.
split; [exact H |].
exact (proj2 (proj1 (proj2 (chi_s_y_low_frequency 0.1 H)))).
Defined.

(** ** The exported file *)

Module ExportFacts.
Import PyFormat TextFacts ParseFacts FieldFacts.

Lemma format_e8_plain (v : npfloat) : plain (format_e8 v).
Proof.
destruct v as [x | | |]; try reflexivity.
apply sci8_shape_plain. apply (format_e8_finite_spec x).
Qed.

Lemma csv_field_plain (s : string) : plain s -> csv_field s = s.
Proof. unfold plain, csv_field. intros ->. reflexivity. Qed.

Lemma plain_avoids (c : ascii) (s : string) :
  is_special c = true -> plain s -> avoids c s.
Proof.
intros Hc. unfold plain, avoids.
induction s as [| d s IH]; simpl; [reflexivity |].
intros H. apply orb_false_iff in H. destruct H as [Hd Hs].
rewrite (IH Hs), andb_true_r. apply negb_true_iff.
destruct (Ascii.eqb_spec d c) as [-> | _]; [congruence | reflexivity].
Qed.

Lemma map_csv_field_plain (fs : list string) :
  Forall plain fs -> map csv_field fs = fs.
Proof.
induction 1 as [| f fs Hf _ IH]; [reflexivity |].
simpl. rewrite (csv_field_plain _ Hf), IH. reflexivity.
Qed.

(** Joining fields that hold no separator and splitting again. *)
Lemma split_concat (sep : ascii) (fs : list string) :
  fs <> [] -> Forall (avoids sep) fs ->
  split_on sep (String.concat (String sep EmptyString) fs) = fs.
Proof.
intros Hne Hall. induction Hall as [| f fs Hf Hfs IH]; [contradiction |].
destruct fs as [| f' fs].
- simpl. apply split_on_avoid. assumption.
- change (String.concat (String sep EmptyString) (f :: f' :: fs))
    with (String.append f
            (String sep (String.concat (String sep EmptyString) (f' :: fs)))).
  rewrite split_on_app by assumption. f_equal. apply IH. discriminate.
Qed.

Lemma concat_empty_cons (x : string) (xs : list string) :
  String.concat EmptyString (x :: xs)
  = String.append x (String.concat EmptyString xs).
Proof.
destruct xs as [| y ys]; [simpl; now rewrite append_nil_r | reflexivity].
Qed.

Lemma strip_cr_app (l : string) :
  strip_cr (String.append l (String CR EmptyString)) = l.
Proof.
induction l as [| c l IH]; [reflexivity |].
destruct l as [| d l]; [reflexivity |].
change (String c (strip_cr (String.append (String d l)
                              (String CR EmptyString)))
        = String c (String d l)).
rewrite IH. reflexivity.
Qed.

Lemma avoids_app (sep : ascii) (a b : string) :
  avoids sep a -> avoids sep b -> avoids sep (String.append a b).
Proof.
unfold avoids. intros Ha Hb. rewrite forall_chars_app, Ha, Hb. reflexivity.
Qed.

Lemma avoids_concat (c sep : ascii) (fs : list string) :
  Ascii.eqb sep c = false ->
  Forall (avoids c) fs ->
  avoids c (String.concat (String sep EmptyString) fs).
Proof.
intros Hsep Hall. induction Hall as [| f fs Hf Hfs IH]; [reflexivity |].
destruct fs as [| f' fs]; [exact Hf |].
change (String.concat (String sep EmptyString) (f :: f' :: fs))
  with (String.append f
          (String sep (String.concat (String sep EmptyString) (f' :: fs)))).
apply avoids_app; [exact Hf |].
unfold avoids in *. simpl forall_chars at 1.
cbn [forall_chars]. rewrite Hsep. exact IH.
Qed.

(** The text of rows of plain fields, split at its line feeds. *)
Lemma split_lines (lines : list string) :
  Forall (avoids LF) lines ->
  split_on LF
    (String.concat EmptyString
       (map (fun l => String.append l (String CR (String LF EmptyString)))
            lines))
  = map (fun l => String.append l (String CR EmptyString)) lines
    ++ [EmptyString].
Proof.
induction 1 as [| l lines Hl _ IH]; [reflexivity |].
cbn [map]. rewrite concat_empty_cons.
replace (String.append
           (String.append l (String CR (String LF EmptyString)))
           (String.concat EmptyString
              (map (fun l0 => String.append l0
                                (String CR (String LF EmptyString))) lines)))
  with (String.append (String.append l (String CR EmptyString))
          (String LF
             (String.concat EmptyString
                (map (fun l0 => String.append l0
                                  (String CR (String LF EmptyString)))
                     lines)))).
- rewrite split_on_app.
  + rewrite IH. reflexivity.
  + apply avoids_app; [exact Hl | reflexivity].
- rewrite !append_assoc. reflexivity.
Qed.

(** What [csv.writer] writes for rows of plain fields is read back as the
    same rows. *)
Lemma parse_rows_written (rows : list (list string)) :
  Forall (fun fs => fs <> [] /\ Forall plain fs) rows ->
  String.concat EmptyString (map writerow rows)
  = String.concat EmptyString
      (map (fun fs => String.append (String.concat "," fs)
                        (String CR (String LF EmptyString))) rows) /\
  parse_rows (String.concat EmptyString (map writerow rows)) = rows.
Proof.
intros Hall.
assert (Hw : map writerow rows
             = map (fun l => String.append l
                               (String CR (String LF EmptyString)))
                   (map (String.concat ",") rows)).
{ rewrite map_map. apply map_ext_in. intros fs Hin.
  rewrite Forall_forall in Hall. destruct (Hall fs Hin) as [_ Hp].
  unfold writerow. rewrite (map_csv_field_plain _ Hp). reflexivity. }
split.
- rewrite Hw, map_map. reflexivity.
- unfold parse_rows. rewrite Hw, split_lines.
  + rewrite removelast_last, !map_map.
    rewrite <- (map_id rows) at 2. apply map_ext_in. intros fs Hin.
    rewrite Forall_forall in Hall. destruct (Hall fs Hin) as [Hne Hp].
    rewrite strip_cr_app. apply (split_concat ","%char); [exact Hne |].
    eapply Forall_impl; [| exact Hp].
    intros f. apply plain_avoids. reflexivity.
  + rewrite Forall_map. eapply Forall_impl; [| exact Hall].
    intros fs [_ Hp]. apply avoids_concat; [reflexivity |].
    eapply Forall_impl; [| exact Hp].
    intros f. apply plain_avoids. reflexivity.
Qed.

Lemma header_plain : Forall plain EvapFullsim.header.
Proof. repeat constructor. Qed.

Lemma data_row_plain (r : EvapFullsim.Trajectory) (i : nat) :
  Forall plain (EvapFullsim.data_row r i).
Proof. repeat constructor; apply format_e8_plain. Qed.

Lemma field_records_finite (x : R) :
  field_records (format_e8 (Finite x)) (Finite x).
Proof.
destruct (format_e8_finite_spec x) as [Hs (x' & Hp & Herr)].
exists x, x'. repeat split; assumption.
Qed.

End ExportFacts.

Module ColumnFacts.
Import EvapFullsim.

(** Which entries of the normalised columns are finite: [tau] unless the
    history is the initial record alone, [M_over_M0] always,
    [T_over_T0] unless [T0 = 0]; the others are [nan], never infinite. *)
Lemma column_values (F : R -> option R) (p : FullSimParams)
  (r : Trajectory) (i : nat) :
  evolve_with F p = Some r ->
  (i < length (tau r))%nat ->
  (length (tau r) = 1%nat -> nth i (tau r) NaN = NaN) /\
  ((2 <= length (tau r))%nat -> exists x, nth i (tau r) NaN = Finite x) /\
  (exists x, nth i (M_over_M0 r) NaN = Finite x) /\
  (T0 p <> 0 -> exists x, nth i (T_over_T0 r) NaN = Finite x) /\
  (T0 p = 0 -> nth i (T_over_T0 r) NaN = NaN).
Proof.
intros Hr Hi. apply RecordFacts.evolve_with_records in Hr.
destruct Hr as (st & -> & Hok & Htemp & _ & HM0 & _).
unfold post_process in *. cbn [tau M_over_M0 T_over_T0] in *.
rewrite length_map in *.
pose proof (ok_len_M _ _ Hok) as HlM.
pose proof (ok_len_T _ _ Hok) as HlT.
pose proof (hd_error_nth _ _ _ 0 (ok_first_t _ _ Hok)) as Ht_0.
split; [| split; [| split; [| split]]].
- intros Hlen. destruct (t_list st) as [| a [| b l]]; try discriminate.
  simpl in Ht_0. subst a. destruct i as [| i]; [| simpl in Hi; lia].
  simpl. unfold np_div.
  destruct (Req_dec_T 0 0); [reflexivity | contradiction].
- intros Hlen.
  pose proof (chain_nth _ Rlt (t_list st) 0
                ltac:(intros; lra) (ok_t_increasing _ _ Hok)) as Htc.
  assert (Hevap : 0 < last (t_list st) 0).
  { rewrite last_nth. apply Rle_lt_trans with (nth 0 (t_list st) 0).
    - rewrite Ht_0. lra.
    - apply Htc. lia. }
  eexists. apply ExitFacts.nth_map_np_div; [lra | assumption].
- eexists. apply ExitFacts.nth_map_np_div; [assumption | lia].
- intros HT0. eexists. apply ExitFacts.nth_map_np_div; [assumption | lia].
- intros HT0.
  rewrite (nth_indep _ NaN (np_div 0 (T0 p)))
    by (rewrite length_map; lia).
  rewrite (map_nth (fun v => np_div v (T0 p))).
  pose proof (Forall2_nth _ _ _ _ _ 0 0 Htemp i ltac:(lia)) as [_ HTi].
  rewrite HTi. unfold np_div.
  destruct (Req_dec_T (T0 p) 0) as [_ | Hn]; [| contradiction].
  destruct (Req_dec_T (T0 p * (M0 p / nth i (M_list st) 0)) 0)
    as [_ | Hn]; [reflexivity |].
  exfalso. apply Hn. rewrite HT0. ring.
Qed.

Lemma tau_length (F : R -> option R) (p : FullSimParams) (r : Trajectory) :
  evolve_with F p = Some r -> length (tau r) = length (M_over_M0 r).
Proof.
intros Hr. apply RecordFacts.evolve_with_records in Hr.
destruct Hr as (st & -> & Hok & _).
unfold post_process. cbn [tau M_over_M0]. rewrite !length_map.
symmetry. apply (ok_len_M _ _ Hok).
Qed.

End ColumnFacts.

(** X17.  The file written by [generate_trajectory]: [csv.writer] never
    quotes a field (neither the header names nor the formatted numbers,
    [nan] included, hold a comma, a quote or a line break), so the text is
    the comma-joined rows, each ended by CR LF, and splitting it at line
    feeds and commas gives back the header row followed by one row of five
    fields per sample. *)
Theorem exported_rows (p : EvapFullsim.FullSimParams) (text : string) :
  EvapFullsim.generate_trajectory p = Some text ->
  exists r,
    EvapFullsim.evolve_trajectory p = Some r /\
    text = String.concat EmptyString
             (map (fun fs => String.append (String.concat "," fs)
                               (String PyFormat.CR
                                  (String PyFormat.LF EmptyString)))
                  (EvapFullsim.header
                   :: map (EvapFullsim.data_row r)
                        (seq 0 (length (EvapFullsim.t r))))) /\
    PyFormat.parse_rows text
    = EvapFullsim.header
      :: map (EvapFullsim.data_row r) (seq 0 (length (EvapFullsim.t r))) /\
    length (PyFormat.parse_rows text) = S (length (EvapFullsim.t r)).
Proof.
unfold EvapFullsim.generate_trajectory.
destruct (EvapFullsim.evolve_trajectory p) as [r |] eqn:Hr;
  [| discriminate].
unfold bind. intros Heq. exists r. split; [reflexivity |].
assert (Hlen : length (EvapFullsim.tau r) = length (EvapFullsim.t r)).
{ apply RecordFacts.evolve_with_records in Hr.
  destruct Hr as (st & -> & _). unfold EvapFullsim.post_process.
  cbn [EvapFullsim.tau EvapFullsim.t]. apply length_map. }
rewrite Hlen in Heq.
assert (Ht : text
  = String.append (PyFormat.writerow EvapFullsim.header)
      (String.concat EmptyString
         (map (fun i => PyFormat.writerow (EvapFullsim.data_row r i))
              (seq 0 (length (EvapFullsim.t r))))))
  by congruence.
rewrite Ht. clear Heq Ht text.
set (rows := EvapFullsim.header
             :: map (EvapFullsim.data_row r)
                  (seq 0 (length (EvapFullsim.t r)))).
assert (Htext :
  String.append (PyFormat.writerow EvapFullsim.header)
    (String.concat EmptyString
       (map (fun i => PyFormat.writerow (EvapFullsim.data_row r i))
            (seq 0 (length (EvapFullsim.t r)))))
  = String.concat EmptyString (map PyFormat.writerow rows)).
{ unfold rows. cbn [map]. rewrite ExportFacts.concat_empty_cons, map_map.
  reflexivity. }
rewrite Htext.
assert (Hall : Forall (fun fs => fs <> [] /\ Forall PyFormat.plain fs) rows).
{ unfold rows. constructor.
  - split; [discriminate | apply ExportFacts.header_plain].
  - rewrite Forall_map. apply Forall_forall. intros i _.
    split; [discriminate | apply ExportFacts.data_row_plain]. }
destruct (ExportFacts.parse_rows_written rows Hall) as [H1 H2].
split; [exact H1 |]. split; [exact H2 |].
rewrite H2. unfold rows. cbn [length]. rewrite length_map, length_seq.
reflexivity.
Qed.

Lemma exported_rows_witness :
  exists text r,
    EvapFullsim.generate_trajectory EvapFullsim.default_params = Some text /\
    EvapFullsim.evolve_trajectory EvapFullsim.default_params = Some r /\
    length (PyFormat.parse_rows text) = S (length (EvapFullsim.t r)).
Proof.
destruct (TrajectoryFacts.evolve_trajectory_returns
            EvapFullsim.default_params) as [r [Hr _]];
  [simpl; lra | simpl; lra |].
assert (Hg : exists text,
          EvapFullsim.generate_trajectory EvapFullsim.default_params
          = Some text).
{ unfold EvapFullsim.generate_trajectory. rewrite Hr. cbn [bind].
  eexists. reflexivity. }
destruct Hg as [text Hg].
destruct (exported_rows EvapFullsim.default_params text Hg)
  as (r' & Hr' & _ & _ & Hlen).
exists text, r'. split; [exact Hg |]. split; [exact Hr' | exact Hlen].
Defined.

(** X18.  The fields of a data row, for [M0] of ordinary magnitude and
    [T0] zero or of ordinary magnitude (no entropy or temperature then
    overflows).  The columns [M_over_M0], [S_bits] and [bits_emitted] hold
    finite values, written in scientific notation with eight digits after
    the point and read back (as by Python's [float]) to within a relative
    [5e-9]; so does [tau] when the history has at least two samples, and
    [T_over_T0] when [T0 <> 0].  Otherwise the field is [nan]: [tau] for a
    single sample (0/0), and [T_over_T0] for [T0 = 0].  No field is
    [inf]. *)
Theorem exported_fields (p : EvapFullsim.FullSimParams)
  (r : EvapFullsim.Trajectory) (i : nat) :
  EvapFullsim.evolve_trajectory p = Some r ->
  ordinary (EvapFullsim.M0 p) ->
  EvapFullsim.T0 p = 0 \/ ordinary (EvapFullsim.T0 p) ->
  (i < length (EvapFullsim.tau r))%nat ->
  let row := EvapFullsim.data_row r i in
  (length (EvapFullsim.tau r) = 1%nat ->
     nth 0 row EmptyString = "nan"%string) /\
  ((2 <= length (EvapFullsim.tau r))%nat ->
     PyFormat.field_records (nth 0 row EmptyString)
       (nth i (EvapFullsim.tau r) NaN)) /\
  PyFormat.field_records (nth 1 row EmptyString)
    (nth i (EvapFullsim.M_over_M0 r) NaN) /\
  (EvapFullsim.T0 p <> 0 ->
     PyFormat.field_records (nth 2 row EmptyString)
       (nth i (EvapFullsim.T_over_T0 r) NaN)) /\
  (EvapFullsim.T0 p = 0 -> nth 2 row EmptyString = "nan"%string) /\
  PyFormat.field_records (nth 3 row EmptyString)
    (Finite (nth i (EvapFullsim.S_bits r) 0)) /\
  PyFormat.field_records (nth 4 row EmptyString)
    (Finite (nth i (EvapFullsim.bits_emitted r) 0)).
Proof.
intros Hr _ _ Hi row.
destruct (ColumnFacts.column_values EvapFullsim.F_default p r i Hr Hi)
  as (Htau1 & Htau2 & [m Hm] & HT & HT0).
unfold row, EvapFullsim.data_row. cbn [nth].
split; [| split; [| split; [| split; [| split; [| split]]]]].
- intros H1. rewrite (Htau1 H1). reflexivity.
- intros H2. destruct (Htau2 H2) as [x ->].
  apply ExportFacts.field_records_finite.
- rewrite Hm. apply ExportFacts.field_records_finite.
- intros Hne. destruct (HT Hne) as [x ->].
  apply ExportFacts.field_records_finite.
- intros H0. rewrite (HT0 H0). reflexivity.
- apply ExportFacts.field_records_finite.
- apply ExportFacts.field_records_finite.
Qed.

Lemma exported_fields_witness :
  exists r,
    EvapFullsim.evolve_trajectory EvapFullsim.default_params = Some r /\
    (Z.to_nat 7999 < length (EvapFullsim.tau r))%nat /\
    PyFormat.field_records
      (nth 0 (EvapFullsim.data_row r (Z.to_nat 7999)) EmptyString)
      (nth (Z.to_nat 7999) (EvapFullsim.tau r) NaN) /\
    PyFormat.field_records
      (nth 1 (EvapFullsim.data_row r (Z.to_nat 7999)) EmptyString)
      (nth (Z.to_nat 7999) (EvapFullsim.M_over_M0 r) NaN) /\
    PyFormat.field_records
      (nth 2 (EvapFullsim.data_row r (Z.to_nat 7999)) EmptyString)
      (nth (Z.to_nat 7999) (EvapFullsim.T_over_T0 r) NaN).
Proof.
destruct DefaultResult.default_samples as (r & Hr & _ & Htau & _).
assert (Ho1 : ordinary (EvapFullsim.M0 EvapFullsim.default_params))
  by (apply ordinary_positive; simpl; lra).
assert (Ho2 : EvapFullsim.T0 EvapFullsim.default_params = 0
              \/ ordinary (EvapFullsim.T0 EvapFullsim.default_params))
  by (right; apply ordinary_positive; simpl; lra).
assert (Hi : (Z.to_nat 7999 < length (EvapFullsim.tau r))%nat)
  by (rewrite Htau; lia).
destruct (exported_fields EvapFullsim.default_params r (Z.to_nat 7999)
            Hr Ho1 Ho2 Hi) as (_ & H0 & H1 & H2 & _).
exists r. split; [exact Hr |]. split; [exact Hi |].
split; [apply H0; rewrite Htau; lia |].
split; [exact H1 |].
apply H2. simpl. lra.
Defined.

(** ** Values that are written exactly *)

Module ExactFacts.
Import PyFormat RoundFacts.

Lemma powerRZ_10_mono (a b : Z) :
  (a <= b)%Z -> powerRZ 10 a <= powerRZ 10 b.
Proof.
intros Hab. rewrite !powerRZ_10_exp. apply exp_le_compat.
pose proof ln_10_pos. apply IZR_le in Hab. nra.
Qed.

Lemma decimal_exponent_unique (x : R) (e : Z) :
  powerRZ 10 e <= Rabs x < powerRZ 10 (e + 1) -> decimal_exponent x = e.
Proof.
intros [Hlo Hhi].
assert (Hpos : 0 < powerRZ 10 e) by (apply powerRZ_lt; lra).
assert (Hx : x <> 0).
{ intros ->. rewrite Rabs_R0 in Hlo. lra. }
pose proof (decimal_exponent_spec x Hx) as [Hdlo Hdhi].
set (d := decimal_exponent x) in *.
destruct (Z.lt_trichotomy d e) as [Hlt | [Heq | Hgt]]; [| exact Heq |].
- pose proof (powerRZ_10_mono (d + 1) e ltac:(lia)). lra.
- pose proof (powerRZ_10_mono (e + 1) d ltac:(lia)). lra.
Qed.

(** A decimal of nine significant digits is its own rounding. *)
Lemma sci_round_exact (m e : Z) :
  (10 ^ 8 <= m < 10 ^ 9)%Z ->
  sci_round (IZR m * powerRZ 10 (e - 8)) = (m, e).
Proof.
intros Hm.
assert (Hm8 : 1e8 <= IZR m).
{ replace 1e8 with (IZR (10 ^ 8)) by (simpl; lra). apply IZR_le. lia. }
assert (Hm9 : IZR m < 1e9).
{ replace 1e9 with (IZR (10 ^ 9)) by (simpl; lra). apply IZR_lt. lia. }
assert (Hs : 0 < powerRZ 10 (e - 8)) by (apply powerRZ_lt; lra).
set (x := IZR m * powerRZ 10 (e - 8)).
assert (Hxpos : 0 < x) by (unfold x; nra).
assert (Habs : Rabs x = x) by (apply Rabs_pos_eq; lra).
assert (He : decimal_exponent x = e).
{ apply decimal_exponent_unique. rewrite Habs. unfold x. split.
  - replace e with (8 + (e - 8))%Z at 1 by lia.
    rewrite <- powerRZ_10_shift, powerRZ_10_8. nra.
  - replace (e + 1)%Z with (9 + (e - 8))%Z by lia.
    rewrite <- powerRZ_10_shift.
    replace (powerRZ 10 9) with 1e9 by (simpl; lra). nra. }
unfold sci_round. rewrite He, Habs.
assert (Hy : x * powerRZ 10 (8 - e) = IZR m).
{ unfold x. rewrite Rmult_assoc, powerRZ_10_shift.
  replace (e - 8 + (8 - e))%Z with 0%Z by lia. simpl. ring. }
rewrite Hy.
assert (Hr : round_half_even (IZR m) = m).
{ unfold round_half_even. rewrite ZfloorZ.
  destruct (Rlt_dec (IZR m - IZR m) (1 / 2)); [reflexivity | lra]. }
rewrite Hr.
destruct (m =? 10 ^ 9)%Z eqn:Hc; [apply Z.eqb_eq in Hc; lia | reflexivity].
Qed.

Lemma format_e8_one : format_e8_finite 1 = "1.00000000e+00"%string.
Proof.
unfold format_e8_finite. destruct (Req_dec_T 1 0) as [H | _]; [lra |].
replace 1 with (IZR (10 ^ 8) * powerRZ 10 (0 - 8)) at 1
  by (simpl; field).
rewrite sci_round_exact by lia.
destruct (Rlt_dec 1 0); [lra |]. vm_compute. reflexivity.
Qed.

Lemma format_e8_zero : format_e8_finite 0 = "0.00000000e+00"%string.
Proof.
unfold format_e8_finite. destruct (Req_dec_T 0 0) as [_ | H];
  [| contradiction].
vm_compute. reflexivity.
Qed.

End ExactFacts.

(** X19.  The first data row of every exported file: [M_over_M0] is
    written as [1.00000000e+00] and [bits_emitted] as [0.00000000e+00];
    [tau] is [0.00000000e+00] when the history has at least two samples,
    and [T_over_T0] is [1.00000000e+00] when [T0 <> 0]. *)
Theorem exported_first_row (p : EvapFullsim.FullSimParams)
  (r : EvapFullsim.Trajectory) :
  EvapFullsim.evolve_trajectory p = Some r ->
  let row := EvapFullsim.data_row r 0 in
  nth 1 row EmptyString = "1.00000000e+00"%string /\
  nth 4 row EmptyString = "0.00000000e+00"%string /\
  ((2 <= length (EvapFullsim.tau r))%nat ->
     nth 0 row EmptyString = "0.00000000e+00"%string) /\
  (EvapFullsim.T0 p <> 0 ->
     nth 2 row EmptyString = "1.00000000e+00"%string).
Proof.
intros Hr row. apply RecordFacts.evolve_with_records in Hr.
destruct Hr as (st & -> & Hok & Htemp & _ & HM0 & _).
unfold row, EvapFullsim.data_row, EvapFullsim.post_process.
cbn [nth EvapFullsim.tau EvapFullsim.M_over_M0 EvapFullsim.T_over_T0
     EvapFullsim.S_bits EvapFullsim.bits_emitted].
pose proof (EvapFullsim.ok_len_M _ _ Hok) as HlM.
pose proof (EvapFullsim.ok_len_T _ _ Hok) as HlT.
pose proof (hd_error_nth _ _ _ 0 (EvapFullsim.ok_first_t _ _ Hok)) as Ht_0.
pose proof (hd_error_nth _ _ _ 0 (EvapFullsim.ok_first_M _ _ Hok)) as HM_0.
pose proof (hd_error_nth _ _ _ 0 (EvapFullsim.ok_first_S_rad _ _ Hok))
  as HS_0.
assert (Hlen : (0 < length (EvapFullsim.t_list st))%nat).
{ pose proof (hd_error_nonempty _ _ _ (EvapFullsim.ok_first_t _ _ Hok)).
  destruct (EvapFullsim.t_list st); [contradiction | simpl; lia]. }
rewrite length_map.
split; [| split; [| split]].
- rewrite ExitFacts.nth_map_np_div by (try assumption; lia).
  rewrite HM_0.
  replace (EvapFullsim.M0 p / EvapFullsim.M0 p) with 1
    by (field; assumption).
  apply ExactFacts.format_e8_one.
- rewrite HS_0. apply ExactFacts.format_e8_zero.
- intros H2.
  pose proof (chain_nth _ Rlt (EvapFullsim.t_list st) 0
                ltac:(intros; lra) (EvapFullsim.ok_t_increasing _ _ Hok))
    as Htc.
  assert (Hevap : 0 < last (EvapFullsim.t_list st) 0).
  { rewrite last_nth.
    apply Rle_lt_trans with (nth 0 (EvapFullsim.t_list st) 0).
    - rewrite Ht_0. lra.
    - apply Htc. lia. }
  rewrite ExitFacts.nth_map_np_div by (try lra; lia).
  rewrite Ht_0.
  replace (0 / last (EvapFullsim.t_list st) 0) with 0
    by (unfold Rdiv; ring).
  apply ExactFacts.format_e8_zero.
- intros HT0.
  rewrite ExitFacts.nth_map_np_div by (try assumption; lia).
  pose proof (Forall2_nth _ _ _ _ _ 0 0 Htemp 0%nat ltac:(lia))
    as [_ HT_0].
  rewrite HT_0, HM_0.
  replace (EvapFullsim.T0 p * (EvapFullsim.M0 p / EvapFullsim.M0 p)
           / EvapFullsim.T0 p) with 1 by (field; split; assumption).
  apply ExactFacts.format_e8_one.
Qed.

Lemma exported_first_row_witness :
  exists r,
    EvapFullsim.evolve_trajectory EvapFullsim.default_params = Some r /\
    nth 1 (EvapFullsim.data_row r 0) EmptyString = "1.00000000e+00"%string.
Proof.
destruct (TrajectoryFacts.evolve_trajectory_returns
            EvapFullsim.default_params) as [r [Hr _]];
  [simpl; lra | simpl; lra |].
exists r. split; [exact Hr |].
exact (proj1 (exported_first_row EvapFullsim.default_params r Hr)).
Defined.

(** ** Where the Page point lies *)

Lemma crossing (f : R -> R) (c : R) (l : list R) :
  c <= f (nth 0 l 0) -> f (last l 0) < c ->
  exists i, (S i < length l)%nat /\
            c <= f (nth i l 0) /\ f (nth (S i) l 0) < c.
Proof.
induction l as [| a l IH]; [simpl; intros; lra |].
destruct l as [| b l]; [simpl; intros; lra |].
intros H0 Hlast.
destruct (Rlt_dec (f b) c) as [Hb | Hb].
- exists 0%nat. simpl. split; [lia |]. split; assumption.
- destruct IH as (i & Hi & Hfi & HfS).
  + simpl. lra.
  + exact Hlast.
  + exists (S i). split; [simpl in *; lia |]. split; assumption.
Qed.

Module PageFacts.
Import EvapFullsim.

Lemma shrink_347 : 0.999 ^ Z.to_nat 347 < 0.7071.
Proof.
pose proof (RatioFacts.shrink_ceil_ge (Z.to_nat 347)) as H.
assert (Hc : (shrink_ceil (Z.to_nat 347) < 70710000000000000000)%Z)
  by (vm_compute; reflexivity).
apply IZR_lt in Hc.
set (v := 0.999 ^ Z.to_nat 347) in *.
set (w := IZR (shrink_ceil (Z.to_nat 347))) in *.
lra.
Qed.

(** The entropy difference at a record, in terms of its mass. *)
Lemma entropy_difference (p : FullSimParams) (st : state) (i : nat) :
  history_ok p st -> (i < length (M_list st))%nat ->
  nth i (map2 (fun a b => Rabs (a - b)) (S_bh_list st) (S_rad_list st)) 0
  = 4 * PI / LOG2 * Rabs (2 * nth i (M_list st) 0 ^ 2 - M0 p ^ 2).
Proof.
intros Hok Hi.
pose proof TrajectoryFacts.LOG2_pos as HL.
pose proof PI_RGT_0 as Hpi.
rewrite (map2_nth _ _ _ (fun a b => Rabs (a - b)) _ _ 0 0)
  by (rewrite ?(ok_len_S_bh _ _ Hok), ?(ok_len_S_rad _ _ Hok),
        <- ?(ok_len_M _ _ Hok); trivial).
pose proof (Forall2_nth _ _ _ _ _ 0 0 (ok_conserved _ _ Hok) i
              ltac:(rewrite (ok_len_S_bh _ _ Hok),
                      <- (ok_len_M _ _ Hok); exact Hi)) as Hsum.
cbv beta in Hsum.
assert (HS : nth i (S_bh_list st) 0 = S_of_M (nth i (M_list st) 0)).
{ rewrite (ok_S_bh _ _ Hok).
  rewrite <- TrajectoryFacts.S_of_M_0 at 1. apply map_nth. }
replace (nth i (S_rad_list st) 0)
  with (S_of_M (M0 p) - nth i (S_bh_list st) 0) by lra.
rewrite HS. unfold S_of_M.
replace (4 * PI * nth i (M_list st) 0 ^ 2 / LOG2
         - (4 * PI * M0 p ^ 2 / LOG2
            - 4 * PI * nth i (M_list st) 0 ^ 2 / LOG2))
  with (4 * PI / LOG2 * (2 * nth i (M_list st) 0 ^ 2 - M0 p ^ 2))
  by (field; lra).
rewrite Rabs_mult. f_equal. apply Rabs_pos_eq.
apply Rmult_le_pos; [lra | left; apply Rinv_0_lt_compat; lra].
Qed.

(** When the recorded masses shrink by the bounded ratio down to less
    than [M0 / sqrt 2], the Page index is not 0 and the mass there is
    within 0.21 percent of [M0^2 / 2], squared. *)
Lemma page_mass (p : FullSimParams) (st : state) :
  0 < M0 p -> history_ok p st -> step_ratio_ok p st ->
  2 * cur_M st ^ 2 < M0 p ^ 2 ->
  let idx := page_index (S_bh_list st) (S_rad_list st) in
  (0 < idx < length (M_list st))%nat /\
  Rabs (2 * nth idx (M_list st) 0 ^ 2 - M0 p ^ 2) <= 0.00202 * M0 p ^ 2.
Proof.
intros HM0 Hok Hrt Hcur idx.
pose proof TrajectoryFacts.LOG2_pos as HL.
pose proof PI_RGT_0 as Hpi.
assert (Hc : 0 < 4 * PI / LOG2).
{ apply Rmult_lt_0_compat; [lra | apply Rinv_0_lt_compat; lra]. }
pose proof (hd_error_nth _ _ _ 0 (ok_first_M _ _ Hok)) as HM_0.
assert (Hsq : 0 < M0 p ^ 2) by nra.
destruct (crossing (fun x => 2 * x ^ 2) (M0 p ^ 2) (M_list st))
  as (i & Hi & Ha & Hb).
{ rewrite HM_0. lra. }
{ rewrite (ok_last_M _ _ Hok). exact Hcur. }
pose proof (chain_adjacent _ _ _ 0 i (ratio_chain _ _ Hrt) Hi) as Hstep.
cbv beta in *.
set (a := nth i (M_list st) 0) in *.
set (b := nth (S i) (M_list st) 0) in *.
assert (Ha0 : 0 <= a) by lra.
assert (Hb2 : 0.99899 ^ 2 * a ^ 2 <= b ^ 2).
{ replace (0.99899 ^ 2 * a ^ 2) with ((0.99899 * a) ^ 2) by ring.
  apply pow_incr. lra. }
assert (Hdb : Rabs (2 * b ^ 2 - M0 p ^ 2) <= 0.00202 * M0 p ^ 2).
{ rewrite Rabs_left by lra. nra. }
set (d := map2 (fun a b => Rabs (a - b)) (S_bh_list st) (S_rad_list st)).
assert (Hdlen : length d = length (M_list st)).
{ unfold d. rewrite map2_length;
    rewrite ?(ok_len_S_bh _ _ Hok), ?(ok_len_S_rad _ _ Hok),
      ?(ok_len_M _ _ Hok); reflexivity. }
assert (Hne : d <> []).
{ intros E. rewrite E in Hdlen. simpl in Hdlen. lia. }
destruct (argmin_spec d Hne) as (H1 & Hmin & _).
fold (page_index (S_bh_list st) (S_rad_list st)) in H1, Hmin.
fold idx in H1, Hmin. rewrite Hdlen in H1, Hmin.
pose proof (Hmin (S i) Hi) as Hle.
unfold d in Hle.
rewrite !(entropy_difference p st) in Hle by assumption.
fold b in Hle.
assert (Hidx : Rabs (2 * nth idx (M_list st) 0 ^ 2 - M0 p ^ 2)
               <= 0.00202 * M0 p ^ 2).
{ apply Rle_trans with (2 := Hdb).
  apply (Rmult_le_reg_l (4 * PI / LOG2)); assumption. }
split; [| exact Hidx]. split; [| exact H1].
destruct idx as [| k]; [exfalso | lia].
rewrite HM_0 in Hidx. rewrite Rabs_pos_eq in Hidx by lra. lra.
Qed.

End PageFacts.

(** X20.  Where the Page point lies: for [1e-50 <= M0 <= 1e6], [T0] of
    ordinary magnitude and
    [n_steps >= 348] the history reaches masses below [M0 / sqrt 2], and
    the selected Page point has the black hole at half of its initial
    entropy to within 0.21 percent:
    [0.4989 <= M_page_over_M0^2 <= 0.5011]; it is not the first record, and
    [0 < tau_page <= 1]. *)
Theorem page_point_location (p : EvapFullsim.FullSimParams)
  (r : EvapFullsim.Trajectory) :
  1e-50 <= EvapFullsim.M0 p <= 1e6 ->
  ordinary (EvapFullsim.T0 p) ->
  (348 <= EvapFullsim.n_steps p)%Z ->
  EvapFullsim.evolve_trajectory p = Some r ->
  exists a t,
    EvapFullsim.M_page_over_M0 r = Finite a /\
    0.4989 <= a ^ 2 <= 0.5011 /\
    EvapFullsim.tau_page r = Finite t /\ 0 < t <= 1.
Proof.
intros HM0r HT0o Hn Hr.
assert (HM0 : 0 < EvapFullsim.M0 p <= 1e6) by lra.
pose proof (ordinary_nonzero _ HT0o) as HT0.
apply (RatioFacts.evolve_with_ratio EvapFullsim.F_default p
         ltac:(lra) HT0 (fun T => RatioFacts.F_default_dominant p T HM0))
  in Hr.
destruct Hr as (st & e & -> & Hok & Hrt & H2 & Hmax & He).
assert (Hne : EvapFullsim.M0 p <> 0) by lra.
assert (Hsq : 0 < EvapFullsim.M0 p ^ 2) by nra.
pose proof (EvapFullsim.ratio_cur _ _ Hrt) as [Hlo Hhi].
assert (Hcur0 : 0 < EvapFullsim.cur_M st).
{ pose proof (EvapFullsim.ratio_above _ _ Hrt H2). lra. }
assert (Hcur : 2 * EvapFullsim.cur_M st ^ 2 < EvapFullsim.M0 p ^ 2).
{ assert (Hb : EvapFullsim.cur_M st <= 0.7071 * EvapFullsim.M0 p).
  { destruct He as [[_ Hle] | [_ Hcap]]; [lra |].
    assert (Hq : 0.999 ^ (length (EvapFullsim.M_list st) - 1)
                 <= 0.999 ^ Z.to_nat 347).
    { apply StepFacts.pow_le_1_antitone; [lra | lia]. }
    pose proof PageFacts.shrink_347. nra. }
  assert (EvapFullsim.cur_M st ^ 2 <= (0.7071 * EvapFullsim.M0 p) ^ 2)
    by (apply pow_incr; lra).
  nra. }
destruct (PageFacts.page_mass p st ltac:(lra) Hok Hrt Hcur)
  as [[Hidx0 Hidx] Hpage].
set (idx := EvapFullsim.page_index (EvapFullsim.S_bh_list st)
              (EvapFullsim.S_rad_list st)) in *.
pose proof (chain_nth _ Rlt (EvapFullsim.t_list st) 0
              ltac:(intros; lra) (EvapFullsim.ok_t_increasing _ _ Hok))
  as Htc.
pose proof (hd_error_nth _ _ _ 0 (EvapFullsim.ok_first_t _ _ Hok)) as Ht_0.
pose proof (EvapFullsim.ok_len_M _ _ Hok) as HlM.
assert (Htp : 0 < nth idx (EvapFullsim.t_list st) 0).
{ rewrite <- Ht_0 at 1. apply Htc. lia. }
assert (Hte : nth idx (EvapFullsim.t_list st) 0
              <= last (EvapFullsim.t_list st) 0).
{ rewrite last_nth.
  destruct (Nat.eq_dec idx (length (EvapFullsim.t_list st) - 1))
    as [-> | Hd]; [lra |].
  left. apply Htc. lia. }
exists (nth idx (EvapFullsim.M_list st) 0 / EvapFullsim.M0 p),
       (nth idx (EvapFullsim.t_list st) 0
        / last (EvapFullsim.t_list st) 0).
unfold EvapFullsim.post_process.
cbn [EvapFullsim.M_page_over_M0 EvapFullsim.tau_page].
fold idx.
rewrite !ExitFacts.nth_map_np_div by (try lra; lia).
split; [reflexivity |]. split; [| split; [reflexivity |]].
- apply RoundFacts.Rabs_le_bounds in Hpage.
  set (m := nth idx (EvapFullsim.M_list st) 0) in *.
  replace ((m / EvapFullsim.M0 p) ^ 2)
    with (m ^ 2 * / EvapFullsim.M0 p ^ 2) by (field; assumption).
  assert (Hinv : 0 < / EvapFullsim.M0 p ^ 2)
    by (apply Rinv_0_lt_compat; assumption).
  assert (Hone : EvapFullsim.M0 p ^ 2 * / EvapFullsim.M0 p ^ 2 = 1)
    by (apply Rinv_r; lra).
  split; nra.
- assert (Hlast : 0 < last (EvapFullsim.t_list st) 0) by lra.
  split.
  + apply Rdiv_lt_0_compat; assumption.
  + apply (Rmult_le_reg_r (last (EvapFullsim.t_list st) 0));
      [assumption |].
    replace (nth idx (EvapFullsim.t_list st) 0
             / last (EvapFullsim.t_list st) 0
             * last (EvapFullsim.t_list st) 0)
      with (nth idx (EvapFullsim.t_list st) 0) by (field; lra).
    lra.
Qed.

Lemma page_point_location_witness :
  exists r a,
    EvapFullsim.evolve_trajectory EvapFullsim.default_params = Some r /\
    EvapFullsim.M_page_over_M0 r = Finite a /\
    0.4989 <= a ^ 2 <= 0.5011.
Proof.
destruct (TrajectoryFacts.evolve_trajectory_returns
            EvapFullsim.default_params) as [r [Hr _]];
  [simpl; lra | simpl; lra |].
destruct (page_point_location EvapFullsim.default_params r
            ltac:(simpl; lra)
            ltac:(apply ordinary_positive; simpl; lra) ltac:(simpl; lia) Hr)
  as (a & t & Ha & Hb & _).
exists r, a. split; [exact Hr |]. split; [exact Ha | exact Hb].
Defined.

(** ** The plotting script *)

(** X21.  The fallback [chi_s_y] of the plotting script computes the same
    array as [fullsim.greybody.chi_s_y], for every input and every spin,
    so the figure does not depend on which of the two was loaded. *)
Theorem fallback_chi_s_y_agrees (y : list R) (s : R) :
  GreybodyCurves.chi_s_y y s = Greybody.chi_s_y y s.
Proof.
unfold GreybodyCurves.chi_s_y, Greybody.chi_s_y, Greybody.chi_exponent,
  Greybody.high, Greybody.low.
destruct (Rlt_dec (Rabs s) 1e-9); [reflexivity |].
destruct (Rlt_dec (Rabs (s - 0.5)) 1e-9); [reflexivity |].
destruct (Rlt_dec (Rabs (s - 1)) 1e-9); [reflexivity |].
destruct (Rlt_dec (Rabs (s - 2)) 1e-9); reflexivity.
Qed.


(** ** Beyond the range of binary64 *)

Module Binary64Facts.
Import PrimFloat FloatOps FloatAxioms SpecFloat.

Lemma is_nan_SF (x : float) : is_nan x = true <-> Prim2SF x = S754_nan.
Proof.
split.
- intros H. unfold Prim2SF. rewrite H. reflexivity.
- intros H. unfold is_nan. rewrite eqb_spec, H. reflexivity.
Qed.

Lemma mul_nan_l (x y : float) : is_nan x = true -> is_nan (x * y) = true.
Proof.
rewrite !is_nan_SF, mul_spec. intros ->. reflexivity.
Qed.

Lemma mul_nan_r (x y : float) : is_nan y = true -> is_nan (x * y) = true.
Proof.
rewrite !is_nan_SF, mul_spec. intros ->.
destruct (Prim2SF x); reflexivity.
Qed.

Lemma div_nan_l (x y : float) : is_nan x = true -> is_nan (x / y) = true.
Proof.
rewrite !is_nan_SF, div_spec. intros ->. reflexivity.
Qed.

Lemma add_nan_l (x y : float) : is_nan x = true -> is_nan (x + y) = true.
Proof.
rewrite !is_nan_SF, add_spec. intros ->. reflexivity.
Qed.

Lemma add_nan_r (x y : float) : is_nan y = true -> is_nan (x + y) = true.
Proof.
rewrite !is_nan_SF, add_spec. intros ->.
destruct (Prim2SF x); reflexivity.
Qed.

Lemma fold_add_nan (l : list float) (acc : float) :
  is_nan acc = true -> is_nan (fold_left add l acc) = true.
Proof.
revert acc. induction l as [| a l IH]; intros acc H; [exact H |].
simpl. apply IH. apply add_nan_l. exact H.
Qed.

(** A grid whose first step is nan gives a nan integral, whatever the
    integrand. *)
Lemma trapz_nan (ys xs : list float) (x0 x1 y0 y1 : float) :
  is_nan (x1 - x0) = true ->
  is_nan (Binary64.trapz (y0 :: y1 :: ys) (x0 :: x1 :: xs)) = true.
Proof.
intros H. unfold Binary64.trapz, Binary64.np_sum.
cbn [Binary64.trapz_terms fold_left].
apply fold_add_nan. apply add_nan_r. apply div_nan_l. apply mul_nan_l.
exact H.
Qed.

Lemma map3_cons2 (A B C D : Type) (f : A -> B -> C -> D)
  (a0 a1 : A) (la : list A) (b0 b1 : B) (lb : list B)
  (c0 c1 : C) (lc : list C) :
  map3 f (a0 :: a1 :: la) (b0 :: b1 :: lb) (c0 :: c1 :: lc)
  = f a0 b0 c0 :: f a1 b1 c1 :: map3 f la lb lc.
Proof. reflexivity. Qed.

End Binary64Facts.

Module Overflow.
Import PrimFloat.
Local Open Scope float_scope.

(** At [T = 1e-320] the product [k_B * T] underflows to zero and the
    division raises, although [T] is not zero. *)
Lemma threshold_underflow_raises :
  eqb 1e-320 0 = false /\ Binary64.mu_of 1e-320 Binary64.pion = None.
Proof. split; vm_compute; reflexivity. Qed.

(** C3.  [_I_species] in binary64 at [T = 1e-300], for the pion and the
    default grid of 600 points: the threshold [m_eV / (k_B * T)] overflows
    to [+inf], both ends of the grid are [+inf], the step of [np.linspace]
    is [inf - inf], a nan, and the value returned is nan, whatever [np.exp]
    and [np.power] return: not a finite value [>= 0]. *)
Theorem pion_integral_is_nan (np_exp : float -> float)
  (np_power : float -> float -> float) :
  ltb 0 1e-300 = true /\
  Binary64.mu_of 1e-300 Binary64.pion = Some infinity /\
  exists v,
    Binary64._I_species np_exp np_power 1e-300 Binary64.pion 600 = Some v /\
    is_nan v = true /\ is_finite v = false /\ leb 0 v = false.
Proof.
split; [vm_compute; reflexivity |].
split; [vm_compute; reflexivity |].
unfold Binary64._I_species.
assert (Hmu : Binary64.mu_of 1e-300 Binary64.pion = Some infinity)
  by (vm_compute; reflexivity).
rewrite Hmu. cbn [bind].
assert (Hmin : Binary64.py_max infinity 1e-6 = infinity)
  by (vm_compute; reflexivity).
assert (Hmax : Binary64.py_max (infinity + 40) 40 = infinity)
  by (vm_compute; reflexivity).
rewrite Hmin, Hmax.
eexists. split; [reflexivity |].
match goal with |- is_nan ?v = true /\ _ => set (res := v) end.
assert (Hnan : is_nan res = true).
{ unfold res. apply Binary64Facts.mul_nan_r.
  remember (Binary64.linspace infinity infinity 600) as xs eqn:Hxs.
  assert (Hx : exists x0 x1 rest,
             xs = x0 :: x1 :: rest /\ is_nan (x1 - x0) = true).
  { rewrite Hxs. vm_compute. do 3 eexists. split; reflexivity. }
  destruct Hx as (x0 & x1 & rest & -> & Hd).
  cbn [map Binary64.fermion Binary64.pion map2].
  rewrite Binary64Facts.map3_cons2.
  apply Binary64Facts.trapz_nan. exact Hd. }
split; [exact Hnan |]. split.
- unfold is_finite. rewrite Hnan. reflexivity.
- rewrite FloatAxioms.leb_spec.
  apply Binary64Facts.is_nan_SF in Hnan. rewrite Hnan.
  destruct (FloatOps.Prim2SF 0); reflexivity.
Qed.

(** C6.  [chi_s_y] in binary64 at [y = 1e200] and spin 0: [y**2] overflows
    to [+inf], [inf / (1 + inf)] is nan, and the value returned is nan:
    it is neither bounded by [27*pi/4] nor at least the value at [y = 1]. *)
Theorem chi_s_y_is_nan (np_power : float -> float -> float) :
  leb 0 1e200 = true /\
  is_nan (Binary64.chi_s_y np_power 1e200 0) = true /\
  leb (Binary64.chi_s_y np_power 1e200 0) (27 * Binary64.np_pi / 4) = false /\
  leb (Binary64.chi_s_y np_power 1 0) (Binary64.chi_s_y np_power 1e200 0)
    = false.
Proof. repeat split; vm_compute; reflexivity. Qed.

End Overflow.
